(** * Herald: the reader's client-side state and the pipeline's tables

    The development embeds
    - [frontend/src/pages/Onboarding.jsx] ([toggleTopic]),
    - the [useArticles] hook ([loadMore], [markRead], [toggleSave]),
    - the migrations that create [articles], [article_analysis],
      [opposing_articles] and [user_articles],
    and, on top of the tables, the analysis orchestrator and the
    opposing-article matcher as the design document describes them. *)

From stdpp Require Import gmap strings list sorting.
From Stdlib Require Import Ascii QArith.

Open Scope Z_scope.

(** ** JavaScript values *)

Module JS.

(** The values the hook handles.  Numbers are the exact integers (page
    counters, totals); on those [+] is exact below [2^53] and [===]
    is plain equality. *)
Inductive value :=
  | VUndefined
  | VNull
  | VBool (b : bool)
  | VNum (n : Z)
  | VStr (s : string).

#[global] Instance value_eq_dec : EqDecision value.
Proof. solve_decision. Defined.

(** [if (v)], [!v], [v || w] *)
Definition truthy (v : value) : bool :=
  match v with
  | VUndefined | VNull => false
  | VBool b => b
  | VNum n => negb (n =? 0)
  | VStr s => negb (String.eqb s "")
  end.

(** [a === b] *)
Definition strict_eq (a b : value) : bool := bool_decide (a = b).

(** A plain object: a finite map from property names to values.
    Reading an absent property gives [undefined]. *)
Abbreviation obj := (gmap string value).

Definition get (o : obj) (k : string) : value := default VUndefined (o !! k).

(** [{ ...o, k: v }] *)
Definition spread_set (o : obj) (k : string) (v : value) : obj := <[k := v]> o.

End JS.

(** ** Onboarding.jsx *)

Module Onboarding.

(** [const [selectedTopics, setSelectedTopics] = useState([])] *)
Definition initialSelectedTopics : list string := [].

(** The updater that [toggleTopic(topicId)] hands to
    [setSelectedTopics]:
    [prev.includes(topicId) ? prev.filter((id) => id !== topicId)
                            : [...prev, topicId]] *)
Definition toggleTopic (topicId : string) (prev : list string) : list string :=
  if bool_decide (topicId ∈ prev)
  then filter (λ id, id ≠ topicId) prev
  else prev ++ [topicId].

(** The selection after a series of clicks, oldest first; [toggleTopic]
    is the only caller of [setSelectedTopics]. *)
Definition selectedAfter (clicks : list string) : list string :=
  foldl (λ prev topicId, toggleTopic topicId prev) initialSelectedTopics clicks.

End Onboarding.

(** ** The useArticles hook *)

Module UseArticles.
Import JS.

Record Pagination := {
  page : Z;
  perPage : Z;
  total : Z;
  hasMore : bool
}.

Record HookState := {
  articles : list obj;
  loading : bool;
  error : option string;
  pagination : Pagination
}.

(** The four [useState] initialisers. *)
Definition initialState : HookState :=
  {| articles := [];
     loading := false;
     error := None;
     pagination := {| page := 1; perPage := 20; total := 0; hasMore := false |} |}.

(** What the API client answers to [GET /articles]: a bare array of
    articles, or an object carrying the array in [articles] next to
    the paging fields (any of which may be missing). *)
Inductive response :=
  | RArray (items : list obj)
  | RObject (r_articles : list obj) (r_per_page r_total : option Z)
            (r_has_more : option bool).

(** [response.articles || response] (an array is truthy even when empty) *)
Definition response_articles (r : response) : list obj :=
  match r with
  | RArray items => items
  | RObject items _ _ _ => items
  end.

Definition response_per_page (r : response) : option Z :=
  match r with RArray _ => None | RObject _ p _ _ => p end.
Definition response_total (r : response) : option Z :=
  match r with RArray _ => None | RObject _ _ t _ => t end.
Definition response_has_more (r : response) : option bool :=
  match r with RArray _ => None | RObject _ _ _ h => h end.

(** [n || d] on an optional number: [undefined] and [0] are falsy. *)
Definition num_or (n : option Z) (d : Z) : Z :=
  match n with
  | Some n => if n =? 0 then d else n
  | None => d
  end.

(** [b || false] *)
Definition bool_or_false (b : option bool) : bool := default false b.

(** A request to the API client.  [URLSearchParams] is kept as the
    ordered list of pairs appended to it; the template literal
    [`/articles/${articleId}`] as the prefix and the interpolated value. *)
Inductive request :=
  | Get (path : string) (params : list (string * value))
  | Patch (path : string) (id : value) (body : list (string * value)).

(** The awaited promise: fulfilled with a response, or rejected with an
    error whose [message] is kept. *)
Inductive settlement :=
  | Fulfilled (r : response)
  | Rejected (message : string).

(** One call of a state setter. *)
Inductive update :=
  | SetArticles (f : list obj → list obj)
  | SetLoading (b : bool)
  | SetError (e : option string)
  | SetPagination (p : Pagination).

Definition apply_update (s : HookState) (u : update) : HookState :=
  match u with
  | SetArticles f =>
      {| articles := f (articles s); loading := loading s;
         error := error s; pagination := pagination s |}
  | SetLoading b =>
      {| articles := articles s; loading := b;
         error := error s; pagination := pagination s |}
  | SetError e =>
      {| articles := articles s; loading := loading s;
         error := e; pagination := pagination s |}
  | SetPagination p =>
      {| articles := articles s; loading := loading s;
         error := error s; pagination := p |}
  end.

Definition apply_updates (s : HookState) (us : list update) : HookState :=
  foldl apply_update s us.

(** How a call of an async callback ends. *)
Inductive completion :=
  | ReturnsUndefined
  | Returns (r : response)
  | Throws (message : string).

(** One call of an async callback of the hook: the setter calls made
    before the [await], the requests issued, the setter calls made once
    the promise has settled, and how the call ends.  The callback reads
    [loading], [pagination] and [articles] from the render that created
    it; the setters act on whatever the state is when they run. *)
Record call := {
  before_await : list update;
  issued : list request;
  after_await : list update;
  ends : completion
}.

Record Filters := {
  topic : value;
  saved : value
}.

Definition loadMore_request (rendered : HookState) (filters : Filters) : request :=
  let nextPage := page (pagination rendered) + 1 in
  Get "/articles"
      ((if truthy (topic filters) then [("topic", topic filters)] else []) ++
       (if truthy (saved filters) then [("saved", VStr "true")] else []) ++
       [("page", VNum nextPage); ("per_page", VNum (perPage (pagination rendered)))]).

Definition loadMore (api : request → settlement)
    (rendered : HookState) (filters : Filters) : call :=
  if loading rendered || negb (hasMore (pagination rendered))
  then {| before_await := []; issued := []; after_await := [];
          ends := ReturnsUndefined |}
  else
    let nextPage := page (pagination rendered) + 1 in
    let req := loadMore_request rendered filters in
    match api req with
    | Fulfilled response =>
        {| before_await := [SetLoading true; SetError None];
           issued := [req];
           after_await :=
             [SetArticles (λ prev, prev ++ response_articles response);
              SetPagination
                {| page := nextPage;
                   perPage := num_or (response_per_page response)
                                     (perPage (pagination rendered));
                   total := num_or (response_total response) 0;
                   hasMore := bool_or_false (response_has_more response) |};
              SetLoading false];
           ends := Returns response |}
    | Rejected message =>
        {| before_await := [SetLoading true; SetError None];
           issued := [req];
           after_await := [SetError (Some message); SetLoading false];
           ends := Throws message |}
    end.

(** The default of [isRead = true] applies when the argument is
    [undefined]. *)
Definition isRead_arg (isRead : value) : value :=
  match isRead with VUndefined => VBool true | v => v end.

Definition markRead_updater (articleId isRead : value) (prev : list obj) : list obj :=
  (λ article,
     if strict_eq (get article "id") articleId
     then spread_set article "is_read" isRead
     else article) <$> prev.

Definition markRead (api : request → settlement)
    (articleId isRead : value) : call :=
  let isRead := isRead_arg isRead in
  let req := Patch "/articles/" articleId [("is_read", isRead)] in
  match api req with
  | Fulfilled _ =>
      {| before_await := []; issued := [req];
         after_await := [SetArticles (markRead_updater articleId isRead)];
         ends := ReturnsUndefined |}
  | Rejected message =>
      {| before_await := []; issued := [req];
         after_await := [SetError (Some message)];
         ends := Throws message |}
  end.

(** [!article?.is_saved], with [article] the result of [find] *)
Definition newSavedState (rendered : HookState) (articleId : value) : bool :=
  match List.find (λ a, strict_eq (get a "id") articleId) (articles rendered) with
  | Some article => negb (truthy (get article "is_saved"))
  | None => true
  end.

Definition toggleSave_updater (articleId : value) (newSaved : bool)
    (prev : list obj) : list obj :=
  (λ a,
     if strict_eq (get a "id") articleId
     then spread_set a "is_saved" (VBool newSaved)
     else a) <$> prev.

Definition toggleSave (api : request → settlement)
    (rendered : HookState) (articleId : value) : call :=
  let newSaved := newSavedState rendered articleId in
  let req := Patch "/articles/" articleId [("is_saved", VBool newSaved)] in
  match api req with
  | Fulfilled _ =>
      {| before_await := []; issued := [req];
         after_await := [SetArticles (toggleSave_updater articleId newSaved)];
         ends := ReturnsUndefined |}
  | Rejected message =>
      {| before_await := []; issued := [req];
         after_await := [SetError (Some message)];
         ends := Throws message |}
  end.

(** The state once every setter call of [c] has run, starting from [s]
    with nothing else in between. *)
Definition run (c : call) (s : HookState) : HookState :=
  apply_updates (apply_updates s (before_await c)) (after_await c).

(** [s'] is [s] with, in every article whose [id] is [articleId], the
    property [flag] set to [v], and nothing else touched: same length,
    same positions, same other properties, same rest of the state. *)
Definition only_flag_set (flag : string) (v articleId : value)
    (s s' : HookState) : Prop :=
  length (articles s') = length (articles s) ∧
  (∀ i a, articles s !! i = Some a →
     ∃ a', articles s' !! i = Some a' ∧
           (get a "id" ≠ articleId → a' = a) ∧
           (get a "id" = articleId → a' !! flag = Some v) ∧
           (∀ k, k ≠ flag → a' !! k = a !! k)) ∧
  loading s' = loading s ∧
  error s' = error s ∧
  pagination s' = pagination s.

End UseArticles.

(** ** The tables *)

Module Schema.

(** [UUID] keys and [TIMESTAMPTZ] instants, both as numbers. *)
Definition uuid := N.
Definition timestamptz := Z.

(** The error classes a rejected statement reports. *)
Inductive sql_error :=
  | unique_violation
  | foreign_key_violation
  | not_null_violation
  | string_data_right_truncation.

#[global] Instance sql_error_eq_dec : EqDecision sql_error.
Proof. solve_decision. Defined.

(** A statement either commits and gives a value, or is rejected and
    leaves the database as it was. *)
Inductive result (A : Type) :=
  | Ok (a : A)
  | Err (e : sql_error).
Arguments Ok {A} a.
Arguments Err {A} e.

#[global] Instance result_ret : MRet result := λ A a, Ok a.
#[global] Instance result_bind : MBind result := λ A B f m,
  match m with
  | Ok a => f a
  | Err e => Err e
  end.

(** What an [INSERT] gives for a column: nothing (the column's default
    applies, [NULL] when it has none), an explicit [NULL], or a value. *)
Inductive supplied (A : Type) :=
  | DEFAULT
  | NULL
  | Value (a : A).
Arguments DEFAULT {A}.
Arguments NULL {A}.
Arguments Value {A} a.

Definition resolve {A} (dflt : option A) (s : supplied A) : option A :=
  match s with
  | DEFAULT => dflt
  | NULL => None
  | Value a => Some a
  end.

(** [NOT NULL] *)
Definition not_null {A} (o : option A) : result A :=
  match o with
  | Some a => Ok a
  | None => Err not_null_violation
  end.

Definition is_space (c : Ascii.ascii) : bool := bool_decide (c = " "%char).

(** Storing into [VARCHAR(n)]: a longer string is an error unless the
    excess is all spaces, which is cut off. *)
Definition varchar (n : nat) (s : string) : result string :=
  if decide (String.length s ≤ n)%nat then Ok s
  else if forallb is_space (drop n (String.list_ascii_of_string s))
       then Ok (String.substring 0 n s)
       else Err string_data_right_truncation.

Definition varchar_null (n : nat) (o : option string) : result (option string) :=
  match o with
  | None => Ok None
  | Some s => s' ← varchar n s; mret (Some s')
  end.

(** [DEFAULT gen_random_uuid()]: an id no row of the table has (two
    random UUIDs are taken never to collide). *)
Definition gen_random_uuid (taken : list uuid) : uuid :=
  N.succ (foldr N.max 0%N taken).

(** [CREATE TABLE feeds] *)
Record feed := {
  f_id : uuid;
  f_title : string;
  f_url : string;
  f_site_url : option string;
  f_description : option string;
  f_topic_id : option uuid;
  f_is_curated : bool;
  f_last_fetched_at : option timestamptz;
  f_created_at : timestamptz;
  f_updated_at : timestamptz
}.

(** [CREATE TABLE articles] *)
Record article := {
  a_id : uuid;
  a_feed_id : uuid;
  a_title : string;
  a_url : string;
  a_author : option string;
  a_summary : option string;
  a_content : option string;
  a_published_at : option timestamptz;
  a_guid : option string;
  a_created_at : timestamptz
}.

(** [CREATE TABLE article_analysis]; the two [JSONB] columns hold
    arrays of strings, the two [REAL] columns rationals. *)
Record analysis := {
  an_id : uuid;
  an_article_id : uuid;
  an_content_type : string;
  an_bias_score : option Q;
  an_bias_confidence : option Q;
  an_bias_indicators : option (list string);
  an_opposing_queries : option (list string);
  an_topic_summary : option string;
  an_provider : string;
  an_model_version : option string;
  an_analyzed_at : timestamptz
}.

(** [CREATE TABLE opposing_articles] *)
Record link := {
  l_id : uuid;
  l_source_article_id : uuid;
  l_opposing_article_id : uuid;
  l_relevance_score : Q;
  l_created_at : timestamptz
}.

(** [CREATE TABLE user_articles] *)
Record user_article := {
  ua_user_id : uuid;
  ua_article_id : uuid;
  ua_is_read : bool;
  ua_is_saved : bool;
  ua_read_at : option timestamptz;
  ua_saved_at : option timestamptz
}.

Record db := {
  feeds : list feed;
  articles : list article;
  article_analysis : list analysis;
  opposing_articles : list link;
  user_articles : list user_article
}.

(** A [UNIQUE] or [PRIMARY KEY] check: the key must not be among those
    of the rows already there. *)
Definition unique {K} `{EqDecision K} (k : K) (taken : list K) : result unit :=
  if decide (k ∈ taken) then Err unique_violation else Ok ().

(** A [REFERENCES] check. *)
Definition references (k : uuid) (keys : list uuid) : result unit :=
  if decide (k ∈ keys) then Ok () else Err foreign_key_violation.

(** *** articles *)

Record article_insert := {
  ai_id : supplied uuid;
  ai_feed_id : supplied uuid;
  ai_title : supplied string;
  ai_url : supplied string;
  ai_author : supplied string;
  ai_summary : supplied string;
  ai_content : supplied string;
  ai_published_at : supplied timestamptz;
  ai_guid : supplied string;
  ai_created_at : supplied timestamptz
}.

(** The key of [UNIQUE (feed_id, guid)]; a row whose [guid] is [NULL]
    has none, so it never collides. *)
Definition feed_guid (a : article) : option (uuid * string) :=
  g ← a_guid a; Some (a_feed_id a, g).

Definition insert_article (now : timestamptz) (i : article_insert) (d : db)
    : result db :=
  id ← not_null (resolve (Some (gen_random_uuid (a_id <$> articles d))) (ai_id i));
  feed_id ← not_null (resolve None (ai_feed_id i));
  title ← not_null (resolve None (ai_title i)) ≫= varchar 1000;
  url ← not_null (resolve None (ai_url i)) ≫= varchar 2000;
  author ← varchar_null 500 (resolve None (ai_author i));
  guid ← varchar_null 2000 (resolve None (ai_guid i));
  created_at ← not_null (resolve (Some now) (ai_created_at i));
  let row :=
    {| a_id := id; a_feed_id := feed_id; a_title := title; a_url := url;
       a_author := author;
       a_summary := resolve None (ai_summary i);
       a_content := resolve None (ai_content i);
       a_published_at := resolve None (ai_published_at i);
       a_guid := guid; a_created_at := created_at |} in
  _ ← unique id (a_id <$> articles d);
  _ ← match feed_guid row with
      | Some k => unique k (omap feed_guid (articles d))
      | None => Ok ()
      end;
  _ ← references feed_id (f_id <$> feeds d);
  mret {| feeds := feeds d;
          articles := articles d ++ [row];
          article_analysis := article_analysis d;
          opposing_articles := opposing_articles d;
          user_articles := user_articles d |}.

(** *** article_analysis *)

Record analysis_insert := {
  ani_id : supplied uuid;
  ani_article_id : supplied uuid;
  ani_content_type : supplied string;
  ani_bias_score : supplied Q;
  ani_bias_confidence : supplied Q;
  ani_bias_indicators : supplied (list string);
  ani_opposing_queries : supplied (list string);
  ani_topic_summary : supplied string;
  ani_provider : supplied string;
  ani_model_version : supplied string;
  ani_analyzed_at : supplied timestamptz
}.

Definition insert_article_analysis (now : timestamptz) (i : analysis_insert)
    (d : db) : result db :=
  id ← not_null (resolve (Some (gen_random_uuid (an_id <$> article_analysis d)))
                         (ani_id i));
  article_id ← not_null (resolve None (ani_article_id i));
  content_type ← not_null (resolve (Some "neutral") (ani_content_type i))
                   ≫= varchar 20;
  topic_summary ← varchar_null 500 (resolve None (ani_topic_summary i));
  provider ← not_null (resolve None (ani_provider i)) ≫= varchar 50;
  model_version ← varchar_null 100 (resolve None (ani_model_version i));
  analyzed_at ← not_null (resolve (Some now) (ani_analyzed_at i));
  let row :=
    {| an_id := id; an_article_id := article_id;
       an_content_type := content_type;
       an_bias_score := resolve None (ani_bias_score i);
       an_bias_confidence := resolve None (ani_bias_confidence i);
       an_bias_indicators := resolve None (ani_bias_indicators i);
       an_opposing_queries := resolve None (ani_opposing_queries i);
       an_topic_summary := topic_summary;
       an_provider := provider;
       an_model_version := model_version;
       an_analyzed_at := analyzed_at |} in
  _ ← unique id (an_id <$> article_analysis d);
  _ ← unique article_id (an_article_id <$> article_analysis d);
  _ ← references article_id (a_id <$> articles d);
  mret {| feeds := feeds d;
          articles := articles d;
          article_analysis := article_analysis d ++ [row];
          opposing_articles := opposing_articles d;
          user_articles := user_articles d |}.

(** *** opposing_articles *)

Record link_insert := {
  li_id : supplied uuid;
  li_source_article_id : supplied uuid;
  li_opposing_article_id : supplied uuid;
  li_relevance_score : supplied Q;
  li_created_at : supplied timestamptz
}.

(** The key of [UNIQUE(source_article_id, opposing_article_id)]. *)
Definition pair_of (l : link) : uuid * uuid :=
  (l_source_article_id l, l_opposing_article_id l).

Definition insert_opposing_article (now : timestamptz) (i : link_insert)
    (d : db) : result db :=
  id ← not_null (resolve (Some (gen_random_uuid (l_id <$> opposing_articles d)))
                         (li_id i));
  source ← not_null (resolve None (li_source_article_id i));
  opposing ← not_null (resolve None (li_opposing_article_id i));
  score ← not_null (resolve None (li_relevance_score i));
  created_at ← not_null (resolve (Some now) (li_created_at i));
  let row :=
    {| l_id := id; l_source_article_id := source;
       l_opposing_article_id := opposing;
       l_relevance_score := score; l_created_at := created_at |} in
  _ ← unique id (l_id <$> opposing_articles d);
  _ ← unique (pair_of row) (pair_of <$> opposing_articles d);
  _ ← references source (a_id <$> articles d);
  _ ← references opposing (a_id <$> articles d);
  mret {| feeds := feeds d;
          articles := articles d;
          article_analysis := article_analysis d;
          opposing_articles := opposing_articles d ++ [row];
          user_articles := user_articles d |}.

(** *** Deletion *)

(** [DELETE FROM articles WHERE id = ...], with the [ON DELETE CASCADE]
    of the three tables that reference [articles(id)]. *)
Definition delete_article (id : uuid) (d : db) : db :=
  {| feeds := feeds d;
     articles := filter (λ a, a_id a ≠ id) (articles d);
     article_analysis :=
       filter (λ r, an_article_id r ≠ id) (article_analysis d);
     opposing_articles :=
       filter (λ l, l_source_article_id l ≠ id ∧ l_opposing_article_id l ≠ id)
              (opposing_articles d);
     user_articles := filter (λ u, ua_article_id u ≠ id) (user_articles d) |}.

(** [DELETE FROM feeds WHERE id = ...]: [articles.feed_id] cascades, and
    each article deleted that way cascades in turn. *)
Definition delete_feed (id : uuid) (d : db) : db :=
  let doomed := a_id <$> filter (λ a, a_feed_id a = id) (articles d) in
  let d' := foldr delete_article d doomed in
  {| feeds := filter (λ f, f_id f ≠ id) (feeds d');
     articles := articles d';
     article_analysis := article_analysis d';
     opposing_articles := opposing_articles d';
     user_articles := user_articles d' |}.

(** *** Statements and the states they reach *)

Inductive statement :=
  | InsertArticle (now : timestamptz) (i : article_insert)
  | InsertAnalysis (now : timestamptz) (i : analysis_insert)
  | InsertOpposing (now : timestamptz) (i : link_insert)
  | DeleteArticle (id : uuid)
  | DeleteFeed (id : uuid).

(** A rejected statement changes nothing. *)
Definition commit (r : result db) (d : db) : db :=
  match r with
  | Ok d' => d'
  | Err _ => d
  end.

Definition exec (d : db) (st : statement) : db :=
  match st with
  | InsertArticle now i => commit (insert_article now i d) d
  | InsertAnalysis now i => commit (insert_article_analysis now i d) d
  | InsertOpposing now i => commit (insert_opposing_article now i d) d
  | DeleteArticle id => delete_article id d
  | DeleteFeed id => delete_feed id d
  end.

(** The database after a series of statements, from tables that hold
    feeds only. *)
Definition reached (known_feeds : list feed) (sts : list statement) : db :=
  foldl exec
    {| feeds := known_feeds; articles := []; article_analysis := [];
       opposing_articles := []; user_articles := [] |}
    sts.

(** *** Queries *)

(** [SELECT * FROM articles WHERE id = ...] *)
Definition getArticle (d : db) (id : uuid) : option article :=
  List.find (λ a, bool_decide (a_id a = id)) (articles d).

(** [SELECT * FROM article_analysis WHERE article_id = ...] *)
Definition getAnalysis (d : db) (article_id : uuid) : option analysis :=
  List.find (λ r, bool_decide (an_article_id r = article_id)) (article_analysis d).

(** The rows of a table that hang on one article. *)
Definition analyses_of (d : db) (article_id : uuid) : list analysis :=
  filter (λ r, an_article_id r = article_id) (article_analysis d).

Definition links_of (d : db) (article_id : uuid) : list link :=
  filter (λ l, l_source_article_id l = article_id ∨ l_opposing_article_id l = article_id)
         (opposing_articles d).

(** *** What the constraints promise *)

(** [UNIQUE (feed_id, guid)] on [articles]. *)
Definition articles_unique (d : db) : Prop :=
  NoDup (omap feed_guid (articles d)).

(** [UNIQUE] on [article_analysis.article_id]. *)
Definition analysis_unique (d : db) : Prop :=
  NoDup (an_article_id <$> article_analysis d).

(** [UNIQUE(source_article_id, opposing_article_id)] on
    [opposing_articles]. *)
Definition links_unique (d : db) : Prop :=
  NoDup (pair_of <$> opposing_articles d).

(** The statements that delete. *)
Definition is_delete (st : statement) : Prop :=
  match st with
  | DeleteArticle _ | DeleteFeed _ => True
  | _ => False
  end.

(** Every table of [d'] is what is left of the same table of [d]
    after taking rows out. *)
Definition shrinks (d' d : db) : Prop :=
  feeds d' `sublist_of` feeds d ∧
  articles d' `sublist_of` articles d ∧
  article_analysis d' `sublist_of` article_analysis d ∧
  opposing_articles d' `sublist_of` opposing_articles d ∧
  user_articles d' `sublist_of` user_articles d.

(** An article given no id and no guid. *)
Definition without_guid (feed_id : uuid) (title url : string) : article_insert :=
  {| ai_id := DEFAULT; ai_feed_id := Value feed_id;
     ai_title := Value title; ai_url := Value url;
     ai_author := NULL; ai_summary := NULL; ai_content := NULL;
     ai_published_at := NULL; ai_guid := NULL; ai_created_at := DEFAULT |}.

End Schema.

(** ** The pipeline over the tables *)

Module Pipeline.
Import Schema.

#[global] Instance Qle_decision : RelDecision Qle.
Proof. intros x y. unfold Qle. apply _. Defined.
#[global] Instance Qlt_decision : RelDecision Qlt.
Proof. intros x y. unfold Qlt. apply _. Defined.

(** Modelled from the spec: the provider adapter's [Classification]
    (no adapter is in the repository); every field is one the provider
    may leave out. *)
Record classification := {
  c_content_type : option string;
  c_bias_score : option Q;
  c_bias_confidence : option Q;
  c_indicators : option (list string);
  c_topic_summary : option string
}.

(** Modelled from the spec: the three kinds of [ProviderError] of the
    absent adapter. *)
Inductive provider_error :=
  | NetworkTimeout
  | MalformedResponse
  | PolicyRefusal.

(** Modelled from the spec: what one [classify] call of the absent
    adapter comes back with. *)
Inductive provider_outcome :=
  | Classified (c : classification)
  | ProviderError (k : provider_error).

(** Modelled from the spec: the identity of a configured adapter, as
    the absent orchestrator stores it in [provider] and [model_version]. *)
Record adapter := {
  adapter_id : string;
  adapter_model : option string
}.

(** Modelled from the spec: what the two endpoints end up replying
    (retries included) to one [analyze] call of the absent
    orchestrator; the fallback's reply is looked at only when the
    primary fails. *)
Record answers := {
  primary_answer : provider_outcome;
  fallback_answer : provider_outcome
}.

(** Modelled from the spec: the error taxonomy of the absent
    orchestrator. *)
Inductive error :=
  | ProviderFailed (k : provider_error)
  | NotFoundError
  | StorageError (e : sql_error).

(** Modelled from the spec: clamping, the absent orchestrator's
    normalisation of a score into its domain. *)
Definition clamp (lo hi x : Q) : Q :=
  if decide (x < lo)%Q then lo
  else if decide (hi < x)%Q then hi
  else x.

(** Modelled from the spec: step 4 of the absent orchestrator's
    [analyze]: clamp [bias_score] into [[-1, 1]] and [bias_confidence]
    into [[0, 1]], truncate [topic_summary] to the storage limit,
    default a missing [content_type] to "neutral". *)
Definition normalize (c : classification) : classification :=
  {| c_content_type := Some (default "neutral" (c_content_type c));
     c_bias_score := clamp (-1 # 1) 1 <$> c_bias_score c;
     c_bias_confidence := clamp 0 1 <$> c_bias_confidence c;
     c_indicators := c_indicators c;
     c_topic_summary := String.substring 0 500 <$> c_topic_summary c |}.

Definition nullable {A} (o : option A) : supplied A :=
  match o with
  | Some a => Value a
  | None => NULL
  end.

Definition or_default {A} (o : option A) : supplied A :=
  match o with
  | Some a => Value a
  | None => DEFAULT
  end.

(** Modelled from the spec: the row the absent orchestrator inserts for
    a normalised classification; the id, the timestamp and the query
    cache are left to the table. *)
Definition analysis_row (article_id : uuid) (c : classification) (ad : adapter)
    : analysis_insert :=
  {| ani_id := DEFAULT;
     ani_article_id := Value article_id;
     ani_content_type := or_default (c_content_type c);
     ani_bias_score := nullable (c_bias_score c);
     ani_bias_confidence := nullable (c_bias_confidence c);
     ani_bias_indicators := nullable (c_indicators c);
     ani_opposing_queries := DEFAULT;
     ani_topic_summary := nullable (c_topic_summary c);
     ani_provider := Value (adapter_id ad);
     ani_model_version := nullable (adapter_model ad);
     ani_analyzed_at := DEFAULT |}.

(** Modelled from the spec: the per-article state machine of the absent
    orchestrator, [Unanalyzed → Analyzing → Analyzed] or [→ Failed];
    [Inserting] is [Analyzing] once a provider has answered. *)
Inductive task :=
  | Unanalyzed
  | Analyzing
  | Inserting (c : classification) (ad : adapter)
  | Analyzed (r : analysis)
  | Failed (e : error).

Section Orchestrator.

(** The two adapters the configuration selects. *)
Variables primary fallback : adapter.

(** Modelled from the spec: step 3 of the absent orchestrator's
    [analyze]: the primary provider, then on any error the fallback. *)
Definition classify_with_fallback (ans : answers)
    : classification * adapter + provider_error :=
  match primary_answer ans with
  | Classified c => inl (c, primary)
  | ProviderError _ =>
      match fallback_answer ans with
      | Classified c => inl (c, fallback)
      | ProviderError k => inr k
      end
  end.

(** Modelled from the spec: one atomic step of the absent
    orchestrator's [analyze(article_id)].
    - [Unanalyzed]: step 1, an existing row ends the call with that row;
    - [Analyzing]: step 3 and 4, the providers are asked and the answer
      is normalised; a missing article or two failed providers end the
      call with no row written;
    - [Inserting]: step 5, the insert guarded by the uniqueness
      constraint; on a conflict the local result is dropped and the
      winner's row read back.
    The lock of step 2 only rules interleavings out, so it is left to
    the scheduler. *)
Definition analyze_step (ans : answers) (now : timestamptz) (article_id : uuid)
    (t : task) (d : db) : task * db :=
  match t with
  | Unanalyzed =>
      match getAnalysis d article_id with
      | Some r => (Analyzed r, d)
      | None => (Analyzing, d)
      end
  | Analyzing =>
      match getArticle d article_id with
      | None => (Failed NotFoundError, d)
      | Some _ =>
          match classify_with_fallback ans with
          | inl (c, ad) => (Inserting (normalize c) ad, d)
          | inr k => (Failed (ProviderFailed k), d)
          end
      end
  | Inserting c ad =>
      match insert_article_analysis now (analysis_row article_id c ad) d with
      | Ok d' =>
          match getAnalysis d' article_id with
          | Some r => (Analyzed r, d')
          | None => (Failed NotFoundError, d')
          end
      | Err unique_violation =>
          match getAnalysis d article_id with
          | Some r => (Analyzed r, d)
          | None => (Failed (StorageError unique_violation), d)
          end
      | Err e => (Failed (StorageError e), d)
      end
  | Analyzed _ | Failed _ => (t, d)
  end.

(** Modelled from the spec: one whole call of the absent orchestrator's
    [analyze], its steps run back to back. *)
Definition analyze (ans : answers) (now : timestamptz) (article_id : uuid)
    (d : db) : task * db :=
  let '(t1, d1) := analyze_step ans now article_id Unanalyzed d in
  let '(t2, d2) := analyze_step ans now article_id t1 d1 in
  analyze_step ans now article_id t2 d2.

(** Modelled from the spec: concurrent [analyze] calls of the absent
    orchestrator on one article.  An event lets one caller take its
    next step, at some instant and with some replies from the
    providers; a schedule is any list of events. *)
Record event := {
  ev_caller : nat;
  ev_now : timestamptz;
  ev_answers : answers
}.

(** Modelled from the spec: one event of the concurrent calls of the
    absent orchestrator; the caller it names takes its next step. *)
Definition schedule_step (article_id : uuid) (s : db * list task) (e : event)
    : db * list task :=
  match s.2 !! ev_caller e with
  | None => s
  | Some t =>
      let '(t', d') := analyze_step (ev_answers e) (ev_now e) article_id t s.1 in
      (d', <[ev_caller e := t']> s.2)
  end.

(** Modelled from the spec: [n] calls of the absent orchestrator's
    [analyze] on one article, all started, run by a schedule. *)
Definition run_schedule (article_id : uuid) (d : db) (n : nat)
    (sched : list event) : db * list task :=
  foldl (schedule_step article_id) (d, replicate n Unanalyzed) sched.

(** How often the schedule lets caller [i] move. *)
Definition turns (i : nat) (sched : list event) : nat :=
  length (filter (λ e, ev_caller e = i) sched).

(** The replies of an event lead to a row the table can hold: some
    provider answers, and what is stored of it fits its column (the
    topic summary is cut to size by [normalize]). *)
Definition storable (ans : answers) : Prop :=
  match classify_with_fallback ans with
  | inl (c, ad) =>
      String.length (default "neutral" (c_content_type c)) ≤ 20 ∧
      String.length (adapter_id ad) ≤ 50 ∧
      String.length (default "" (adapter_model ad)) ≤ 100
  | inr _ => False
  end%nat.

End Orchestrator.

(** Modelled from the spec: the write-back of the absent query
    generator, which caches the queries it derived on the article's
    analysis row. *)
Definition cache_queries (article_id : uuid) (queries : list string) (d : db) : db :=
  {| feeds := feeds d;
     articles := articles d;
     article_analysis :=
       (λ r, if decide (an_article_id r = article_id)
             then {| an_id := an_id r; an_article_id := an_article_id r;
                     an_content_type := an_content_type r;
                     an_bias_score := an_bias_score r;
                     an_bias_confidence := an_bias_confidence r;
                     an_bias_indicators := an_bias_indicators r;
                     an_opposing_queries := Some queries;
                     an_topic_summary := an_topic_summary r;
                     an_provider := an_provider r;
                     an_model_version := an_model_version r;
                     an_analyzed_at := an_analyzed_at r |}
             else r) <$> article_analysis d;
     opposing_articles := opposing_articles d;
     user_articles := user_articles d |}.

(** Modelled from the spec: the search collaborator of the absent
    matcher, [search(query, excluding, k)]; [None] is a [SearchError]. *)
Abbreviation search_collaborator :=
  (string → list uuid → nat → option (list article)).

(** Modelled from the spec: how a [match] call of the absent matcher
    ends. *)
Inductive match_report :=
  | Matched (failed_queries : nat)
  | NoQuerySucceeded
  | SourceNotFound.

(** Descending order of score. *)
Definition by_score_desc (x y : article * Q) : Prop := (y.2 <= x.2)%Q.

#[global] Instance by_score_desc_dec : RelDecision by_score_desc.
Proof. intros x y. unfold by_score_desc. apply _. Defined.

Section Matcher.

(** The scoring formula, the size of a candidate list, the minimum
    relevance and the cap per source article: all tunable. *)
Variable relevance : uuid → string → article → Q.
Variables (top_k cap : nat) (threshold : Q).

(** Modelled from the spec: the candidates already linked for a
    source, which the absent matcher asks the search to leave out. *)
Definition linked_for (d : db) (source : uuid) : list uuid :=
  l_opposing_article_id <$>
    filter (λ l, l_source_article_id l = source) (opposing_articles d).

(** Modelled from the spec: the absent matcher's candidate retrieval
    for one query, each candidate with its score. *)
Definition candidates_for (search : search_collaborator) (d : db)
    (source : uuid) (query : string) : option (list (article * Q)) :=
  match search query (source :: linked_for d source) top_k with
  | Some found => Some ((λ c, (c, relevance source query c)) <$> found)
  | None => None
  end.

(** Modelled from the spec: the absent matcher keeps the candidates
    above the threshold, by descending score, up to the cap. *)
Definition shortlist (scored : list (article * Q)) : list (article * Q) :=
  take cap
    (merge_sort by_score_desc
       (filter (λ x, (threshold < x.2)%Q) scored)).

(** Modelled from the spec: the absent matcher's guard, which drops a
    candidate that is the source itself. *)
Definition without_self (source : uuid) (cands : list (article * Q))
    : list (article * Q) :=
  filter (λ x, a_id x.1 ≠ source) cands.

(** Modelled from the spec: [insertOpposingLink] of the absent matcher,
    an insert with [ON CONFLICT DO NOTHING]: a rejected insert leaves
    the table as it was, and the matcher goes on with its next
    candidate. *)
Definition insertOpposingLink (now : timestamptz) (source : uuid)
    (d : db) (c : article * Q) : db :=
  commit (insert_opposing_article now
            {| li_id := DEFAULT;
               li_source_article_id := Value source;
               li_opposing_article_id := Value (a_id c.1);
               li_relevance_score := Value c.2;
               li_created_at := DEFAULT |} d) d.

(** Modelled from the spec: the absent matcher persists its shortlist
    link by link. *)
Definition persist_links (now : timestamptz) (source : uuid)
    (cands : list (article * Q)) (d : db) : db :=
  foldl (insertOpposingLink now source) d cands.

(** Modelled from the spec: [match(article_id, queries)] of the absent
    matcher.  A failed query is skipped; when queries were given and
    none succeeded that is reported. *)
Definition match_ (search : search_collaborator) (now : timestamptz)
    (source : uuid) (queries : list string) (d : db) : match_report * db :=
  match getArticle d source with
  | None => (SourceNotFound, d)
  | Some _ =>
      let results := candidates_for search d source <$> queries in
      let failed := length (filter (λ r, r = None) results) in
      let found := concat (omap id results) in
      let d' := persist_links now source (without_self source (shortlist found)) d in
      (if decide (queries ≠ [] ∧ failed = length queries)
       then NoQuerySucceeded else Matched failed, d')
  end.

(** Modelled from the spec: the absent matcher with its guard taken
    out, to see what the guard is for. *)
Definition match_unguarded (search : search_collaborator) (now : timestamptz)
    (source : uuid) (queries : list string) (d : db) : db :=
  let results := candidates_for search d source <$> queries in
  persist_links now source (shortlist (concat (omap id results))) d.

End Matcher.

Section Operations.

Variables primary fallback : adapter.
Variable relevance : uuid → string → article → Q.
Variables (top_k cap : nat) (threshold : Q).

(** Modelled from the spec: what happens to the database over its
    life; none of the callers is in the repository.  The ingestion
    collaborator adds articles, the pipeline analyses, caches queries
    and matches, and articles or feeds get deleted. *)
Inductive operation :=
  | Ingest (now : timestamptz) (i : article_insert)
  | Analyze (ans : answers) (now : timestamptz) (article_id : uuid)
  | CacheQueries (article_id : uuid) (queries : list string)
  | Match (search : search_collaborator) (now : timestamptz)
          (article_id : uuid) (queries : list string)
  | RemoveArticle (id : uuid)
  | RemoveFeed (id : uuid).

(** Modelled from the spec: the effect of one operation of the absent
    pipeline on the tables. *)
Definition perform (d : db) (o : operation) : db :=
  match o with
  | Ingest now i => commit (insert_article now i d) d
  | Analyze ans now article_id =>
      (analyze primary fallback ans now article_id d).2
  | CacheQueries article_id queries => cache_queries article_id queries d
  | Match search now article_id queries =>
      (match_ relevance top_k cap threshold search now article_id queries d).2
  | RemoveArticle id => delete_article id d
  | RemoveFeed id => delete_feed id d
  end.

(** Modelled from the spec: the database after a history of
    operations of the absent pipeline, from tables that hold feeds
    only. *)
Definition after (known_feeds : list feed) (history : list operation) : db :=
  foldl perform
    {| feeds := known_feeds; articles := []; article_analysis := [];
       opposing_articles := []; user_articles := [] |}
    history.

End Operations.

(** *** Vocabulary of the properties *)

(** What fits the columns of [article_analysis]. *)
Definition fits (c : classification) (ad : adapter) : Prop :=
  (String.length (default "neutral" (c_content_type c)) ≤ 20 ∧
   String.length (default "" (c_topic_summary c)) ≤ 500 ∧
   String.length (adapter_id ad) ≤ 50 ∧
   String.length (default "" (adapter_model ad)) ≤ 100)%nat.

(** The row [analysis_row] turns into once stored. *)
Definition stored_row (id : uuid) (now : timestamptz) (article_id : uuid)
    (c : classification) (ad : adapter) : analysis :=
  {| an_id := id; an_article_id := article_id;
     an_content_type := default "neutral" (c_content_type c);
     an_bias_score := c_bias_score c;
     an_bias_confidence := c_bias_confidence c;
     an_bias_indicators := c_indicators c;
     an_opposing_queries := None;
     an_topic_summary := c_topic_summary c;
     an_provider := adapter_id ad;
     an_model_version := adapter_model ad;
     an_analyzed_at := now |}.

(** [d] with one more analysis row. *)
Definition with_analysis (d : db) (r : analysis) : db :=
  {| feeds := feeds d; articles := articles d;
     article_analysis := article_analysis d ++ [r];
     opposing_articles := opposing_articles d;
     user_articles := user_articles d |}.

(** The score domains of an analysis row. *)
Definition in_domain (r : analysis) : Prop :=
  (∀ s, an_bias_score r = Some s → (-1 # 1 <= s)%Q ∧ (s <= 1)%Q) ∧
  (∀ c, an_bias_confidence r = Some c → (0 <= c)%Q ∧ (c <= 1)%Q).

(** [d] with one more link. *)
Definition with_link (d : db) (l : link) : db :=
  {| feeds := feeds d; articles := articles d;
     article_analysis := article_analysis d;
     opposing_articles := opposing_articles d ++ [l];
     user_articles := user_articles d |}.

(** No link runs from an article to itself. *)
Definition no_self_links (d : db) : Prop :=
  ∀ l, l ∈ opposing_articles d → l_source_article_id l ≠ l_opposing_article_id l.

(** How many steps a caller still has before it. *)
Definition rank (t : task) : nat :=
  match t with
  | Unanalyzed => 3
  | Analyzing => 2
  | Inserting _ _ => 1
  | Analyzed _ | Failed _ => 0
  end.

(** A caller that is on its way to a row of [article_id], or holds one
    that is in the table. *)
Definition on_track (article_id : uuid) (d : db) (t : task) : Prop :=
  match t with
  | Unanalyzed | Analyzing => True
  | Inserting c ad => fits c ad
  | Analyzed r => r ∈ article_analysis d ∧ an_article_id r = article_id
  | Failed _ => False
  end.

End Pipeline.

(** ** Sample data *)

Module Examples.
Import JS UseArticles.

Definition two_articles : list obj :=
  [ {[ "id" := VStr "a1"; "title" := VStr "One"; "is_read" := VBool false ]};
    {[ "id" := VStr "a2"; "title" := VStr "Two"; "is_saved" := VBool true ]} ].

Definition third_article : obj :=
  {[ "id" := VStr "a3"; "title" := VStr "Three" ]}.

(** An API that answers every request with one more article. *)
Definition one_more : request → settlement :=
  λ _, Fulfilled (RObject [third_article] (Some 2) (Some 3) (Some false)).

Definition shown : HookState :=
  {| articles := two_articles; loading := false; error := None;
     pagination := {| page := 1; perPage := 2; total := 3; hasMore := true |} |}.

Definition fetching : HookState :=
  {| articles := two_articles; loading := true; error := None;
     pagination := {| page := 1; perPage := 2; total := 3; hasMore := true |} |}.

(** One curated feed holding one article; two adapters; a provider
    answer that leaves the content type out and overshoots both scores. *)
Definition the_feed : Schema.feed :=
  {| Schema.f_id := 1%N; Schema.f_title := "Hacker News";
     Schema.f_url := "https://hnrss.org/frontpage";
     Schema.f_site_url := None; Schema.f_description := None;
     Schema.f_topic_id := None; Schema.f_is_curated := true;
     Schema.f_last_fetched_at := None;
     Schema.f_created_at := 0; Schema.f_updated_at := 0 |}.

Definition one_article : Schema.db :=
  Schema.reached [the_feed]
    [Schema.InsertArticle 0 (Schema.without_guid 1%N "t" "u")].

Definition ollama : Pipeline.adapter :=
  {| Pipeline.adapter_id := "ollama"; Pipeline.adapter_model := None |}.

Definition claude : Pipeline.adapter :=
  {| Pipeline.adapter_id := "claude"; Pipeline.adapter_model := Some "v1" |}.

Definition loud : Pipeline.classification :=
  {| Pipeline.c_content_type := None;
     Pipeline.c_bias_score := Some (3 # 2)%Q;
     Pipeline.c_bias_confidence := Some (-1 # 2)%Q;
     Pipeline.c_indicators := Some ["always"; "never"];
     Pipeline.c_topic_summary := Some "budget vote" |}.

Definition primary_times_out : Pipeline.answers :=
  {| Pipeline.primary_answer := Pipeline.ProviderError Pipeline.NetworkTimeout;
     Pipeline.fallback_answer := Pipeline.Classified loud |}.

(** Three callers taking turns, one step each. *)
Definition round_robin : list Pipeline.event :=
  (λ k, {| Pipeline.ev_caller := k `mod` 3;
           Pipeline.ev_now := Z.of_nat k;
           Pipeline.ev_answers := primary_times_out |}) <$> seq 0 9.

Definition flat : Schema.uuid → string → Schema.article → Q := λ _ _ _, 1%Q.

(** The article [one_article] holds, and a search that returns it
    whatever it is asked and told to leave out. *)
Definition first_article : Schema.article :=
  {| Schema.a_id := 1%N; Schema.a_feed_id := 1%N;
     Schema.a_title := "t"; Schema.a_url := "u";
     Schema.a_author := None; Schema.a_summary := None;
     Schema.a_content := None; Schema.a_published_at := None;
     Schema.a_guid := None; Schema.a_created_at := 0 |}.

Definition careless_search : string → list Schema.uuid → nat → option (list Schema.article) :=
  λ _ _ _, Some [first_article].

(** Two articles, both analysed, the first matched against a search
    that returns every article. *)
Definition return_all (d : Schema.db)
    : string → list Schema.uuid → nat → option (list Schema.article) :=
  λ _ _ _, Some (Schema.articles d).

Definition two_analysed : Schema.db :=
  Pipeline.after ollama claude flat 5 5 (3 # 10)%Q [the_feed]
    [Pipeline.Ingest 0 (Schema.without_guid 1%N "t" "u");
     Pipeline.Ingest 1 (Schema.without_guid 1%N "t" "u");
     Pipeline.Analyze primary_times_out 2 1%N;
     Pipeline.Analyze primary_times_out 3 2%N].

Definition two_matched : Schema.db :=
  (Pipeline.match_ flat 5 5 (3 # 10)%Q (return_all two_analysed) 4 1%N
     ["budget vote"] two_analysed).2.

(** Five articles; the relevance of a candidate for the first article
    is 0.9, 0.5, 0.2 and 0.05 down the list. *)
Definition five_articles : Schema.db :=
  Schema.reached [the_feed]
    ((λ k, Schema.InsertArticle (Z.of_nat k) (Schema.without_guid 1%N "t" "u"))
       <$> seq 0 5).

Definition graded : Schema.uuid → string → Schema.article → Q :=
  λ _ _ a, match Schema.a_id a with
           | 2%N => (9 # 10)%Q
           | 3%N => (5 # 10)%Q
           | 4%N => (2 # 10)%Q
           | _ => (5 # 100)%Q
           end.

(** A search that honours what it is told to leave out. *)
Definition honest_search (d : Schema.db)
    : string → list Schema.uuid → nat → option (list Schema.article) :=
  λ _ excluding k,
    Some (take k (filter (λ a, Schema.a_id a ∉ excluding) (Schema.articles d))).

Definition opinionated : Pipeline.answers :=
  {| Pipeline.primary_answer := Pipeline.ProviderError Pipeline.NetworkTimeout;
     Pipeline.fallback_answer :=
       Pipeline.Classified
         {| Pipeline.c_content_type := Some "opinion";
            Pipeline.c_bias_score := Some (6 # 10)%Q;
            Pipeline.c_bias_confidence := None;
            Pipeline.c_indicators := None;
            Pipeline.c_topic_summary := None |} |}.

Definition analysed_once : list Pipeline.operation :=
  [Pipeline.Ingest 0 (Schema.without_guid 1%N "t" "u");
   Pipeline.Analyze primary_times_out 5 1%N].

End Examples.

(** ** The rest of the useArticles hook, and the page that uses it *)

Module FeedPage.
Import JS UseArticles.

(** The [filters] argument of [fetchArticles]: [topic] and [saved] as
    [loadMore] takes them, and the two paging wishes. *)
Record FetchFilters := {
  f_topic : value;
  f_saved : value;
  f_page : option Z;
  f_per_page : option Z
}.

(** What [GET /articles] answers, with the [page] field that only
    [fetchArticles] reads. *)
Inductive listing :=
  | LArray (items : list obj)
  | LObject (items : list obj) (l_page l_per_page l_total : option Z)
            (l_has_more : option bool).

(** The same answer as [loadMore] sees it. *)
Definition as_response (l : listing) : response :=
  match l with
  | LArray items => RArray items
  | LObject items _ per_page total has_more => RObject items per_page total has_more
  end.

Definition listing_page (l : listing) : option Z :=
  match l with LArray _ => None | LObject _ p _ _ _ => p end.

Inductive listing_settlement :=
  | ListingFulfilled (l : listing)
  | ListingRejected (message : string).

(** One API seen through both callbacks. *)
Definition as_api (api : request → listing_settlement) : request → settlement :=
  λ req, match api req with
         | ListingFulfilled l => Fulfilled (as_response l)
         | ListingRejected message => Rejected message
         end.

(** [if (n) params.append(k, n)] for an optional number *)
Definition append_num (k : string) (n : option Z) : list (string * value) :=
  match n with
  | Some n => if n =? 0 then [] else [(k, VNum n)]
  | None => []
  end.

(** The endpoint of [fetchArticles]; with no parameter at all it is
    plain [/articles]. *)
Definition fetchArticles_request (filters : FetchFilters) : request :=
  Get "/articles"
      ((if truthy (f_topic filters) then [("topic", f_topic filters)] else []) ++
       (if truthy (f_saved filters) then [("saved", VStr "true")] else []) ++
       append_num "page" (f_page filters) ++
       append_num "per_page" (f_per_page filters)).

Definition fetchArticles (api : request → listing_settlement)
    (filters : FetchFilters) : call :=
  let req := fetchArticles_request filters in
  match api req with
  | ListingFulfilled response =>
      {| before_await := [SetLoading true; SetError None];
         issued := [req];
         after_await :=
           [SetArticles (λ _, response_articles (as_response response));
            SetPagination
              {| page := num_or (listing_page response) (num_or (f_page filters) 1);
                 perPage := num_or (response_per_page (as_response response))
                                   (num_or (f_per_page filters) 20);
                 total := num_or (response_total (as_response response)) 0;
                 hasMore := bool_or_false (response_has_more (as_response response)) |};
            SetLoading false];
         ends := Returns (as_response response) |}
  | ListingRejected message =>
      {| before_await := [SetLoading true; SetError None];
         issued := [req];
         after_await := [SetError (Some message); SetLoading false];
         ends := Throws message |}
  end.

(** The parameters of a [GET] request. *)
Definition request_params (r : request) : list (string * value) :=
  match r with
  | Get _ params => params
  | Patch _ _ _ => []
  end.

(** Feed.jsx: [searchParams.get('topic') || 'all'] *)
Definition activeTopic (topicParam : option string) : string :=
  match topicParam with
  | Some s => if truthy (VStr s) then s else "all"
  | None => "all"
  end.

(** Feed.jsx, [handleTopicChange]: the search parameters after a tab
    was chosen, as the value [get('topic')] then gives. *)
Definition handleTopicChange (topicSlug : string) : option string :=
  if bool_decide (topicSlug = "all") then None else Some topicSlug.

(** Feed.jsx: the [filters] object that both the fetching effect and
    [handleLoadMore] build from the active topic. *)
Definition filtersFor (activeTopic : string) : Filters :=
  {| topic := if truthy (VStr activeTopic)
                 && negb (bool_decide (activeTopic = "all"))
                 && negb (bool_decide (activeTopic = "saved"))
              then VStr activeTopic else VUndefined;
     saved := if bool_decide (activeTopic = "saved") then VBool true else VUndefined |}.

Definition fetchFiltersFor (activeTopic : string) : FetchFilters :=
  {| f_topic := topic (filtersFor activeTopic);
     f_saved := saved (filtersFor activeTopic);
     f_page := None; f_per_page := None |}.

(** Feed.jsx, [handleLoadMore] *)
Definition handleLoadMore (api : request → settlement) (rendered : HookState)
    (activeTopic : string) : call :=
  loadMore api rendered (filtersFor activeTopic).

(** Feed.jsx, [handleArticleSelect]: the article becomes the selected
    one, kept as it is at that moment, and is marked read when it is
    not read yet. *)
Definition handleArticleSelect (api : request → settlement) (article : option obj)
    : option obj * option call :=
  (article,
   match article with
   | Some a =>
       if negb (truthy (get a "is_read"))
       then Some (markRead api (get a "id") (VBool true))
       else None
   | None => None
   end).

(** ArticlePreview.jsx, [handleToggleRead], through Feed.jsx's
    [handleToggleRead]: [markRead(id, !is_read)] on the selected
    article, [is_read] defaulting to [false]. *)
Definition previewToggleRead (api : request → settlement) (selected : obj) : call :=
  let is_read := match get selected "is_read" with
                 | VUndefined => VBool false
                 | v => v
                 end in
  markRead api (get selected "id") (VBool (negb (truthy is_read))).

(** LoadMoreButton.jsx: what it renders. *)
Inductive load_more_view :=
  | AllCaughtUp
  | Button (disabled busy : bool).

Definition LoadMoreButton (isLoading hasMore : bool) : load_more_view :=
  let isDisabled := isLoading || negb hasMore in
  if negb hasMore && negb isLoading then AllCaughtUp
  else Button isDisabled isLoading.

(** ArticleGrid.jsx: what it renders: the empty state, or the cards
    with skeletons beside them, the load-more area and skeletons
    below. *)
Inductive grid_view :=
  | EmptyState
  | Grid (cards skeletons : nat) (load_more : option load_more_view)
         (more_skeletons : nat).

Definition ArticleGrid (articles : list obj) (hasMore isLoading : bool) : grid_view :=
  let isEmpty := negb isLoading && bool_decide (length articles = 0%nat) in
  let isInitialLoad := isLoading && bool_decide (length articles = 0%nat) in
  if isEmpty then EmptyState
  else Grid (length articles)
            (if isInitialLoad then 6 else 0)
            (if bool_decide (0 < length articles)%nat
             then Some (LoadMoreButton isLoading hasMore) else None)
            (if isLoading && bool_decide (0 < length articles)%nat then 3 else 0).

(** Feed.jsx hands the hook's state to the grid. *)
Definition feedGrid (s : HookState) : grid_view :=
  ArticleGrid (articles s) (hasMore (pagination s)) (loading s).

End FeedPage.
(** Sample data for the feed page. *)

Module FeedExamples.
Import JS UseArticles FeedPage Examples.

Definition unread_article : obj :=
  {[ "id" := VStr "a1"; "title" := VStr "One"; "is_read" := VBool false ]}.

Definition two_articles_second : obj :=
  {[ "id" := VStr "a2"; "title" := VStr "Two"; "is_saved" := VBool true ]}.

Definition first_page : listing :=
  LObject two_articles (Some 1) (Some 2) (Some 3) (Some true).

Definition second_page : listing :=
  LObject [third_article] (Some 2) (Some 2) (Some 3) (Some false).

(** A server with three articles, two to a page. *)
Definition two_pages : request → listing_settlement :=
  λ req, if bool_decide (("page", VNum 2) ∈ request_params req)
         then ListingFulfilled second_page
         else ListingFulfilled first_page.

Definition first_tab : FetchFilters := fetchFiltersFor "tech".

(** A server out of reach. *)
Definition offline : request → settlement := λ _, Rejected "offline".

End FeedExamples.

(** ** The useTopics hook *)

Module UseTopics.
Import JS.

(** An entry of a topic list: an object as the server sends it, or a
    bare value, such as an id the page has submitted. *)
Inductive topic :=
  | TObject (o : obj)
  | TValue (v : value).

#[global] Instance topic_eq_dec : EqDecision topic.
Proof. solve_decision. Defined.

Record HookState := {
  allTopics : list topic;
  userTopics : list topic;
  loading : bool;
  error : option string
}.

(** [useState([])], [useState([])], [useState(false)], [useState(null)] *)
Definition initialState : HookState :=
  {| allTopics := []; userTopics := []; loading := false; error := None |}.

(** What the API client answers to a [GET]: a bare array of topics, or
    an object carrying the array in [topics]. *)
Inductive listing :=
  | LArray (items : list topic)
  | LObject (l_topics : list topic).


(** What it answers to the [PUT]: an object that may carry the saved
    topics in [topics]. *)
Record saved := { s_topics : option (list topic) }.

Inductive settlement (A : Type) :=
  | Fulfilled (r : A)
  | Rejected (message : string).
Arguments Fulfilled {A} r.
Arguments Rejected {A} message.

(** The API client, as far as the hook uses it. *)
Record client := {
  api_get : string → settlement listing;
  api_put : string → list topic → settlement saved
}.

Inductive request :=
  | Get (path : string)
  | Put (path : string) (topic_ids : list topic).

Inductive update :=
  | SetAllTopics (l : list topic)
  | SetUserTopics (l : list topic)
  | SetLoading (b : bool)
  | SetError (e : option string).

Definition apply_update (s : HookState) (u : update) : HookState :=
  match u with
  | SetAllTopics l =>
      {| allTopics := l; userTopics := userTopics s;
         loading := loading s; error := error s |}
  | SetUserTopics l =>
      {| allTopics := allTopics s; userTopics := l;
         loading := loading s; error := error s |}
  | SetLoading b =>
      {| allTopics := allTopics s; userTopics := userTopics s;
         loading := b; error := error s |}
  | SetError e =>
      {| allTopics := allTopics s; userTopics := userTopics s;
         loading := loading s; error := e |}
  end.

Definition apply_updates (s : HookState) (us : list update) : HookState :=
  foldl apply_update s us.

Inductive completion (A : Type) :=
  | Returns (r : A)
  | Throws (message : string).
Arguments Returns {A} r.
Arguments Throws {A} message.

(** One call of an async callback of the hook, as in [UseArticles]. *)
Record call (A : Type) := {
  before_await : list update;
  issued : list request;
  after_await : list update;
  ends : completion A
}.
Arguments before_await {A} c.
Arguments issued {A} c.
Arguments after_await {A} c.
Arguments ends {A} c.



(** [response.topics || topicIds] *)
Definition saved_topics (response : saved) (topicIds : list topic) : list topic :=
  default topicIds (s_topics response).

Definition updateUserTopics (api : client) (topicIds : list topic) : call saved :=
  match api_put api "/user/topics" topicIds with
  | Fulfilled response =>
      {| before_await := [SetLoading true; SetError None];
         issued := [Put "/user/topics" topicIds];
         after_await := [SetUserTopics (saved_topics response topicIds);
                         SetLoading false];
         ends := Returns response |}
  | Rejected message =>
      {| before_await := [SetLoading true; SetError None];
         issued := [Put "/user/topics" topicIds];
         after_await := [SetError (Some message); SetLoading false];
         ends := Throws message |}
  end.

Definition run {A} (c : call A) (s : HookState) : HookState :=
  apply_updates (apply_updates s (before_await c)) (after_await c).

End UseTopics.

(** ** Onboarding.jsx: leaving the page *)

Module OnboardingPage.
Import JS UseTopics.

Record PageState := {
  selectedTopics : list string;
  isSubmitting : bool;
  error : string
}.

(** What a handler of the page does, in order: its own setters, a call
    of the hook that it awaits, a navigation. *)
Inductive effect :=
  | SetIsSubmitting (b : bool)
  | SetError (message : string)
  | Await (c : call saved)
  | Navigate (to : string) (replace : bool).

(** [a || b] on strings *)
Definition str_or (a : string) (b : string) : string :=
  if truthy (VStr a) then a else b.

Definition handleContinue (api : client) (rendered : PageState) : list effect :=
  if bool_decide (length (selectedTopics rendered) = 0%nat) then []
  else
    let c := updateUserTopics api ((λ id, TValue (VStr id)) <$> selectedTopics rendered) in
    [SetIsSubmitting true; SetError ""; Await c] ++
    match ends c with
    | Returns _ => [Navigate "/" true]
    | Throws message =>
        [SetError (str_or message "Failed to save topics. Please try again.")]
    end ++
    [SetIsSubmitting false].

Definition handleSkip : list effect := [Navigate "/" true].

(** The [disabled] of the Continue button. *)
Definition continueDisabled (s : PageState) : bool :=
  bool_decide (length (selectedTopics s) = 0%nat) || isSubmitting s.

Definition page_effect (s : PageState) (e : effect) : PageState :=
  match e with
  | SetIsSubmitting b =>
      {| selectedTopics := selectedTopics s; isSubmitting := b; error := error s |}
  | SetError m =>
      {| selectedTopics := selectedTopics s; isSubmitting := isSubmitting s; error := m |}
  | Await _ | Navigate _ _ => s
  end.

(** The page, the hook, the requests and the navigations once every
    effect has taken place. *)
Definition page_after (es : list effect) (s : PageState) : PageState :=
  foldl page_effect s es.

Definition hook_after (es : list effect) (h : HookState) : HookState :=
  foldl (λ h e, match e with Await c => run c h | _ => h end) h es.

Definition requests (es : list effect) : list request :=
  es ≫= λ e, match e with Await c => issued c | _ => [] end.

Definition navigations (es : list effect) : list (string * bool) :=
  es ≫= λ e, match e with Navigate to replace => [(to, replace)] | _ => [] end.

(** The signed-in user, as far as the page reads it; [None] stands for
    a property that is missing or [null]. *)
Record User := {
  u_name : option string;
  u_displayName : option string;
  u_email : option string
}.

(** [s.split('@')[0]] *)
Fixpoint before_at (s : string) : string :=
  match s with
  | EmptyString => EmptyString
  | String c s' => if Ascii.eqb c "@" then EmptyString else String c (before_at s')
  end.

(** [user?.name || user?.displayName || user?.email?.split('@')[0] || 'there'] *)
Definition displayName (user : option User) : string :=
  str_or (default "" (user ≫= u_name))
    (str_or (default "" (user ≫= u_displayName))
       (str_or (default "" (before_at <$> (user ≫= u_email))) "there")).

End OnboardingPage.

(** ** Strings as JS has them *)

Module Text.

(** A JS string is its sequence of UTF-16 code units; [length], [trim]
    and a regular expression without the [u] flag all work on these. *)
Abbreviation jsstring := (list N).

(** The code units of an ASCII text. *)
Definition units (s : string) : jsstring :=
  N_of_ascii <$> String.list_ascii_of_string s.

(** White space and line terminators: what [trim] removes and what
    [\s] matches. *)
Definition is_space (c : N) : bool :=
  bool_decide (c ∈ [9; 10; 11; 12; 13; 32; 160; 5760; 8232; 8233; 8239; 8287;
                    12288; 65279]%N)
  || ((8192 <=? c)%N && (c <=? 8202)%N).

Fixpoint trimStart (s : jsstring) : jsstring :=
  match s with
  | [] => []
  | c :: s' => if is_space c then trimStart s' else s
  end.

Definition trimEnd (s : jsstring) : jsstring := reverse (trimStart (reverse s)).

Definition trim (s : jsstring) : jsstring := trimEnd (trimStart s).

(** [!s] for a string *)
Definition blank (s : jsstring) : bool := bool_decide (length s = 0%nat).

End Text.

(** ** ArticleCard.jsx and ArticlePreview.jsx: text and dates *)

Module Components.
Import Text.

Definition lt_sign : N := 60.
Definition gt_sign : N := 62.

(** [s.replace(/<[^>]*>/g, '')], read from left to right.  Outside a
    tag, a [<] opens one when a [>] lies ahead: the match then runs to
    the first [>], since [[^>]*] cannot step over it, and the search
    goes on behind it.  A [<] with no [>] ahead matches nothing and is
    kept, as is every other code unit outside a tag. *)
Fixpoint strip_tags (in_tag : bool) (s : jsstring) : jsstring :=
  match s with
  | [] => []
  | c :: s' =>
      if in_tag
      then if (c =? gt_sign)%N then strip_tags false s' else strip_tags true s'
      else if (c =? lt_sign)%N && bool_decide (gt_sign ∈ s')
           then strip_tags true s'
           else c :: strip_tags false s'
  end.

(** [stripHtml(html)]; [None] is a [null] or [undefined] argument. *)
Definition stripHtml (html : option jsstring) : jsstring :=
  match html with
  | None => []
  | Some html => if blank html then [] else trim (strip_tags false html)
  end.

(** What [formatRelativeTime] shows; the last case is the date as
    [toLocaleDateString] prints it, kept as the instant. *)
Inductive relative_time :=
  | JustNow
  | Minutes (m : Z)
  | Hours (h : Z)
  | Yesterday
  | Days (d : Z)
  | MonthDay (then_ : Z).

(** [formatRelativeTime(date)] at the instant [now], both in
    milliseconds since the epoch. *)
Definition formatRelativeTime (now then_ : Z) : relative_time :=
  let diffInSeconds := (now - then_) / 1000 in
  let diffInMinutes := diffInSeconds / 60 in
  let diffInHours := diffInMinutes / 60 in
  let diffInDays := diffInHours / 24 in
  if diffInSeconds <? 60 then JustNow
  else if diffInMinutes <? 60 then Minutes diffInMinutes
  else if diffInHours <? 24 then Hours diffInHours
  else if diffInDays =? 1 then Yesterday
  else if diffInDays <? 7 then Days diffInDays
  else MonthDay then_.

(** What [formatDate] shows: a time of day, the same behind
    "Yesterday at", or a long date with or without the year. *)
Inductive long_time :=
  | TimeOfDay (d : Z)
  | YesterdayAt (d : Z)
  | LongDate (d : Z) (with_year : bool).

(** [formatDate(date)] at the instant [now]; [getFullYear] is the
    calendar of the reader's time zone. *)
Definition formatDate (getFullYear : Z → Z) (now d : Z) : long_time :=
  let diffInHours := (now - d) / (1000 * 60 * 60) in
  if diffInHours <? 24 then TimeOfDay d
  else if diffInHours <? 48 then YesterdayAt d
  else LongDate d (negb (getFullYear d =? getFullYear now)).

End Components.

(** ** Settings.jsx *)

Module SettingsPage.
Import JS Text UseTopics.

(** A [Set], kept as its members in the order they were inserted. *)
Section JSSet.
Context {A : Type} `{EqDecision A}.

Definition set_has (x : A) (s : list A) : bool := bool_decide (x ∈ s).
Definition set_add (x : A) (s : list A) : list A :=
  if set_has x s then s else s ++ [x].
Definition set_delete (x : A) (s : list A) : list A := filter (λ y, y ≠ x) s.

(** [new Set(iterable)] *)
Definition new_Set (l : list A) : list A := foldl (λ s x, set_add x s) [] l.

End JSSet.

(** [t.id || t] for an entry of [userTopics].  Reading a property of
    [null] or [undefined] throws; of another primitive it gives
    [undefined].  An object without a usable [id] stays as it is; the
    model tells two such objects apart by what they hold. *)
Definition topic_key (t : topic) : option topic :=
  match t with
  | TObject o => Some (if truthy (get o "id") then TValue (get o "id") else TObject o)
  | TValue VUndefined | TValue VNull => None
  | TValue v => Some (TValue v)
  end.

(** [new Set(userTopics.map(t => t.id || t))], the selection a render
    with new [userTopics] starts from; [None] when the map throws. *)
Definition initialSelected (userTopics : list topic) : option (list topic) :=
  new_Set <$> mapM topic_key userTopics.

(** TopicSelection, [toggleTopic]: the set handed to [setSelected],
    computed from the [selected] of the render. *)
Definition toggleTopic (topicId : string) (selected : list topic) : list topic :=
  let newSelected := new_Set selected in
  if set_has (TValue (VStr topicId)) newSelected
  then set_delete (TValue (VStr topicId)) newSelected
  else set_add (TValue (VStr topicId)) newSelected.

(** An entry that is an object has an [id] to stand for it. *)
Definition has_id (t : topic) : Prop :=
  match t with
  | TObject o => truthy (get o "id") = true
  | TValue _ => True
  end.

Record TopicSelectionState := {
  selected : list topic;
  isSaving : bool;
  hasChanges : bool
}.

Inductive selection_effect :=
  | SetSelected (s : list topic)
  | SetIsSaving (b : bool)
  | SetHasChanges (b : bool)
  | AwaitUpdate (c : call saved).

Definition toggleTopic_effects (topicId : string) (rendered : TopicSelectionState)
    : list selection_effect :=
  [SetSelected (toggleTopic topicId (selected rendered)); SetHasChanges true].

(** TopicSelection, [handleSave], with [onUpdate] the hook's
    [updateUserTopics] as [Settings] passes it.  A failure is only
    logged. *)
Definition handleSave (api : client) (rendered : TopicSelectionState)
    : list selection_effect :=
  let c := updateUserTopics api (selected rendered) in
  [SetIsSaving true; AwaitUpdate c] ++
  match ends c with
  | Returns _ => [SetHasChanges false]
  | Throws _ => []
  end ++
  [SetIsSaving false].

Definition selection_effect_on (s : TopicSelectionState) (e : selection_effect)
    : TopicSelectionState :=
  match e with
  | SetSelected l => {| selected := l; isSaving := isSaving s; hasChanges := hasChanges s |}
  | SetIsSaving b => {| selected := selected s; isSaving := b; hasChanges := hasChanges s |}
  | SetHasChanges b => {| selected := selected s; isSaving := isSaving s; hasChanges := b |}
  | AwaitUpdate _ => s
  end.

Definition selection_after (es : list selection_effect) (s : TopicSelectionState)
    : TopicSelectionState :=
  foldl selection_effect_on s es.

Definition topics_after (es : list selection_effect) (h : HookState) : HookState :=
  foldl (λ h e, match e with AwaitUpdate c => run c h | _ => h end) h es.

(** *** FeedManagement *)

Record FeedsState := {
  feeds : list obj;
  loading : bool;
  newFeedUrl : jsstring;
  isAdding : bool;
  error : string
}.

(** [useState([])], [useState(true)], [useState('')], [useState(false)],
    [useState('')] *)
Definition initialFeeds : FeedsState :=
  {| feeds := []; loading := true; newFeedUrl := []; isAdding := false; error := "" |}.

(** The answer to [POST /user/feeds]: an object that may carry the new
    feed in [feed], and is the feed itself otherwise. *)
Record posted := { p_feed : option obj; p_self : obj }.

(** [response.feed || response] *)
Definition posted_feed (response : posted) : obj :=
  default (p_self response) (p_feed response).

(** The answer to [GET /user/feeds]: an array, or an object carrying
    the array in [feeds]. *)
Inductive feeds_listing :=
  | FArray (items : list obj)
  | FObject (f_feeds : list obj).

(** [response.feeds || response || []] *)
Definition listing_feeds (l : feeds_listing) : list obj :=
  match l with FArray items => items | FObject items => items end.

Record feeds_client := {
  get_feeds : settlement feeds_listing;
  post_feed : jsstring → settlement posted;
  delete_feed : value → settlement unit
}.

Inductive feeds_request :=
  | GetFeeds (path : string)
  | PostFeed (path : string) (url : jsstring)
  | DeleteFeed (path : string) (feedId : value).

(** The setters take values here, not updaters: [setFeeds] is handed a
    list computed from the [feeds] of the render. *)
Inductive feeds_update :=
  | SetFeeds (l : list obj)
  | SetLoading (b : bool)
  | SetNewFeedUrl (s : jsstring)
  | SetIsAdding (b : bool)
  | SetError (m : string).

Definition feeds_update_on (s : FeedsState) (u : feeds_update) : FeedsState :=
  match u with
  | SetFeeds l =>
      {| feeds := l; loading := loading s; newFeedUrl := newFeedUrl s;
         isAdding := isAdding s; error := error s |}
  | SetLoading b =>
      {| feeds := feeds s; loading := b; newFeedUrl := newFeedUrl s;
         isAdding := isAdding s; error := error s |}
  | SetNewFeedUrl u =>
      {| feeds := feeds s; loading := loading s; newFeedUrl := u;
         isAdding := isAdding s; error := error s |}
  | SetIsAdding b =>
      {| feeds := feeds s; loading := loading s; newFeedUrl := newFeedUrl s;
         isAdding := b; error := error s |}
  | SetError m =>
      {| feeds := feeds s; loading := loading s; newFeedUrl := newFeedUrl s;
         isAdding := isAdding s; error := m |}
  end.

(** One call of a handler: the requests it issues and the setter calls
    it makes, all of them computed from the render it was made in. *)
Record handled := {
  sent : list feeds_request;
  sets : list feeds_update
}.

Definition feeds_after (c : handled) (live : FeedsState) : FeedsState :=
  foldl feeds_update_on live (sets c).

Definition fetchFeeds (api : feeds_client) : handled :=
  match get_feeds api with
  | Fulfilled response =>
      {| sent := [GetFeeds "/user/feeds"];
         sets := [SetFeeds (listing_feeds response); SetLoading false] |}
  | Rejected _ =>
      {| sent := [GetFeeds "/user/feeds"]; sets := [SetLoading false] |}
  end.

Definition handleAddFeed (api : feeds_client) (rendered : FeedsState) : handled :=
  if blank (trim (newFeedUrl rendered)) then {| sent := []; sets := [] |}
  else
    match post_feed api (newFeedUrl rendered) with
    | Fulfilled response =>
        {| sent := [PostFeed "/user/feeds" (newFeedUrl rendered)];
           sets := [SetIsAdding true; SetError "";
                    SetFeeds (feeds rendered ++ [posted_feed response]);
                    SetNewFeedUrl [];
                    SetIsAdding false] |}
    | Rejected message =>
        {| sent := [PostFeed "/user/feeds" (newFeedUrl rendered)];
           sets := [SetIsAdding true; SetError "";
                    SetError (OnboardingPage.str_or message "Failed to add feed");
                    SetIsAdding false] |}
    end.

Definition handleRemoveFeed (api : feeds_client) (rendered : FeedsState)
    (feedId : value) : handled :=
  match delete_feed api feedId with
  | Fulfilled _ =>
      {| sent := [DeleteFeed "/user/feeds/" feedId];
         sets := [SetFeeds (filter (λ f, get f "id" ≠ feedId) (feeds rendered))] |}
  | Rejected _ =>
      {| sent := [DeleteFeed "/user/feeds/" feedId]; sets := [] |}
  end.

(** The [disabled] of the Add button. *)
Definition addDisabled (s : FeedsState) : bool :=
  isAdding s || blank (trim (newFeedUrl s)).

(** *** AccountSection *)

Record AccountState := {
  showPasswordForm : bool;
  currentPassword : jsstring;
  newPassword : jsstring;
  confirmPassword : jsstring;
  a_error : string;
  success : string;
  isChanging : bool
}.

Inductive account_update :=
  | SetShowPasswordForm (b : bool)
  | SetCurrentPassword (s : jsstring)
  | SetNewPassword (s : jsstring)
  | SetConfirmPassword (s : jsstring)
  | SetAccountError (m : string)
  | SetSuccess (m : string)
  | SetIsChanging (b : bool).

Definition account_update_on (s : AccountState) (u : account_update) : AccountState :=
  match u with
  | SetShowPasswordForm b =>
      {| showPasswordForm := b; currentPassword := currentPassword s;
         newPassword := newPassword s; confirmPassword := confirmPassword s;
         a_error := a_error s; success := success s; isChanging := isChanging s |}
  | SetCurrentPassword p =>
      {| showPasswordForm := showPasswordForm s; currentPassword := p;
         newPassword := newPassword s; confirmPassword := confirmPassword s;
         a_error := a_error s; success := success s; isChanging := isChanging s |}
  | SetNewPassword p =>
      {| showPasswordForm := showPasswordForm s; currentPassword := currentPassword s;
         newPassword := p; confirmPassword := confirmPassword s;
         a_error := a_error s; success := success s; isChanging := isChanging s |}
  | SetConfirmPassword p =>
      {| showPasswordForm := showPasswordForm s; currentPassword := currentPassword s;
         newPassword := newPassword s; confirmPassword := p;
         a_error := a_error s; success := success s; isChanging := isChanging s |}
  | SetAccountError m =>
      {| showPasswordForm := showPasswordForm s; currentPassword := currentPassword s;
         newPassword := newPassword s; confirmPassword := confirmPassword s;
         a_error := m; success := success s; isChanging := isChanging s |}
  | SetSuccess m =>
      {| showPasswordForm := showPasswordForm s; currentPassword := currentPassword s;
         newPassword := newPassword s; confirmPassword := confirmPassword s;
         a_error := a_error s; success := m; isChanging := isChanging s |}
  | SetIsChanging b =>
      {| showPasswordForm := showPasswordForm s; currentPassword := currentPassword s;
         newPassword := newPassword s; confirmPassword := confirmPassword s;
         a_error := a_error s; success := success s; isChanging := b |}
  end.

(** The body of [POST /auth/change-password] *)
Record password_change := {
  current_password : jsstring;
  new_password : jsstring
}.

Record account_call := {
  posts : list password_change;
  account_sets : list account_update
}.

Definition account_after (c : account_call) (live : AccountState) : AccountState :=
  foldl account_update_on live (account_sets c).

Definition handleChangePassword (api : password_change → settlement unit)
    (rendered : AccountState) : account_call :=
  if negb (bool_decide (newPassword rendered = confirmPassword rendered)) then
    {| posts := [];
       account_sets := [SetAccountError ""; SetSuccess "";
                        SetAccountError "Passwords do not match"] |}
  else if bool_decide (length (newPassword rendered) < 8)%nat then
    {| posts := [];
       account_sets := [SetAccountError ""; SetSuccess "";
                        SetAccountError "Password must be at least 8 characters"] |}
  else
    let body := {| current_password := currentPassword rendered;
                   new_password := newPassword rendered |} in
    match api body with
    | Fulfilled _ =>
        {| posts := [body];
           account_sets := [SetAccountError ""; SetSuccess ""; SetIsChanging true;
                            SetSuccess "Password changed successfully";
                            SetShowPasswordForm false;
                            SetCurrentPassword []; SetNewPassword [];
                            SetConfirmPassword [];
                            SetIsChanging false] |}
    | Rejected message =>
        {| posts := [body];
           account_sets := [SetAccountError ""; SetSuccess ""; SetIsChanging true;
                            SetAccountError
                              (OnboardingPage.str_or message "Failed to change password");
                            SetIsChanging false] |}
    end.

End SettingsPage.

(** ** Regular expressions *)

Module Regex.
Import Text.

(** The regular expressions the pages use, over code units: a class
    ([[...]], [[^...]], [\s], a single character), a sequence, a
    choice, a repetition; [Empty] matches nothing and [Eps] the empty
    string. *)
Inductive regex :=
  | Empty
  | Eps
  | Class (p : N → bool)
  | Seq (r1 r2 : regex)
  | Alt (r1 r2 : regex)
  | Star (r : regex).

(** [r+] *)
Definition Plus (r : regex) : regex := Seq r (Star r).

(** A literal character. *)
Definition Chr (c : N) : regex := Class (N.eqb c).

(** The strings a regular expression matches in whole. *)
Inductive Matches : regex → jsstring → Prop :=
  | MEps : Matches Eps []
  | MClass p c : p c = true → Matches (Class p) [c]
  | MSeq r1 r2 s1 s2 : Matches r1 s1 → Matches r2 s2 → Matches (Seq r1 r2) (s1 ++ s2)
  | MAltL r1 r2 s : Matches r1 s → Matches (Alt r1 r2) s
  | MAltR r1 r2 s : Matches r2 s → Matches (Alt r1 r2) s
  | MStarNil r : Matches (Star r) []
  | MStarCons r s1 s2 :
      Matches r s1 → Matches (Star r) s2 → Matches (Star r) (s1 ++ s2).

Fixpoint nullable (r : regex) : bool :=
  match r with
  | Empty => false
  | Eps => true
  | Class _ => false
  | Seq r1 r2 => nullable r1 && nullable r2
  | Alt r1 r2 => nullable r1 || nullable r2
  | Star _ => true
  end.

(** What is left of [r] to match once [c] has been read. *)
Fixpoint deriv (c : N) (r : regex) : regex :=
  match r with
  | Empty => Empty
  | Eps => Empty
  | Class p => if p c then Eps else Empty
  | Seq r1 r2 =>
      if nullable r1
      then Alt (Seq (deriv c r1) r2) (deriv c r2)
      else Seq (deriv c r1) r2
  | Alt r1 r2 => Alt (deriv c r1) (deriv c r2)
  | Star r => Seq (deriv c r) (Star r)
  end.

(** [/^r$/.test(s)] *)
Definition test (r : regex) (s : jsstring) : bool :=
  nullable (foldl (λ r c, deriv c r) r s).

End Regex.

(** ** The authentication context *)

Module Auth.
Import JS UseTopics.

(** [user] is [None] for [null]; [token] is a string or [null]. *)
Record AuthState := {
  user : option obj;
  token : value;
  isLoading : bool
}.

(** [!!token && !!user] *)
Definition isAuthenticated (s : AuthState) : bool :=
  truthy (token s) && bool_decide (is_Some (user s)).

(** What the provider does: its setters, and the calls by which it
    hands the token to the API client. *)
Inductive auth_effect :=
  | SetUser (u : option obj)
  | SetToken (t : value)
  | SetIsLoading (b : bool)
  | ClientSetToken (t : value)
  | ClientClearToken.

Definition auth_effect_on (s : AuthState) (e : auth_effect) : AuthState :=
  match e with
  | SetUser u => {| user := u; token := token s; isLoading := isLoading s |}
  | SetToken t => {| user := user s; token := t; isLoading := isLoading s |}
  | SetIsLoading b => {| user := user s; token := token s; isLoading := b |}
  | ClientSetToken _ | ClientClearToken => s
  end.

Definition auth_after (es : list auth_effect) (s : AuthState) : AuthState :=
  foldl auth_effect_on s es.

(** The answer to a sign-in or a registration: [token] and [user] are
    read off it, either may be missing. *)
Record session := { r_token : value; r_user : option obj }.

(** The body of [POST /auth/login] and [POST /auth/register] *)
Inductive auth_request :=
  | PostLogin (email password : Text.jsstring)
  | PostRegister (email password name : Text.jsstring).

Record auth_call := {
  auth_sent : list auth_request;
  auth_effects : list auth_effect;
  auth_ends : completion session
}.

Definition signed_in (req : auth_request) (answer : settlement session) : auth_call :=
  match answer with
  | Fulfilled response =>
      {| auth_sent := [req];
         auth_effects := [ClientSetToken (r_token response);
                          SetToken (r_token response);
                          SetUser (r_user response)];
         auth_ends := Returns response |}
  | Rejected message =>
      {| auth_sent := [req]; auth_effects := []; auth_ends := Throws message |}
  end.

Definition login (api : auth_request → settlement session)
    (email password : Text.jsstring) : auth_call :=
  signed_in (PostLogin email password) (api (PostLogin email password)).

Definition register (api : auth_request → settlement session)
    (email password name : Text.jsstring) : auth_call :=
  signed_in (PostRegister email password name)
            (api (PostRegister email password name)).

Definition logout : list auth_effect :=
  [ClientClearToken; SetToken VNull; SetUser None].

(** [fetchUser]: [GET /auth/me]; a failure clears the session and is
    not passed on. *)
Definition fetchUser (me : settlement (option obj)) : list auth_effect :=
  match me with
  | Fulfilled userData => [SetUser userData]
  | Rejected _ => [ClientClearToken; SetToken VNull; SetUser None]
  end.

(** [initAuth], run once on mount, with the token the API client has
    kept. *)
Definition initAuth (storedToken : value) (me : settlement (option obj))
    : list auth_effect :=
  (if truthy storedToken then SetToken storedToken :: fetchUser me else []) ++
  [SetIsLoading false].

(** The state of the provider on mount:
    [useState(null)], [useState(() => api.getToken())], [useState(true)] *)
Definition mounted (storedToken : value) : AuthState :=
  {| user := None; token := storedToken; isLoading := true |}.

End Auth.

(** ** App.jsx: the routes and their guards *)

Module Routes.
Import JS Auth.

(** The [<Route>] a location matches: [/login], [/onboarding], [/],
    [/settings], or the catch-all [*]. *)
Inductive route :=
  | AtLogin
  | AtOnboarding
  | AtRoot
  | AtSettings
  | Elsewhere.

(** A location: the route its path matches, the path, and of the
    location kept in [state.from], if any, the same two. *)
Record location := Location {
  matched : route;
  pathname : string;
  state_from : option (route * string)
}.

(** [<Navigate to="/" replace />] and
    [<Navigate to="/login" state={{ from: location }} replace />] *)
Definition to_root : location := Location AtRoot "/" None.
Definition to_login (from : location) : location :=
  Location AtLogin "/login" (Some (matched from, pathname from)).
Definition to_onboarding : location := Location AtOnboarding "/onboarding" None.

Inductive page := LoginPage | OnboardingPage | FeedPage | SettingsPage.

Inductive rendering :=
  | LoadingScreen
  | Navigate (to : location)
  | Page (p : page).

Definition ProtectedRoute (auth : AuthState) (here : location) (children : page)
    : rendering :=
  if isLoading auth then LoadingScreen
  else if negb (isAuthenticated auth) then Navigate (to_login here)
  else Page children.

Definition PublicRoute (auth : AuthState) (children : page) : rendering :=
  if isLoading auth then LoadingScreen
  else if isAuthenticated auth then Navigate to_root
  else Page children.

(** [user?.topics_selected || user?.onboarding_completed] *)
Definition onboarded (auth : AuthState) : bool :=
  match user auth with
  | Some u => truthy (get u "topics_selected") || truthy (get u "onboarding_completed")
  | None => false
  end.

Definition OnboardingRoute (auth : AuthState) (here : location) (children : page)
    : rendering :=
  if isLoading auth then LoadingScreen
  else if negb (isAuthenticated auth) then Navigate (to_login here)
  else if onboarded auth then Navigate to_root
  else Page children.

(** [AppRoutes]: what is rendered at a location. *)
Definition AppRoutes (auth : AuthState) (here : location) : rendering :=
  match matched here with
  | AtLogin => PublicRoute auth LoginPage
  | AtOnboarding => OnboardingRoute auth here OnboardingPage
  | AtRoot => ProtectedRoute auth here FeedPage
  | AtSettings => ProtectedRoute auth here SettingsPage
  | Elsewhere => Navigate to_root
  end.

(** The rendering once at most [hops] redirections have been
    followed. *)
Fixpoint settle (hops : nat) (auth : AuthState) (here : location) : rendering :=
  match AppRoutes auth here, hops with
  | Navigate to, S hops => settle hops auth to
  | r, _ => r
  end.

End Routes.

(** ** The login page *)

Module LoginPage.
Import JS Text Regex UseTopics Auth Routes.

Inductive mode := LoginMode | RegisterMode.

Record FormState := {
  f_mode : mode;
  email : jsstring;
  password : jsstring;
  displayName : jsstring;
  error : string;
  isLoading : bool
}.

(** [useState('login')], [useState('')] four times, [useState(false)] *)
Definition initialForm : FormState :=
  {| f_mode := LoginMode; email := []; password := []; displayName := [];
     error := ""; isLoading := false |}.

Definition at_sign : N := 64.
Definition full_stop : N := 46.

(** [[^\s@]] *)
Definition not_space_or_at : regex :=
  Class (λ c, negb (is_space c || (c =? at_sign)%N)).

(** [/^[^\s@]+@[^\s@]+\.[^\s@]+$/] *)
Definition email_pattern : regex :=
  Seq (Plus not_space_or_at)
      (Seq (Chr at_sign)
           (Seq (Plus not_space_or_at)
                (Seq (Chr full_stop) (Plus not_space_or_at)))).

(** [validateForm]: the message it leaves in [error], empty when the
    form is valid; it returns [true] exactly when that is empty. *)
Definition validation_error (s : FormState) : string :=
  if blank (trim (email s)) then "Email is required"
  else if negb (test email_pattern (email s)) then "Please enter a valid email address"
  else if blank (password s) then "Password is required"
  else if bool_decide (length (password s) < 8)%nat
       then "Password must be at least 8 characters"
  else if match f_mode s with
          | RegisterMode => blank (trim (displayName s))
          | LoginMode => false
          end
       then "Display name is required"
  else "".

Inductive login_effect :=
  | SetError (m : string)
  | SetIsLoading (b : bool)
  | SetMode (m : mode)
  | AwaitAuth (c : auth_call)
  | NavigateTo (to : location) (replace : bool).

Definition validateForm (s : FormState) : list login_effect * bool :=
  let message := validation_error s in
  if bool_decide (message = "") then ([SetError ""], true)
  else ([SetError ""; SetError message], false).

(** [location.state?.from?.pathname || '/']: where to go after a
    sign-in. *)
Definition from (here : location) : location :=
  match state_from here with
  | Some (r, p) => if truthy (VStr p) then Location r p None else to_root
  | None => to_root
  end.

Definition handleSubmit (api : auth_request → settlement session)
    (rendered : FormState) (here : location) : list login_effect :=
  let (validation, ok) := validateForm rendered in
  if negb ok then validation
  else
    validation ++ [SetIsLoading true; SetError ""] ++
    match f_mode rendered with
    | LoginMode =>
        let c := login api (email rendered) (password rendered) in
        AwaitAuth c ::
        match auth_ends c with
        | Returns _ => [NavigateTo (from here) true]
        | Throws message =>
            [SetError (OnboardingPage.str_or message
                         "An error occurred. Please try again.")]
        end
    | RegisterMode =>
        let c := register api (email rendered) (password rendered)
                          (displayName rendered) in
        AwaitAuth c ::
        match auth_ends c with
        | Returns _ => [NavigateTo to_onboarding true]
        | Throws message =>
            [SetError (OnboardingPage.str_or message
                         "An error occurred. Please try again.")]
        end
    end ++
    [SetIsLoading false].

(** [toggleMode], from the [mode] of the render. *)
Definition toggleMode (rendered : FormState) : list login_effect :=
  [SetMode (match f_mode rendered with
            | LoginMode => RegisterMode
            | RegisterMode => LoginMode
            end);
   SetError ""].

Definition login_effect_on (s : FormState) (e : login_effect) : FormState :=
  match e with
  | SetError m =>
      {| f_mode := f_mode s; email := email s; password := password s;
         displayName := displayName s; error := m; isLoading := isLoading s |}
  | SetIsLoading b =>
      {| f_mode := f_mode s; email := email s; password := password s;
         displayName := displayName s; error := error s; isLoading := b |}
  | SetMode m =>
      {| f_mode := m; email := email s; password := password s;
         displayName := displayName s; error := error s; isLoading := isLoading s |}
  | AwaitAuth _ | NavigateTo _ _ => s
  end.

Definition form_after (es : list login_effect) (s : FormState) : FormState :=
  foldl login_effect_on s es.

Definition session_after (es : list login_effect) (a : AuthState) : AuthState :=
  foldl (λ a e, match e with AwaitAuth c => auth_after (auth_effects c) a | _ => a end)
        a es.

Definition auth_requests (es : list login_effect) : list auth_request :=
  es ≫= λ e, match e with AwaitAuth c => auth_sent c | _ => [] end.

Definition navigated (es : list login_effect) : list location :=
  es ≫= λ e, match e with NavigateTo to _ => [to] | _ => [] end.

End LoginPage.

(** ** The tables of users, topics and their links *)

Module Accounts.
Import Schema.

(** [INT]: a whole number of 32 bits; a number out of that range is no
    value of the column. *)
Record int := {
  int_val : Z;
  int_range : bool_decide (-2147483648 ≤ int_val ≤ 2147483647)
}.

(** [CREATE TABLE topics] *)
Record topic := {
  t_id : uuid;
  t_name : string;
  t_slug : string;
  t_icon : option string;
  t_sort_order : int
}.

(** [CREATE TABLE users] *)
Record user := {
  u_id : uuid;
  u_email : string;
  u_password_hash : option string;
  u_display_name : string;
  u_oauth_provider : option string;
  u_oauth_id : option string;
  u_created_at : timestamptz;
  u_updated_at : timestamptz
}.

(** [CREATE TABLE curated_feeds] *)
Record curated_feed := {
  cf_topic_id : uuid;
  cf_feed_id : uuid
}.

(** [CREATE TABLE user_feeds] *)
Record user_feed := {
  uf_user_id : uuid;
  uf_feed_id : uuid;
  uf_added_at : timestamptz
}.

(** [CREATE TABLE user_topics] *)
Record user_topic := {
  ut_user_id : uuid;
  ut_topic_id : uuid
}.

(** All ten tables: the five of [Schema.db] and the five above. *)
Record store := {
  core : db;
  topics : list topic;
  users : list user;
  curated_feeds : list curated_feed;
  user_feeds : list user_feed;
  user_topics : list user_topic
}.

Definition empty : store :=
  {| core := {| feeds := []; articles := []; article_analysis := [];
                opposing_articles := []; user_articles := [] |};
     topics := []; users := []; curated_feeds := []; user_feeds := [];
     user_topics := [] |}.

Definition with_core (s : store) (d : db) : store :=
  {| core := d; topics := topics s; users := users s;
     curated_feeds := curated_feeds s; user_feeds := user_feeds s;
     user_topics := user_topics s |}.

(** A [REFERENCES] check on a column that may be [NULL]. *)
Definition references_null (k : option uuid) (keys : list uuid) : result unit :=
  match k with
  | Some k => references k keys
  | None => Ok ()
  end.

(** *** topics *)

Record topic_insert := {
  ti_id : supplied uuid;
  ti_name : supplied string;
  ti_slug : supplied string;
  ti_icon : supplied string;
  ti_sort_order : supplied int
}.

Definition zero : int := {| int_val := 0; int_range := I |}.

Definition insert_topic (i : topic_insert) (s : store) : result store :=
  id ← not_null (resolve (Some (gen_random_uuid (t_id <$> topics s))) (ti_id i));
  name ← not_null (resolve None (ti_name i)) ≫= varchar 100;
  slug ← not_null (resolve None (ti_slug i)) ≫= varchar 100;
  icon ← varchar_null 50 (resolve None (ti_icon i));
  sort_order ← not_null (resolve (Some zero) (ti_sort_order i));
  let row := {| t_id := id; t_name := name; t_slug := slug; t_icon := icon;
                t_sort_order := sort_order |} in
  _ ← unique id (t_id <$> topics s);
  _ ← unique name (t_name <$> topics s);
  _ ← unique slug (t_slug <$> topics s);
  mret {| core := core s; topics := topics s ++ [row]; users := users s;
          curated_feeds := curated_feeds s; user_feeds := user_feeds s;
          user_topics := user_topics s |}.

(** [DELETE FROM topics WHERE id = ...].  [curated_feeds] and
    [user_topics] cascade; [feeds.topic_id] names no action, so a feed
    still pointing at the topic makes the statement fail. *)
Definition delete_topic (id : uuid) (s : store) : result store :=
  if decide (Some id ∈ (f_topic_id <$> feeds (core s)))
  then Err foreign_key_violation
  else Ok {| core := core s;
             topics := filter (λ t, t_id t ≠ id) (topics s);
             users := users s;
             curated_feeds := filter (λ c, cf_topic_id c ≠ id) (curated_feeds s);
             user_feeds := user_feeds s;
             user_topics := filter (λ u, ut_topic_id u ≠ id) (user_topics s) |}.

(** *** users *)

Record user_insert := {
  ui_id : supplied uuid;
  ui_email : supplied string;
  ui_password_hash : supplied string;
  ui_display_name : supplied string;
  ui_oauth_provider : supplied string;
  ui_oauth_id : supplied string;
  ui_created_at : supplied timestamptz;
  ui_updated_at : supplied timestamptz
}.

(** The key of [UNIQUE(oauth_provider, oauth_id)]; a row with a [NULL]
    in either column has none. *)
Definition oauth (u : user) : option (string * string) :=
  p ← u_oauth_provider u; i ← u_oauth_id u; Some (p, i).

Definition insert_user (now : timestamptz) (i : user_insert) (s : store)
    : result store :=
  id ← not_null (resolve (Some (gen_random_uuid (u_id <$> users s))) (ui_id i));
  email ← not_null (resolve None (ui_email i)) ≫= varchar 320;
  password_hash ← varchar_null 256 (resolve None (ui_password_hash i));
  display_name ← not_null (resolve None (ui_display_name i)) ≫= varchar 100;
  oauth_provider ← varchar_null 50 (resolve None (ui_oauth_provider i));
  oauth_id ← varchar_null 256 (resolve None (ui_oauth_id i));
  created_at ← not_null (resolve (Some now) (ui_created_at i));
  updated_at ← not_null (resolve (Some now) (ui_updated_at i));
  let row := {| u_id := id; u_email := email; u_password_hash := password_hash;
                u_display_name := display_name;
                u_oauth_provider := oauth_provider; u_oauth_id := oauth_id;
                u_created_at := created_at; u_updated_at := updated_at |} in
  _ ← unique id (u_id <$> users s);
  _ ← unique email (u_email <$> users s);
  _ ← match oauth row with
      | Some k => unique k (omap oauth (users s))
      | None => Ok ()
      end;
  mret {| core := core s; topics := topics s; users := users s ++ [row];
          curated_feeds := curated_feeds s; user_feeds := user_feeds s;
          user_topics := user_topics s |}.

(** A user given no id, no password hash and no OAuth columns. *)
Definition without_oauth (email display_name : string) : user_insert :=
  {| ui_id := DEFAULT; ui_email := Value email; ui_password_hash := NULL;
     ui_display_name := Value display_name;
     ui_oauth_provider := NULL; ui_oauth_id := NULL;
     ui_created_at := DEFAULT; ui_updated_at := DEFAULT |}.

(** [DELETE FROM users WHERE id = ...], with the [ON DELETE CASCADE] of
    [user_articles], [user_feeds] and [user_topics]. *)
Definition delete_user (id : uuid) (s : store) : store :=
  {| core := {| feeds := feeds (core s);
                articles := articles (core s);
                article_analysis := article_analysis (core s);
                opposing_articles := opposing_articles (core s);
                user_articles :=
                  filter (λ u, ua_user_id u ≠ id) (user_articles (core s)) |};
     topics := topics s;
     users := filter (λ u, u_id u ≠ id) (users s);
     curated_feeds := curated_feeds s;
     user_feeds := filter (λ u, uf_user_id u ≠ id) (user_feeds s);
     user_topics := filter (λ u, ut_user_id u ≠ id) (user_topics s) |}.

(** *** feeds *)

Record feed_insert := {
  fi_id : supplied uuid;
  fi_title : supplied string;
  fi_url : supplied string;
  fi_site_url : supplied string;
  fi_description : supplied string;
  fi_topic_id : supplied uuid;
  fi_is_curated : supplied bool;
  fi_last_fetched_at : supplied timestamptz;
  fi_created_at : supplied timestamptz;
  fi_updated_at : supplied timestamptz
}.

Definition insert_feed (now : timestamptz) (i : feed_insert) (s : store)
    : result store :=
  let d := core s in
  id ← not_null (resolve (Some (gen_random_uuid (f_id <$> feeds d))) (fi_id i));
  title ← not_null (resolve None (fi_title i)) ≫= varchar 500;
  url ← not_null (resolve None (fi_url i)) ≫= varchar 2000;
  site_url ← varchar_null 2000 (resolve None (fi_site_url i));
  is_curated ← not_null (resolve (Some false) (fi_is_curated i));
  created_at ← not_null (resolve (Some now) (fi_created_at i));
  updated_at ← not_null (resolve (Some now) (fi_updated_at i));
  let row := {| f_id := id; f_title := title; f_url := url; f_site_url := site_url;
                f_description := resolve None (fi_description i);
                f_topic_id := resolve None (fi_topic_id i);
                f_is_curated := is_curated;
                f_last_fetched_at := resolve None (fi_last_fetched_at i);
                f_created_at := created_at; f_updated_at := updated_at |} in
  _ ← unique id (f_id <$> feeds d);
  _ ← unique url (f_url <$> feeds d);
  _ ← references_null (f_topic_id row) (t_id <$> topics s);
  mret (with_core s {| feeds := feeds d ++ [row]; articles := articles d;
                       article_analysis := article_analysis d;
                       opposing_articles := opposing_articles d;
                       user_articles := user_articles d |}).

(** [DELETE FROM feeds WHERE id = ...]: what [Schema.delete_feed] does
    to the five tables it knows, and the [ON DELETE CASCADE] of
    [curated_feeds] and [user_feeds]. *)
Definition delete_feed (id : uuid) (s : store) : store :=
  {| core := Schema.delete_feed id (core s);
     topics := topics s;
     users := users s;
     curated_feeds := filter (λ c, cf_feed_id c ≠ id) (curated_feeds s);
     user_feeds := filter (λ u, uf_feed_id u ≠ id) (user_feeds s);
     user_topics := user_topics s |}.

(** *** The link tables *)

Definition cf_pair (c : curated_feed) : uuid * uuid := (cf_topic_id c, cf_feed_id c).
Definition uf_pair (u : user_feed) : uuid * uuid := (uf_user_id u, uf_feed_id u).
Definition ut_pair (u : user_topic) : uuid * uuid := (ut_user_id u, ut_topic_id u).
Definition ua_pair (u : user_article) : uuid * uuid := (ua_user_id u, ua_article_id u).

Definition insert_curated_feed (topic_id feed_id : supplied uuid) (s : store)
    : result store :=
  topic_id ← not_null (resolve None topic_id);
  feed_id ← not_null (resolve None feed_id);
  let row := {| cf_topic_id := topic_id; cf_feed_id := feed_id |} in
  _ ← unique (cf_pair row) (cf_pair <$> curated_feeds s);
  _ ← references topic_id (t_id <$> topics s);
  _ ← references feed_id (f_id <$> feeds (core s));
  mret {| core := core s; topics := topics s; users := users s;
          curated_feeds := curated_feeds s ++ [row];
          user_feeds := user_feeds s; user_topics := user_topics s |}.

Definition insert_user_feed (now : timestamptz)
    (user_id feed_id : supplied uuid) (added_at : supplied timestamptz) (s : store)
    : result store :=
  user_id ← not_null (resolve None user_id);
  feed_id ← not_null (resolve None feed_id);
  added_at ← not_null (resolve (Some now) added_at);
  let row := {| uf_user_id := user_id; uf_feed_id := feed_id;
                uf_added_at := added_at |} in
  _ ← unique (uf_pair row) (uf_pair <$> user_feeds s);
  _ ← references user_id (u_id <$> users s);
  _ ← references feed_id (f_id <$> feeds (core s));
  mret {| core := core s; topics := topics s; users := users s;
          curated_feeds := curated_feeds s;
          user_feeds := user_feeds s ++ [row]; user_topics := user_topics s |}.

Definition insert_user_topic (user_id topic_id : supplied uuid) (s : store)
    : result store :=
  user_id ← not_null (resolve None user_id);
  topic_id ← not_null (resolve None topic_id);
  let row := {| ut_user_id := user_id; ut_topic_id := topic_id |} in
  _ ← unique (ut_pair row) (ut_pair <$> user_topics s);
  _ ← references user_id (u_id <$> users s);
  _ ← references topic_id (t_id <$> topics s);
  mret {| core := core s; topics := topics s; users := users s;
          curated_feeds := curated_feeds s; user_feeds := user_feeds s;
          user_topics := user_topics s ++ [row] |}.

Record user_article_insert := {
  uai_user_id : supplied uuid;
  uai_article_id : supplied uuid;
  uai_is_read : supplied bool;
  uai_is_saved : supplied bool;
  uai_read_at : supplied timestamptz;
  uai_saved_at : supplied timestamptz
}.

Definition insert_user_article (i : user_article_insert) (s : store)
    : result store :=
  let d := core s in
  user_id ← not_null (resolve None (uai_user_id i));
  article_id ← not_null (resolve None (uai_article_id i));
  is_read ← not_null (resolve (Some false) (uai_is_read i));
  is_saved ← not_null (resolve (Some false) (uai_is_saved i));
  let row := {| ua_user_id := user_id; ua_article_id := article_id;
                ua_is_read := is_read; ua_is_saved := is_saved;
                ua_read_at := resolve None (uai_read_at i);
                ua_saved_at := resolve None (uai_saved_at i) |} in
  _ ← unique (ua_pair row) (ua_pair <$> user_articles d);
  _ ← references user_id (u_id <$> users s);
  _ ← references article_id (a_id <$> articles d);
  mret (with_core s {| feeds := feeds d; articles := articles d;
                       article_analysis := article_analysis d;
                       opposing_articles := opposing_articles d;
                       user_articles := user_articles d ++ [row] |}).

(** *** The seed's linking statement *)

(** [(SELECT id FROM topics WHERE slug = ...)] as a scalar: [NULL]
    when no topic has the slug. *)
Definition topic_by_slug (s : store) (slug : string) : option uuid :=
  t_id <$> List.find (λ t, bool_decide (t_slug t = slug)) (topics s).

(** [WHERE is_curated = TRUE], with
    [AND topic_id = (SELECT id FROM topics WHERE slug = ...)] when a
    slug is given; a comparison with [NULL] selects nothing. *)
Definition selected (only : option string) (s : store) (f : feed) : bool :=
  f_is_curated f &&
  match only with
  | None => true
  | Some slug =>
      match f_topic_id f, topic_by_slug s slug with
      | Some t, Some t' => bool_decide (t = t')
      | _, _ => false
      end
  end.

(** The rows of [SELECT topic_id, id FROM feeds WHERE ...]. *)
Definition curated_selection (only : option string) (s : store)
    : list (option uuid * uuid) :=
  (λ f, (f_topic_id f, f_id f)) <$>
  filter (λ f, selected only s f = true) (feeds (core s)).

(** The links those rows make; a row without a topic makes none. *)
Definition curated_links (only : option string) (s : store) : list curated_feed :=
  omap (λ f, t ← f_topic_id f; Some {| cf_topic_id := t; cf_feed_id := f_id f |})
       (filter (λ f, selected only s f = true) (feeds (core s))).

Definition of_option {A} (o : option A) : supplied A :=
  match o with Some a => Value a | None => NULL end.

(** [INSERT INTO curated_feeds (topic_id, feed_id) SELECT ...]: the rows
    go in one after the other, and one that fails undoes them all. *)
Definition link_curated_feeds (only : option string) (s : store) : result store :=
  foldl (λ acc row, s' ← acc; insert_curated_feed (of_option row.1) (Value row.2) s')
        (Ok s) (curated_selection only s).

(** *** Statements and the stores they reach *)

Inductive statement :=
  | InsertTopic (i : topic_insert)
  | DeleteTopic (id : uuid)
  | InsertUser (now : timestamptz) (i : user_insert)
  | DeleteUser (id : uuid)
  | InsertFeed (now : timestamptz) (i : feed_insert)
  | InsertCuratedFeed (topic_id feed_id : supplied uuid)
  | InsertUserFeed (now : timestamptz) (user_id feed_id : supplied uuid)
                   (added_at : supplied timestamptz)
  | InsertUserTopic (user_id topic_id : supplied uuid)
  | InsertUserArticle (i : user_article_insert)
  | LinkCuratedFeeds (only : option string)
  | Core (st : Schema.statement).

Definition commit (r : result store) (s : store) : store :=
  match r with
  | Ok s' => s'
  | Err _ => s
  end.

(** A statement on the five tables of [Schema.db] runs as there,
    except that a deleted feed takes its links along. *)
Definition exec (s : store) (st : statement) : store :=
  match st with
  | InsertTopic i => commit (insert_topic i s) s
  | DeleteTopic id => commit (delete_topic id s) s
  | InsertUser now i => commit (insert_user now i s) s
  | DeleteUser id => delete_user id s
  | InsertFeed now i => commit (insert_feed now i s) s
  | InsertCuratedFeed t f => commit (insert_curated_feed t f s) s
  | InsertUserFeed now u f a => commit (insert_user_feed now u f a s) s
  | InsertUserTopic u t => commit (insert_user_topic u t s) s
  | InsertUserArticle i => commit (insert_user_article i s) s
  | LinkCuratedFeeds only => commit (link_curated_feeds only s) s
  | Core (Schema.DeleteFeed id) => delete_feed id s
  | Core st => with_core s (Schema.exec (core s) st)
  end.

Definition reached (sts : list statement) : store := foldl exec empty sts.

(** *** What the constraints promise *)

(** Every [PRIMARY KEY] and [UNIQUE] of the tables of users, topics,
    feeds and links. *)
Definition keys_hold (s : store) : Prop :=
  NoDup (t_id <$> topics s) ∧
  NoDup (t_name <$> topics s) ∧
  NoDup (t_slug <$> topics s) ∧
  NoDup (u_id <$> users s) ∧
  NoDup (u_email <$> users s) ∧
  NoDup (omap oauth (users s)) ∧
  NoDup (f_id <$> feeds (core s)) ∧
  NoDup (f_url <$> feeds (core s)) ∧
  NoDup (cf_pair <$> curated_feeds s) ∧
  NoDup (uf_pair <$> user_feeds s) ∧
  NoDup (ut_pair <$> user_topics s) ∧
  NoDup (ua_pair <$> user_articles (core s)).

(** Every [REFERENCES] of the ten tables. *)
Definition references_hold (s : store) : Prop :=
  (∀ f t, f ∈ feeds (core s) → f_topic_id f = Some t → t ∈ (t_id <$> topics s)) ∧
  (∀ a, a ∈ articles (core s) → a_feed_id a ∈ (f_id <$> feeds (core s))) ∧
  (∀ r, r ∈ article_analysis (core s) →
        an_article_id r ∈ (a_id <$> articles (core s))) ∧
  (∀ l, l ∈ opposing_articles (core s) →
        l_source_article_id l ∈ (a_id <$> articles (core s)) ∧
        l_opposing_article_id l ∈ (a_id <$> articles (core s))) ∧
  (∀ u, u ∈ user_articles (core s) →
        ua_user_id u ∈ (u_id <$> users s) ∧
        ua_article_id u ∈ (a_id <$> articles (core s))) ∧
  (∀ c, c ∈ curated_feeds s →
        cf_topic_id c ∈ (t_id <$> topics s) ∧
        cf_feed_id c ∈ (f_id <$> feeds (core s))) ∧
  (∀ u, u ∈ user_feeds s →
        uf_user_id u ∈ (u_id <$> users s) ∧
        uf_feed_id u ∈ (f_id <$> feeds (core s))) ∧
  (∀ u, u ∈ user_topics s →
        ut_user_id u ∈ (u_id <$> users s) ∧
        ut_topic_id u ∈ (t_id <$> topics s)).

End Accounts.

(** ** Sample data for the pages *)

Module PagesExamples.
Import JS Text UseTopics.

(** A server that accepts every [PUT] and names no topics in its
    answer, and one that refuses it. *)
Definition accepting : client :=
  {| api_get := λ _, Fulfilled (LArray []);
     api_put := λ _ _, Fulfilled {| s_topics := None |} |}.

Definition refusing : client :=
  {| api_get := λ _, Rejected "offline";
     api_put := λ _ _, Rejected "" |}.

Definition chosen : OnboardingPage.PageState :=
  {| OnboardingPage.selectedTopics := Onboarding.selectedAfter ["tech"; "ai"; "tech"; "world"];
     OnboardingPage.isSubmitting := false;
     OnboardingPage.error := "" |}.

Definition stored_topics : list topic :=
  [TObject {[ "id" := VStr "tech"; "name" := VStr "Technology" ]}; TValue (VStr "ai")].

Definition changed : SettingsPage.TopicSelectionState :=
  {| SettingsPage.selected :=
       SettingsPage.toggleTopic "sports" [TValue (VStr "tech"); TValue (VStr "ai")];
     SettingsPage.isSaving := false;
     SettingsPage.hasChanges := true |}.

Definition feeds_api : SettingsPage.feeds_client :=
  {| SettingsPage.get_feeds := Fulfilled (SettingsPage.FArray []);
     SettingsPage.post_feed :=
       λ url, Fulfilled {| SettingsPage.p_feed := None;
                           SettingsPage.p_self := {[ "id" := VNum 3 ]} |};
     SettingsPage.delete_feed := λ _, Fulfilled () |}.

Definition two_feeds : SettingsPage.FeedsState :=
  {| SettingsPage.feeds := [ {[ "id" := VNum 1 ]}; {[ "id" := VNum 2 ]} ];
     SettingsPage.loading := false;
     SettingsPage.newFeedUrl := units "https://example.com/feed.xml";
     SettingsPage.isAdding := false;
     SettingsPage.error := "" |}.

Definition signed_out : Auth.AuthState :=
  {| Auth.user := None; Auth.token := VNull; Auth.isLoading := false |}.

Definition welcoming : Auth.auth_request → settlement Auth.session :=
  λ _, Fulfilled {| Auth.r_token := VStr "t0k3n";
                    Auth.r_user := Some {[ "email" := VStr "a@b.co" ]} |}.

Definition filled_in : LoginPage.FormState :=
  {| LoginPage.f_mode := LoginPage.LoginMode;
     LoginPage.email := units "a@b.co";
     LoginPage.password := units "12345678";
     LoginPage.displayName := [];
     LoginPage.error := "";
     LoginPage.isLoading := false |}.

Definition settings_location : Routes.location :=
  Routes.Location Routes.AtSettings "/settings" None.

End PagesExamples.

(** Sample rows for the tables. *)

Module AccountsExamples.
Import Schema Accounts.

Definition tech : topic_insert :=
  {| ti_id := DEFAULT; ti_name := Value "Tech"; ti_slug := Value "tech";
     ti_icon := DEFAULT;
     ti_sort_order := Value {| int_val := 1; int_range := I |} |}.

Definition hacker_news : feed_insert :=
  {| fi_id := DEFAULT; fi_title := Value "Hacker News";
     fi_url := Value "https://hnrss.org/frontpage";
     fi_site_url := DEFAULT; fi_description := DEFAULT;
     fi_topic_id := Value 1%N; fi_is_curated := Value true;
     fi_last_fetched_at := DEFAULT; fi_created_at := DEFAULT;
     fi_updated_at := DEFAULT |}.

(** One topic and one curated feed of it, not linked yet. *)
Definition seeded : store := reached [InsertTopic tech; InsertFeed 0 hacker_news].

End AccountsExamples.

(** * Properties *)

(** ** Topic selection *)

Module OnboardingProps.
Import Onboarding.

Example toggle_off : toggleTopic "tech" ["tech"; "ai"] = ["ai"].
Proof. reflexivity. Qed.

Example toggle_on : toggleTopic "sports" ["tech"; "ai"] = ["tech"; "ai"; "sports"].
Proof. reflexivity. Qed.

Lemma toggleTopic_elem (topicId id : string) (prev : list string) :
  id ∈ toggleTopic topicId prev ↔
  if decide (id = topicId) then topicId ∉ prev else id ∈ prev.
Proof.
  unfold toggleTopic. case_bool_decide as Hin.
  - rewrite list_elem_of_filter.
    destruct (decide (id = topicId)) as [Heq|Hne]; [subst id|]; tauto.
  - rewrite elem_of_app, list_elem_of_singleton.
    destruct (decide (id = topicId)) as [Heq|Hne]; [subst id|]; tauto.
Qed.

Lemma toggleTopic_NoDup (topicId : string) (prev : list string) :
  NoDup prev → NoDup (toggleTopic topicId prev).
Proof.
  intros Hnd. unfold toggleTopic. case_bool_decide as Hin.
  - by apply NoDup_filter.
  - apply NoDup_app. split_and!; [done| |apply NoDup_singleton].
    intros x Hx ->%list_elem_of_singleton. done.
Qed.

Lemma selectedAfter_snoc (clicks : list string) (topicId : string) :
  selectedAfter (clicks ++ [topicId]) = toggleTopic topicId (selectedAfter clicks).
Proof. unfold selectedAfter. by rewrite foldl_app. Qed.

(** C10: [toggleTopic topicId] flips whether [topicId] is selected and
    keeps every other id as it was, selected or not; toggling twice
    gives back the original membership; and whatever the clicks, the
    selection never holds an id twice. *)
Theorem toggleTopic_toggles (topicId : string) (prev clicks : list string) :
  (topicId ∈ toggleTopic topicId prev ↔ topicId ∉ prev) ∧
  (∀ id, id ≠ topicId → id ∈ toggleTopic topicId prev ↔ id ∈ prev) ∧
  (∀ id, id ∈ toggleTopic topicId (toggleTopic topicId prev) ↔ id ∈ prev) ∧
  (NoDup prev → NoDup (toggleTopic topicId prev)) ∧
  NoDup (selectedAfter clicks).
Proof.
  split_and!.
  - rewrite toggleTopic_elem. by rewrite decide_True.
  - intros id Hne. rewrite toggleTopic_elem. by rewrite decide_False.
  - intros id. destruct (decide (id = topicId)) as [->|Hne].
    + rewrite toggleTopic_elem, decide_True by done.
      rewrite toggleTopic_elem, decide_True by done.
      destruct (decide (topicId ∈ prev)); tauto.
    + rewrite toggleTopic_elem, decide_False by done.
      rewrite toggleTopic_elem, decide_False by done. done.
  - apply toggleTopic_NoDup.
  - induction clicks as [|c clicks IH] using rev_ind.
    + constructor.
    + rewrite selectedAfter_snoc. by apply toggleTopic_NoDup.
Qed.

End OnboardingProps.

(** ** The article list of the hook *)

Module UseArticlesProps.
Import JS UseArticles Examples.

Lemma set_where_only_flag (flag : string) (v articleId : value) (s : HookState) :
  only_flag_set flag v articleId s
    (apply_update s
       (SetArticles (fmap (λ a, if strict_eq (get a "id") articleId
                                then spread_set a flag v else a)))).
Proof.
  unfold only_flag_set; simpl. split_and!; try done.
  - by rewrite length_fmap.
  - intros i a Hi. rewrite list_lookup_fmap, Hi. simpl.
    eexists; split; [done|]. unfold strict_eq, spread_set.
    case_bool_decide as Hid; split_and!; try done.
    + intros _. apply lookup_insert_eq.
    + intros k Hk. by apply lookup_insert_ne.
Qed.

(** C9: when the [PATCH] succeeds, [markRead] sets [is_read] and
    [toggleSave] sets [is_saved] in the articles whose id is
    [articleId], whatever the list is by then, and changes nothing
    else: not the other articles, not the other properties, not the
    length or the order, not the rest of the state. *)
Theorem markRead_toggleSave_frame (api : request → settlement)
    (rendered live : HookState) (articleId isRead : value) (r1 r2 : response) :
  api (Patch "/articles/" articleId [("is_read", isRead_arg isRead)]) = Fulfilled r1 →
  api (Patch "/articles/" articleId
         [("is_saved", VBool (newSavedState rendered articleId))]) = Fulfilled r2 →
  only_flag_set "is_read" (isRead_arg isRead) articleId live
    (apply_updates live (after_await (markRead api articleId isRead))) ∧
  only_flag_set "is_saved" (VBool (newSavedState rendered articleId)) articleId live
    (apply_updates live (after_await (toggleSave api rendered articleId))).
Proof.
  intros H1 H2. unfold markRead, toggleSave. rewrite H1, H2. simpl.
  split; apply set_where_only_flag.
Qed.

Lemma markRead_toggleSave_frame_witness :
  only_flag_set "is_read" (VBool true) (VStr "a2") shown
    (apply_updates shown (after_await (markRead one_more (VStr "a2") VUndefined))) ∧
  only_flag_set "is_saved" (VBool false) (VStr "a2") shown
    (apply_updates shown (after_await (toggleSave one_more shown (VStr "a2")))).
Proof.
  apply (markRead_toggleSave_frame one_more shown shown (VStr "a2") VUndefined
           (RObject [third_article] (Some 2) (Some 3) (Some false))
           (RObject [third_article] (Some 2) (Some 3) (Some false)));
    reflexivity.
Defined.

(** C8: [loadMore] does nothing when the render it was made in had
    [loading] set or [hasMore] unset: no request, no setter call, so
    the state stays as it is.  Otherwise it issues one request, for the
    page after the current one, and when that is answered the articles
    of the answer go behind the list as it then is, every earlier entry
    keeping its place, and the page number is the old one plus one.
    When the request fails instead, list and paging stay as they are
    and the error is recorded. *)
Theorem loadMore_guard_and_append (api : request → settlement)
    (rendered live : HookState) (filters : Filters) :
  let c := loadMore api rendered filters in
  let req := loadMore_request rendered filters in
  (loading rendered = true ∨ hasMore (pagination rendered) = false →
     issued c = [] ∧ before_await c = [] ∧ after_await c = [] ∧
     run c live = live) ∧
  (loading rendered = false → hasMore (pagination rendered) = true →
     issued c = [req] ∧
     ∀ response, api req = Fulfilled response →
       let live' := apply_updates live (after_await c) in
       articles live' = articles live ++ response_articles response ∧
       (∀ i a, articles live !! i = Some a → articles live' !! i = Some a) ∧
       page (pagination live') = page (pagination rendered) + 1) ∧
  (loading rendered = false → hasMore (pagination rendered) = true →
     ∀ message, api req = Rejected message →
       let live' := apply_updates live (after_await c) in
       articles live' = articles live ∧ pagination live' = pagination live ∧
       error live' = Some message).
Proof.
  intros c req. subst c req. unfold loadMore. split_and!.
  - intros Hg.
    assert (loading rendered || negb (hasMore (pagination rendered)) = true) as ->.
    { destruct Hg as [-> | ->]; [done|]. by rewrite orb_true_r. }
    done.
  - intros -> ->. simpl. split.
    { by destruct (api _). }
    intros response ->. simpl. split_and!; [done| |done].
    intros i a Hi. by apply lookup_app_l_Some.
  - intros -> -> message. simpl. by intros ->.
Qed.

Lemma loadMore_guard_and_append_witness :
  run (loadMore one_more fetching {| topic := VStr "tech"; saved := VUndefined |})
      fetching = fetching ∧
  articles (run (loadMore one_more shown {| topic := VStr "tech"; saved := VUndefined |})
                shown) = two_articles ++ [third_article] ∧
  page (pagination
          (run (loadMore one_more shown {| topic := VStr "tech"; saved := VUndefined |})
               shown)) = 2.
Proof.
  pose (f := {| topic := VStr "tech"; saved := VUndefined |}).
  split.
  - apply (proj1 (loadMore_guard_and_append one_more fetching fetching f)).
    left; reflexivity.
  - destruct (proj1 (proj2 (loadMore_guard_and_append one_more shown
                       (apply_updates shown (before_await (loadMore one_more shown f))) f))
                eq_refl eq_refl) as [_ H].
    destruct (H _ eq_refl) as (Ha & _ & Hp). split; [exact Ha | exact Hp].
Defined.

End UseArticlesProps.

(** ** The constraints of the tables *)

Module SchemaProps.
Import Schema.

Lemma gen_random_uuid_fresh (taken : list uuid) : gen_random_uuid taken ∉ taken.
Proof.
  assert (∀ x, x ∈ taken → (x ≤ foldr N.max 0 taken)%N) as Hmax.
  { induction taken as [|y l IH]; intros x Hx; [by apply elem_of_nil in Hx|].
    apply elem_of_cons in Hx as [->|Hx]; simpl; [lia|].
    specialize (IH x Hx). lia. }
  intros Hin. apply Hmax in Hin. unfold gen_random_uuid in Hin. lia.
Qed.

Lemma bind_ok {A B} (m : result A) (f : A → result B) (b : B) :
  (m ≫= f) = Ok b → ∃ a, m = Ok a ∧ f a = Ok b.
Proof. destruct m as [a|e]; [|done]. intros H. by exists a. Qed.

Lemma unique_ok {K} `{EqDecision K} (k : K) (taken : list K) u :
  unique k taken = Ok u → k ∉ taken.
Proof. unfold unique. by case_decide. Qed.

Lemma references_ok (k : uuid) (keys : list uuid) u :
  references k keys = Ok u → k ∈ keys.
Proof. unfold references. by case_decide. Qed.

Lemma unique_fresh (taken : list uuid) :
  unique (gen_random_uuid taken) taken = Ok ().
Proof. unfold unique. by rewrite decide_False by apply gen_random_uuid_fresh. Qed.

Lemma references_in (k : uuid) (keys : list uuid) :
  k ∈ keys → references k keys = Ok ().
Proof. intros Hk. unfold references. by rewrite decide_True. Qed.

(** Splits a committed statement into the checks it passed. *)
Ltac inv_ok H :=
  repeat (let a := fresh "v" in let Ha := fresh "Hv" in
          apply bind_ok in H as (a & Ha & H));
  repeat match goal with
    | Hu : unique _ _ = Ok _ |- _ => apply unique_ok in Hu
    | Hr : references _ _ = Ok _ |- _ => apply references_ok in Hr
    end.

Lemma insert_article_ok now i d d' :
  insert_article now i d = Ok d' →
  ∃ row, d' = {| feeds := feeds d; articles := articles d ++ [row];
                 article_analysis := article_analysis d;
                 opposing_articles := opposing_articles d;
                 user_articles := user_articles d |} ∧
         (a_id row ∉ (a_id <$> articles d)) ∧
         (∀ k, feed_guid row = Some k → k ∉ omap feed_guid (articles d)) ∧
         a_feed_id row ∈ (f_id <$> feeds d).
Proof.
  unfold insert_article. intros H. inv_ok H.
  injection H as <-. eexists. split_and!; [done|done| |done].
  intros k Hk.
  match goal with Hu : match feed_guid _ with _ => _ end = Ok _ |- _ =>
    rewrite Hk in Hu; by apply unique_ok in Hu end.
Qed.

Lemma insert_article_analysis_ok now i d d' :
  insert_article_analysis now i d = Ok d' →
  ∃ row, d' = {| feeds := feeds d; articles := articles d;
                 article_analysis := article_analysis d ++ [row];
                 opposing_articles := opposing_articles d;
                 user_articles := user_articles d |} ∧
         (an_id row ∉ (an_id <$> article_analysis d)) ∧
         (an_article_id row ∉ (an_article_id <$> article_analysis d)) ∧
         an_article_id row ∈ (a_id <$> articles d) ∧
         resolve None (ani_article_id i) = Some (an_article_id row) ∧
         (not_null (resolve (Some "neutral") (ani_content_type i)) ≫= varchar 20)
           = Ok (an_content_type row) ∧
         an_bias_score row = resolve None (ani_bias_score i) ∧
         an_bias_confidence row = resolve None (ani_bias_confidence i).
Proof.
  unfold insert_article_analysis. intros H. inv_ok H.
  injection H as <-. eexists. split_and!; try done.
  simpl. by destruct (resolve None (ani_article_id i)); simplify_eq/=.
Qed.

Lemma insert_opposing_article_ok now i d d' :
  insert_opposing_article now i d = Ok d' →
  ∃ row, d' = {| feeds := feeds d; articles := articles d;
                 article_analysis := article_analysis d;
                 opposing_articles := opposing_articles d ++ [row];
                 user_articles := user_articles d |} ∧
         (l_id row ∉ (l_id <$> opposing_articles d)) ∧
         (pair_of row ∉ (pair_of <$> opposing_articles d)) ∧
         l_source_article_id row ∈ (a_id <$> articles d) ∧
         l_opposing_article_id row ∈ (a_id <$> articles d) ∧
         resolve None (li_source_article_id i) = Some (l_source_article_id row) ∧
         resolve None (li_opposing_article_id i) = Some (l_opposing_article_id row) ∧
         resolve None (li_relevance_score i) = Some (l_relevance_score row).
Proof.
  unfold insert_opposing_article. intros H. inv_ok H.
  injection H as <-. eexists. split_and!; try done; simpl.
  - by destruct (resolve None (li_source_article_id i)); simplify_eq/=.
  - by destruct (resolve None (li_opposing_article_id i)); simplify_eq/=.
  - by destruct (resolve None (li_relevance_score i)); simplify_eq/=.
Qed.


(** [VARCHAR(n)] at work. *)
Example varchar_fits_as_is : varchar 5 "tech" = Ok "tech".
Proof. reflexivity. Qed.

Example varchar_cuts_spaces : varchar 5 "tech   " = Ok "tech ".
Proof. reflexivity. Qed.

Example varchar_rejects : varchar 5 "technology" = Err string_data_right_truncation.
Proof. reflexivity. Qed.

Lemma omap_sublist {A B} (f : A → option B) (l1 l2 : list A) :
  l1 `sublist_of` l2 → omap f l1 `sublist_of` omap f l2.
Proof.
  induction 1 as [|x l1 l2 _ IH|x l1 l2 _ IH]; simpl.
  - constructor.
  - destruct (f x); [by constructor|done].
  - destruct (f x); [by constructor|done].
Qed.

Lemma shrinks_refl d : shrinks d d.
Proof. by repeat split. Qed.

Lemma shrinks_trans d1 d2 d3 : shrinks d1 d2 → shrinks d2 d3 → shrinks d1 d3.
Proof.
  intros (?&?&?&?&?) (?&?&?&?&?). repeat split; by etrans.
Qed.

Lemma delete_article_shrinks id d : shrinks (delete_article id d) d.
Proof. repeat split; simpl; try done; apply sublist_filter. Qed.

Lemma delete_articles_shrinks ids d : shrinks (foldr delete_article d ids) d.
Proof.
  induction ids as [|id ids IH]; simpl; [apply shrinks_refl|].
  eapply shrinks_trans; [apply delete_article_shrinks|done].
Qed.

Lemma delete_feed_shrinks id d : shrinks (delete_feed id d) d.
Proof.
  destruct (delete_articles_shrinks
              (a_id <$> filter (λ a, a_feed_id a = id) (articles d)) d)
    as (?&?&?&?&?).
  repeat split; simpl; try done. etrans; [apply sublist_filter|done].
Qed.

(** What is left after deleting several articles. *)
Lemma delete_articles_tables ids d :
  let d' := foldr delete_article d ids in
  (∀ a, a ∈ articles d' ↔ a ∈ articles d ∧ (a_id a ∉ ids)) ∧
  (∀ r, r ∈ article_analysis d' ↔ r ∈ article_analysis d ∧ (an_article_id r ∉ ids)) ∧
  (∀ l, l ∈ opposing_articles d' ↔
        l ∈ opposing_articles d ∧
        (l_source_article_id l ∉ ids) ∧ (l_opposing_article_id l ∉ ids)).
Proof.
  induction ids as [|id ids (IHa & IHr & IHl)]; simpl.
  - split_and!; intros x; rewrite ?elem_of_nil; tauto.
  - split_and!; intros x; rewrite list_elem_of_filter, ?IHa, ?IHr, ?IHl,
      ?not_elem_of_cons; tauto.
Qed.

(** The three uniqueness constraints survive every statement. *)
Lemma exec_articles_unique d st : articles_unique d → articles_unique (exec d st).
Proof.
  unfold articles_unique. intros Hu.
  destruct st as [now i|now i|now i|id|id]; simpl.
  - destruct (insert_article now i d) as [d'|e] eqn:E; [|done].
    apply insert_article_ok in E as (row & -> & _ & Hk & _). simpl.
    rewrite omap_app. apply NoDup_app. split_and!; [done| |].
    + intros k Hin Hin'. simpl in Hin'.
      destruct (feed_guid row) as [k'|] eqn:Ek; [|by apply elem_of_nil in Hin'].
      apply list_elem_of_singleton in Hin' as ->. by apply (Hk k').
    + simpl. destruct (feed_guid row); [apply NoDup_singleton|constructor].
  - destruct (insert_article_analysis now i d) as [d'|e] eqn:E; [|done].
    by apply insert_article_analysis_ok in E as (row & -> & _).
  - destruct (insert_opposing_article now i d) as [d'|e] eqn:E; [|done].
    by apply insert_opposing_article_ok in E as (row & -> & _).
  - eapply sublist_NoDup; [done|]. apply omap_sublist, sublist_filter.
  - eapply sublist_NoDup; [done|]. apply omap_sublist, delete_feed_shrinks.
Qed.

Lemma exec_analysis_unique d st : analysis_unique d → analysis_unique (exec d st).
Proof.
  unfold analysis_unique. intros Hu.
  destruct st as [now i|now i|now i|id|id]; simpl.
  - destruct (insert_article now i d) as [d'|e] eqn:E; [|done].
    by apply insert_article_ok in E as (row & -> & _).
  - destruct (insert_article_analysis now i d) as [d'|e] eqn:E; [|done].
    apply insert_article_analysis_ok in E as (row & -> & _ & Hk & _). simpl.
    rewrite fmap_app. apply NoDup_app. split_and!; [done| |apply NoDup_singleton].
    by intros k Hin ->%list_elem_of_singleton.
  - destruct (insert_opposing_article now i d) as [d'|e] eqn:E; [|done].
    by apply insert_opposing_article_ok in E as (row & -> & _).
  - eapply sublist_NoDup; [done|]. apply fmap_sublist, sublist_filter.
  - eapply sublist_NoDup; [done|]. apply fmap_sublist, delete_feed_shrinks.
Qed.

Lemma exec_links_unique d st : links_unique d → links_unique (exec d st).
Proof.
  unfold links_unique. intros Hu.
  destruct st as [now i|now i|now i|id|id]; simpl.
  - destruct (insert_article now i d) as [d'|e] eqn:E; [|done].
    by apply insert_article_ok in E as (row & -> & _).
  - destruct (insert_article_analysis now i d) as [d'|e] eqn:E; [|done].
    by apply insert_article_analysis_ok in E as (row & -> & _).
  - destruct (insert_opposing_article now i d) as [d'|e] eqn:E; [|done].
    apply insert_opposing_article_ok in E as (row & -> & _ & Hk & _). simpl.
    rewrite fmap_app. apply NoDup_app. split_and!; [done| |apply NoDup_singleton].
    by intros k Hin ->%list_elem_of_singleton.
  - eapply sublist_NoDup; [done|]. apply fmap_sublist, sublist_filter.
  - eapply sublist_NoDup; [done|]. apply fmap_sublist, delete_feed_shrinks.
Qed.

Lemma reached_snoc known_feeds sts st :
  reached known_feeds (sts ++ [st]) = exec (reached known_feeds sts) st.
Proof. unfold reached. by rewrite foldl_app. Qed.

Lemma reached_articles_unique known_feeds sts :
  articles_unique (reached known_feeds sts).
Proof.
  induction sts as [|st sts IH] using rev_ind.
  - unfold articles_unique; simpl. constructor.
  - rewrite reached_snoc. by apply exec_articles_unique.
Qed.

(** Two positions of a list whose keys are pairwise distinct hold the
    same key only when they are the same position. *)
Lemma NoDup_omap_lookup {A B} (f : A → option B) (l : list A) i j x y k :
  NoDup (omap f l) → l !! i = Some x → l !! j = Some y →
  f x = Some k → f y = Some k → i = j.
Proof.
  revert i j. induction l as [|z l IH]; intros i j Hnd Hi Hj Hx Hy; [done|].
  assert (∀ n w, l !! n = Some w → f w = Some k → k ∈ omap f l) as Hin.
  { intros n w Hn Hw. apply list_elem_of_omap. exists w. split; [|done].
    by eapply list_elem_of_lookup_2. }
  simpl in Hnd. destruct i as [|i], j as [|j]; simplify_eq/=; [done| | |].
  - rewrite Hx in Hnd. apply NoDup_cons in Hnd as [Hnot _].
    destruct Hnot. by eapply Hin.
  - rewrite Hy in Hnd. apply NoDup_cons in Hnd as [Hnot _].
    destruct Hnot. by eapply Hin.
  - f_equal. apply IH; try done.
    destruct (f z); [by apply NoDup_cons in Hnd as [_ ?]|done].
Qed.

Lemma insert_without_guid now feed_id d :
  feed_id ∈ (f_id <$> feeds d) →
  ∃ row, insert_article now (without_guid feed_id "t" "u") d =
           Ok {| feeds := feeds d; articles := articles d ++ [row];
                 article_analysis := article_analysis d;
                 opposing_articles := opposing_articles d;
                 user_articles := user_articles d |} ∧
         a_feed_id row = feed_id ∧ a_guid row = None.
Proof.
  intros Hf. unfold insert_article, without_guid; simpl.
  rewrite unique_fresh; simpl. rewrite references_in by done. simpl. by eexists.
Qed.

(** C5: in every database the statements can reach, two different rows
    of [articles] never agree on [feed_id] and on a [guid] that is
    there; the constraint outlives every statement; and a feed may hold
    any number of articles without a [guid]: inserting two such rows
    one after the other commits both. *)
Theorem articles_unique_per_feed_guid (known_feeds : list feed)
    (sts : list statement) :
  let d := reached known_feeds sts in
  (∀ i j a1 a2 g,
     articles d !! i = Some a1 → articles d !! j = Some a2 →
     a_feed_id a1 = a_feed_id a2 →
     a_guid a1 = Some g → a_guid a2 = Some g → i = j) ∧
  (∀ d0 st, articles_unique d0 → articles_unique (exec d0 st)) ∧
  (∀ now feed_id, feed_id ∈ (f_id <$> feeds d) →
     ∃ a1 a2 d1 d2,
       insert_article now (without_guid feed_id "t" "u") d = Ok d1 ∧
       insert_article now (without_guid feed_id "t" "u") d1 = Ok d2 ∧
       articles d2 = articles d ++ [a1; a2] ∧
       a_feed_id a1 = a_feed_id a2 ∧ a_guid a1 = None ∧ a_guid a2 = None).
Proof.
  intros d. split_and!.
  - intros i j a1 a2 g Hi Hj Hf H1 H2.
    eapply (NoDup_omap_lookup feed_guid); [apply reached_articles_unique|done..| |].
    + unfold feed_guid. rewrite H1. reflexivity.
    + unfold feed_guid. rewrite H2, Hf. reflexivity.
  - apply exec_articles_unique.
  - intros now feed_id Hf.
    destruct (insert_without_guid now feed_id d Hf) as (a1 & E1 & Hf1 & Hg1).
    destruct (insert_without_guid now feed_id
                {| feeds := feeds d; articles := articles d ++ [a1];
                   article_analysis := article_analysis d;
                   opposing_articles := opposing_articles d;
                   user_articles := user_articles d |} Hf)
      as (a2 & E2 & Hf2 & Hg2).
    simpl in E2. eexists a1, a2, _, _. split_and!; [exact E1|exact E2|..].
    + simpl. by rewrite <- app_assoc.
    + congruence.
    + done.
    + done.
Qed.


Lemma articles_unique_per_feed_guid_witness :
  ∃ a1 a2 d1 d2,
    insert_article 7 (without_guid 1%N "t" "u") Examples.one_article = Ok d1 ∧
    insert_article 7 (without_guid 1%N "t" "u") d1 = Ok d2 ∧
    articles d2 = articles Examples.one_article ++ [a1; a2] ∧
    a_feed_id a1 = a_feed_id a2 ∧ a_guid a1 = None ∧ a_guid a2 = None.
Proof.
  apply (proj2 (proj2 (articles_unique_per_feed_guid [Examples.the_feed]
                         [InsertArticle 0 (without_guid 1%N "t" "u")])) 7 1%N).
  vm_compute. apply list_elem_of_here.
Defined.

Lemma find_none_iff {A} (f : A → bool) (l : list A) :
  List.find f l = None ↔ ∀ x, x ∈ l → f x = false.
Proof.
  induction l as [|y l IH]; simpl.
  - split; [intros _ x Hx; by apply elem_of_nil in Hx|done].
  - destruct (f y) eqn:E.
    + split; [done|]. intros H. specialize (H y (list_elem_of_here _ _)). congruence.
    + rewrite IH. split.
      * intros H x [->|Hx]%elem_of_cons; auto.
      * intros H x Hx. apply H. by apply list_elem_of_further.
Qed.

Lemma filter_none {A} (P : A → Prop) `{∀ x, Decision (P x)} (l : list A) :
  (∀ x, x ∈ l → ¬ P x) → filter P l = [].
Proof.
  induction l as [|y l IH]; intros Hn; [done|].
  rewrite filter_cons, decide_False by (apply Hn, list_elem_of_here).
  apply IH. intros x Hx. by apply Hn, list_elem_of_further.
Qed.

Lemma find_filter_other {A} (f : A → bool) (P : A → Prop) `{∀ x, Decision (P x)}
    (l : list A) :
  (∀ x, f x = true → P x) → List.find f (filter P l) = List.find f l.
Proof.
  intros Hf. induction l as [|y l IH]; [done|].
  rewrite filter_cons. simpl. destruct (f y) eqn:E.
  - rewrite decide_True by auto. simpl. by rewrite E.
  - case_decide; simpl; by rewrite ?E.
Qed.

(** A row that a statement removes from [article_analysis] or from
    [opposing_articles] was removed by a deletion, along with the
    article it hangs on. *)
Lemma exec_removes_by_cascade d st :
  (∀ r, r ∈ article_analysis d → r ∉ article_analysis (exec d st) →
        is_delete st ∧ (an_article_id r ∉ (a_id <$> articles (exec d st)))) ∧
  (∀ l, l ∈ opposing_articles d → l ∉ opposing_articles (exec d st) →
        is_delete st ∧
        ((l_source_article_id l ∉ (a_id <$> articles (exec d st))) ∨
         (l_opposing_article_id l ∉ (a_id <$> articles (exec d st))))).
Proof.
  destruct st as [now i|now i|now i|id|id]; simpl.
  - destruct (insert_article now i d) as [d'|e] eqn:E; [|done].
    by apply insert_article_ok in E as (row & -> & _).
  - destruct (insert_article_analysis now i d) as [d'|e] eqn:E; [|done].
    apply insert_article_analysis_ok in E as (row & -> & _). simpl.
    split; [|done]. intros r Hr Hn. destruct Hn. apply elem_of_app. by left.
  - destruct (insert_opposing_article now i d) as [d'|e] eqn:E; [|done].
    apply insert_opposing_article_ok in E as (row & -> & _). simpl.
    split; [done|]. intros l Hl Hn. destruct Hn. apply elem_of_app. by left.
  - split.
    + intros r Hr Hn. split; [done|].
      rewrite list_elem_of_filter in Hn.
      destruct (decide (an_article_id r = id)) as [->|Hne]; [|tauto].
      intros (a & Ha & Hin)%list_elem_of_fmap.
      apply list_elem_of_filter in Hin as [? _]. congruence.
    + intros l Hl Hn. split; [done|].
      rewrite list_elem_of_filter in Hn.
      destruct (decide (l_source_article_id l = id)) as [->|Hs].
      { left. intros (a & Ha & Hin)%list_elem_of_fmap.
        apply list_elem_of_filter in Hin as [? _]. congruence. }
      destruct (decide (l_opposing_article_id l = id)) as [->|Ho]; [|tauto].
      right. intros (a & Ha & Hin)%list_elem_of_fmap.
      apply list_elem_of_filter in Hin as [? _]. congruence.
  - set (ids := a_id <$> filter (λ a, a_feed_id a = id) (articles d)).
    destruct (delete_articles_tables ids d) as (Ha & Hr & Hl).
    assert (∀ k, k ∈ ids → k ∉ (a_id <$> articles (foldr delete_article d ids)))
      as Hgone.
    { intros k Hk (a & -> & Hin)%list_elem_of_fmap. apply Ha in Hin. tauto. }
    split.
    + intros r Hin Hn. split; [done|]. rewrite Hr in Hn.
      destruct (decide (an_article_id r ∈ ids)); [auto|tauto].
    + intros l Hin Hn. split; [done|]. rewrite Hl in Hn.
      destruct (decide (l_source_article_id l ∈ ids)); [auto|].
      destruct (decide (l_opposing_article_id l ∈ ids)); [auto|tauto].
Qed.

(** C7: deleting an article takes away the article, its analysis row
    and every link it is an endpoint of (and its read/save overlay
    rows), and leaves the rest: the rows of every other article stay,
    in their order, and the feeds stay.
    No statement other than a deletion removes an analysis row or a
    link, and a deletion removes one only along with the article (for a
    link: an endpoint) it hangs on. *)
Theorem delete_article_cascades (id : uuid) (d : db) (st : statement) :
  let d' := delete_article id d in
  (getArticle d' id = None ∧ analyses_of d' id = [] ∧ links_of d' id = []) ∧
  (∀ other, other ≠ id →
     getArticle d' other = getArticle d other ∧
     getAnalysis d' other = getAnalysis d other ∧
     analyses_of d' other = analyses_of d other) ∧
  (∀ l, l ∈ opposing_articles d' ↔
        l ∈ opposing_articles d ∧
        l_source_article_id l ≠ id ∧ l_opposing_article_id l ≠ id) ∧
  (∀ r, r ∈ article_analysis d' ↔
        r ∈ article_analysis d ∧ an_article_id r ≠ id) ∧
  (∀ u, u ∈ user_articles d' ↔
        u ∈ user_articles d ∧ ua_article_id u ≠ id) ∧
  shrinks d' d ∧ feeds d' = feeds d ∧
  (∀ r, r ∈ article_analysis d → r ∉ article_analysis (exec d st) →
        is_delete st ∧ (an_article_id r ∉ (a_id <$> articles (exec d st)))) ∧
  (∀ l, l ∈ opposing_articles d → l ∉ opposing_articles (exec d st) →
        is_delete st ∧
        ((l_source_article_id l ∉ (a_id <$> articles (exec d st))) ∨
         (l_opposing_article_id l ∉ (a_id <$> articles (exec d st))))).
Proof.
  intros d'. subst d'. split_and!.
  - unfold getArticle; simpl. apply find_none_iff.
    intros a [Ha _]%list_elem_of_filter. by apply bool_decide_eq_false.
  - unfold analyses_of; simpl. rewrite list_filter_filter.
    apply filter_none. tauto.
  - unfold links_of; simpl. rewrite list_filter_filter.
    apply filter_none. tauto.
  - intros other Hne. unfold getArticle, getAnalysis, analyses_of; simpl.
    split_and!.
    + apply find_filter_other. intros a Ha%bool_decide_eq_true. congruence.
    + apply find_filter_other. intros a Ha%bool_decide_eq_true. congruence.
    + rewrite list_filter_filter. apply list_filter_iff. intros r. split; [tauto|].
      intros Hr. split; [done|congruence].
  - intros l. simpl. rewrite list_elem_of_filter. tauto.
  - intros r. simpl. rewrite list_elem_of_filter. tauto.
  - intros u. simpl. rewrite list_elem_of_filter. tauto.
  - apply delete_article_shrinks.
  - done.
  - apply exec_removes_by_cascade.
  - apply exec_removes_by_cascade.
Qed.

Lemma delete_article_cascades_witness :
  let d' := delete_article 1%N Examples.two_matched in
  analyses_of Examples.two_matched 1%N ≠ [] ∧
  links_of Examples.two_matched 1%N ≠ [] ∧
  analyses_of d' 1%N = [] ∧ links_of d' 1%N = [] ∧
  analyses_of d' 2%N = analyses_of Examples.two_matched 2%N.
Proof.
  intros d'.
  destruct (delete_article_cascades 1%N Examples.two_matched (DeleteArticle 1%N))
    as ((_ & Ha & Hl) & Hother & _).
  split; [vm_compute; discriminate|]. split; [vm_compute; discriminate|].
  split; [exact Ha|]. split; [exact Hl|].
  apply Hother. discriminate.
Defined.

End SchemaProps.

(** ** The pipeline *)

Module PipelineProps.
Import Schema Pipeline SchemaProps.

Lemma length_substring_0 (n : nat) (s : string) :
  (String.length (String.substring 0 n s) ≤ n)%nat.
Proof.
  revert s. induction n as [|n IH]; intros [|c s]; simpl; try lia.
  specialize (IH s). lia.
Qed.

Lemma varchar_fits (n : nat) (s : string) :
  (String.length s ≤ n)%nat → varchar n s = Ok s.
Proof. intros H. unfold varchar. by rewrite decide_True. Qed.

Lemma nullable_resolve {A} (o : option A) : resolve None (nullable o) = o.
Proof. by destruct o. Qed.

Lemma varchar_null_fits (n : nat) (o : option string) :
  (String.length (default "" o) ≤ n)%nat → varchar_null n o = Ok o.
Proof.
  intros H. destruct o as [s|]; [|done]. simpl in *. by rewrite varchar_fits.
Qed.

Lemma unique_taken {K} `{EqDecision K} (k : K) (taken : list K) :
  k ∈ taken → unique k taken = Err unique_violation.
Proof. intros H. unfold unique. by rewrite decide_True. Qed.

Lemma unique_free {K} `{EqDecision K} (k : K) (taken : list K) :
  k ∉ taken → unique k taken = Ok ().
Proof. intros H. unfold unique. by rewrite decide_False. Qed.

Lemma references_missing (k : uuid) (keys : list uuid) :
  k ∉ keys → references k keys = Err foreign_key_violation.
Proof. intros H. unfold references. by rewrite decide_False. Qed.

(** The insert of step 5, case by case. *)
Lemma insert_analysis_row now article_id c ad d :
  fits c ad →
  insert_article_analysis now (analysis_row article_id c ad) d =
    if decide (article_id ∈ (an_article_id <$> article_analysis d))
    then Err unique_violation
    else if decide (article_id ∈ (a_id <$> articles d))
    then Ok (with_analysis d
               (stored_row (gen_random_uuid (an_id <$> article_analysis d))
                  now article_id c ad))
    else Err foreign_key_violation.
Proof.
  intros (Hc & Ht & Hp & Hm).
  unfold insert_article_analysis, analysis_row; simpl.
  assert (not_null (resolve (Some "neutral") (or_default (c_content_type c)))
          = Ok (default "neutral" (c_content_type c))) as ->.
  { by destruct (c_content_type c). }
  simpl. rewrite !nullable_resolve, !varchar_fits, !varchar_null_fits by done.
  rewrite unique_fresh. simpl.
  case_decide as Hin.
  - by rewrite unique_taken.
  - rewrite unique_free by done. simpl. case_decide as Ha.
    + by rewrite references_in by done.
    + by rewrite references_missing.
Qed.

Lemma find_app_r {A} (f : A → bool) (l k : list A) :
  List.find f l = None → List.find f (l ++ k) = List.find f k.
Proof.
  induction l as [|x l IH]; [done|]. simpl. destruct (f x); [done|]. exact IH.
Qed.

Lemma getAnalysis_None d article_id :
  getAnalysis d article_id = None ↔
  article_id ∉ (an_article_id <$> article_analysis d).
Proof.
  unfold getAnalysis. rewrite find_none_iff. split.
  - intros H (r & -> & Hr)%list_elem_of_fmap.
    specialize (H r Hr). by apply bool_decide_eq_false in H.
  - intros H r Hr. apply bool_decide_eq_false. intros <-.
    apply H. apply list_elem_of_fmap. by exists r.
Qed.

Lemma getAnalysis_Some d article_id r :
  getAnalysis d article_id = Some r →
  r ∈ article_analysis d ∧ an_article_id r = article_id.
Proof.
  unfold getAnalysis. intros [Hin Hk]%find_some.
  apply list_elem_of_In in Hin. by apply bool_decide_eq_true in Hk.
Qed.

Lemma getArticle_Some_iff d id :
  is_Some (getArticle d id) ↔ id ∈ (a_id <$> articles d).
Proof.
  unfold getArticle. split.
  - intros [a [Hin Hk]%find_some]. apply list_elem_of_In in Hin.
    apply bool_decide_eq_true in Hk. apply list_elem_of_fmap. by exists a.
  - intros (a & -> & Hin)%list_elem_of_fmap.
    destruct (List.find _ _) eqn:E; [done|].
    rewrite find_none_iff in E. specialize (E a Hin).
    by apply bool_decide_eq_false in E.
Qed.

Lemma getAnalysis_with_analysis d r :
  getAnalysis d (an_article_id r) = None →
  getAnalysis (with_analysis d r) (an_article_id r) = Some r.
Proof.
  intros H. unfold getAnalysis in *; simpl. rewrite find_app_r by done.
  simpl. by rewrite bool_decide_true.
Qed.


Section OrchestratorProps.

Variables primary fallback : adapter.

(** What one call of [analyze] does to the database: nothing, or one
    row more, for this article, holding the normalised answer. *)
Lemma analyze_effect ans now article_id d t d' :
  analyze primary fallback ans now article_id d = (t, d') →
  d' = d ∨
  ∃ c ad row,
    classify_with_fallback primary fallback ans = inl (c, ad) ∧
    d' = with_analysis d row ∧ t = Analyzed row ∧
    an_article_id row = article_id ∧
    (article_id ∉ (an_article_id <$> article_analysis d)) ∧
    an_bias_score row = c_bias_score (normalize c) ∧
    an_bias_confidence row = c_bias_confidence (normalize c) ∧
    varchar 20 (default "neutral" (c_content_type c)) = Ok (an_content_type row).
Proof.
  unfold analyze. simpl.
  destruct (getAnalysis d article_id) as [r|] eqn:Eg; simpl.
  { intros [= <- <-]. by left. }
  destruct (getArticle d article_id) as [a|]; simpl; [|intros [= <- <-]; by left].
  destruct (classify_with_fallback primary fallback ans) as [[c ad]|k] eqn:Ec;
    simpl; [|intros [= <- <-]; by left].
  destruct (insert_article_analysis now _ d) as [d1|e] eqn:Ei.
  - apply insert_article_analysis_ok in Ei
      as (row & -> & _ & Hfree & _ & Hid & Hct & Hs & Hb).
    simpl in Hid, Hct, Hs, Hb. injection Hid as Hid.
    rewrite !nullable_resolve in *.
    fold (with_analysis d row). subst article_id.
    rewrite getAnalysis_with_analysis by done.
    intros [= <- <-]. right. by exists c, ad, row.
  - destruct e; try (intros [= <- <-]; by left).
    rewrite Eg. intros [= <- <-]. by left.
Qed.

Lemma fits_normalize c ad :
  (String.length (default "neutral" (c_content_type c)) ≤ 20)%nat →
  (String.length (adapter_id ad) ≤ 50)%nat →
  (String.length (default "" (adapter_model ad)) ≤ 100)%nat →
  fits (normalize c) ad.
Proof.
  intros Hc Hp Hm. unfold fits; simpl. split_and!; try done.
  destruct (c_topic_summary c) as [s|]; simpl; [|lia].
  apply length_substring_0.
Qed.

(** A call on an article that has no analysis yet, answered by a
    provider with something that fits, stores its row. *)
Lemma analyze_fresh ans now article_id d c ad :
  is_Some (getArticle d article_id) →
  getAnalysis d article_id = None →
  classify_with_fallback primary fallback ans = inl (c, ad) →
  fits (normalize c) ad →
  let row := stored_row (gen_random_uuid (an_id <$> article_analysis d))
               now article_id (normalize c) ad in
  analyze primary fallback ans now article_id d = (Analyzed row, with_analysis d row).
Proof.
  intros Ha Hn Hc Hf row. unfold analyze; simpl. rewrite Hn; simpl.
  destruct Ha as [a Ha]. rewrite Ha, Hc; simpl.
  rewrite insert_analysis_row by done.
  rewrite decide_False by (by apply getAnalysis_None).
  rewrite decide_True by (apply getArticle_Some_iff; by exists a).
  fold row. pose proof (getAnalysis_with_analysis d row Hn) as Hg.
  change (an_article_id row) with article_id in Hg. by rewrite Hg.
Qed.

End OrchestratorProps.

(** ** Scores *)

Lemma clamp_bounds (lo hi x : Q) :
  (lo <= hi)%Q → (lo <= clamp lo hi x)%Q ∧ (clamp lo hi x <= hi)%Q.
Proof.
  intros Hle. unfold clamp.
  destruct (decide (x < lo)%Q) as [Hlt|Hge].
  - split; [apply Qle_refl|done].
  - apply Qnot_lt_le in Hge. destruct (decide (hi < x)%Q) as [Hgt|Hle'].
    + split; [done|apply Qle_refl].
    + apply Qnot_lt_le in Hle'. done.
Qed.

Lemma clamp_inside (lo hi x : Q) :
  (lo <= x)%Q → (x <= hi)%Q → clamp lo hi x = x.
Proof.
  intros H1 H2. unfold clamp.
  rewrite decide_False by (by apply Qle_not_lt).
  by rewrite decide_False by (by apply Qle_not_lt).
Qed.

Lemma normalize_in_domain (c : classification) :
  (∀ s, c_bias_score (normalize c) = Some s → (-1 # 1 <= s)%Q ∧ (s <= 1)%Q) ∧
  (∀ k, c_bias_confidence (normalize c) = Some k → (0 <= k)%Q ∧ (k <= 1)%Q).
Proof.
  split; simpl.
  - intros s (x & _ & ->)%fmap_Some. by apply clamp_bounds.
  - intros k (x & _ & ->)%fmap_Some. by apply clamp_bounds.
Qed.


(** ** Links *)

(** The insert with [ON CONFLICT DO NOTHING], case by case. *)
Lemma insertOpposingLink_cases now source d (c : article * Q) :
  insertOpposingLink now source d c =
    if decide ((source, a_id c.1) ∈ (pair_of <$> opposing_articles d)) then d
    else if decide (source ∈ (a_id <$> articles d) ∧
                    a_id c.1 ∈ (a_id <$> articles d))
    then with_link d
           {| l_id := gen_random_uuid (l_id <$> opposing_articles d);
              l_source_article_id := source;
              l_opposing_article_id := a_id c.1;
              l_relevance_score := c.2;
              l_created_at := now |}
    else d.
Proof.
  unfold insertOpposingLink, insert_opposing_article; simpl.
  rewrite unique_fresh; simpl. unfold pair_of at 1; simpl.
  case_decide as Hp.
  - by rewrite unique_taken.
  - rewrite unique_free by done. simpl. case_decide as Ha.
    + destruct Ha as [Hs Ho]. by rewrite !references_in.
    + destruct (decide (source ∈ (a_id <$> articles d))) as [Hs|Hs].
      * rewrite (references_in source) by done. simpl.
        rewrite references_missing; [done|tauto].
      * by rewrite (references_missing source).
Qed.

Lemma persist_links_ind (P : db → Prop) now source cands d :
  P d →
  (∀ d c, c ∈ cands → P d → P (insertOpposingLink now source d c)) →
  P (persist_links now source cands d).
Proof.
  unfold persist_links. revert d.
  induction cands as [|c cands IH]; intros d Hd Hstep; [done|]. simpl.
  apply IH.
  - apply Hstep; [apply list_elem_of_here|done].
  - intros d0 c0 Hc0. apply Hstep. by apply list_elem_of_further.
Qed.

(** Persisting links touches [opposing_articles] only, and only adds. *)
Lemma persist_links_frame now source cands d :
  let d' := persist_links now source cands d in
  feeds d' = feeds d ∧ articles d' = articles d ∧
  article_analysis d' = article_analysis d ∧
  user_articles d' = user_articles d ∧
  (∀ l, l ∈ opposing_articles d → l ∈ opposing_articles d').
Proof.
  apply (persist_links_ind
           (λ d', feeds d' = feeds d ∧ articles d' = articles d ∧
                  article_analysis d' = article_analysis d ∧
                  user_articles d' = user_articles d ∧
                  (∀ l, l ∈ opposing_articles d → l ∈ opposing_articles d'))).
  - done.
  - intros d0 c _ (Hf & Ha & Hr & Hu & Hl). rewrite insertOpposingLink_cases.
    repeat case_decide; simpl; split_and!; try done.
    intros l Hin. apply elem_of_app. left. by apply Hl.
Qed.

Lemma persist_links_unique now source cands d :
  links_unique d → links_unique (persist_links now source cands d).
Proof.
  intros Hu. apply persist_links_ind; [done|].
  intros d0 c _ Hu0. rewrite insertOpposingLink_cases.
  repeat case_decide; try done. unfold links_unique in *; simpl.
  rewrite fmap_app. apply NoDup_app. split_and!; [done| |apply NoDup_singleton].
  by intros k Hin ->%list_elem_of_singleton.
Qed.

Lemma persist_links_no_self now source cands d :
  (∀ c, c ∈ cands → a_id c.1 ≠ source) →
  no_self_links d → no_self_links (persist_links now source cands d).
Proof.
  intros Hc Hn.
  apply (persist_links_ind (λ d', no_self_links d')); [done|].
  intros d0 c Hin Hn0. rewrite insertOpposingLink_cases.
  repeat case_decide; try done.
  intros l [Hl| ->%list_elem_of_singleton]%elem_of_app; [by apply Hn0|].
  simpl. intros Heq. by apply (Hc c Hin).
Qed.

(** Once both articles are there, a persisted candidate is linked. *)
Lemma persist_links_present now source cands d (c : article * Q) :
  c ∈ cands →
  source ∈ (a_id <$> articles d) → a_id c.1 ∈ (a_id <$> articles d) →
  (source, a_id c.1) ∈ (pair_of <$> opposing_articles (persist_links now source cands d)).
Proof.
  unfold persist_links. revert d.
  induction cands as [|c0 cands IH]; intros d Hin Hs Ho.
  { by apply elem_of_nil in Hin. }
  simpl. apply elem_of_cons in Hin as [->|Hin].
  - destruct (persist_links_frame now source cands (insertOpposingLink now source d c0))
      as (_ & _ & _ & _ & Hmono).
    assert (∃ l, l ∈ opposing_articles (insertOpposingLink now source d c0) ∧
                 pair_of l = (source, a_id c0.1)) as (l & Hl & Hk).
    { rewrite insertOpposingLink_cases. case_decide as Hp.
      - apply list_elem_of_fmap in Hp as (l & ? & ?). by exists l.
      - rewrite decide_True by done. eexists. split.
        + simpl. apply elem_of_app. right. apply list_elem_of_here.
        + done. }
    apply list_elem_of_fmap. exists l. split; [done|]. by apply Hmono.
  - apply IH; [done|..].
    + rewrite insertOpposingLink_cases. by repeat case_decide.
    + rewrite insertOpposingLink_cases. by repeat case_decide.
Qed.

Lemma persist_links_twice now1 now2 source cands d :
  persist_links now2 source cands (persist_links now1 source cands d) =
  persist_links now1 source cands d.
Proof.
  set (D := persist_links now1 source cands d).
  assert (∀ c, c ∈ cands → insertOpposingLink now2 source D c = D) as Hnoop.
  { intros c Hc. rewrite insertOpposingLink_cases.
    case_decide as Hp; [done|]. case_decide as Ha; [|done].
    destruct Hp. destruct Ha as [Hs Ho].
    destruct (persist_links_frame now1 source cands d) as (_ & Hart & _).
    fold D in Hart. rewrite Hart in Hs, Ho.
    by apply persist_links_present. }
  clearbody D. unfold persist_links.
  induction cands as [|c cands IH]; [done|]. simpl.
  rewrite Hnoop by apply list_elem_of_here.
  apply IH. intros c0 Hc0. apply Hnoop. by apply list_elem_of_further.
Qed.

Section MatcherProps.

Variable relevance : uuid → string → article → Q.
Variables (top_k cap : nat) (threshold : Q).

Lemma match_cases search now source queries d :
  (match_ relevance top_k cap threshold search now source queries d).2 = d ∨
  ∃ cands, (∀ c, c ∈ cands → a_id c.1 ≠ source) ∧
    (match_ relevance top_k cap threshold search now source queries d).2 =
      persist_links now source cands d.
Proof.
  unfold match_. destruct (getArticle d source); [|by left]. right.
  eexists. split; [|done].
  intros c Hc. unfold without_self in Hc.
  by apply list_elem_of_filter in Hc as [? _].
Qed.

Lemma match_links_unique search now source queries d :
  links_unique d →
  links_unique (match_ relevance top_k cap threshold search now source queries d).2.
Proof.
  intros Hu. destruct (match_cases search now source queries d)
    as [->|(cands & _ & ->)]; [done|]. by apply persist_links_unique.
Qed.

Lemma match_no_self search now source queries d :
  no_self_links d →
  no_self_links (match_ relevance top_k cap threshold search now source queries d).2.
Proof.
  intros Hn. destruct (match_cases search now source queries d)
    as [->|(cands & Hc & ->)]; [done|]. by apply persist_links_no_self.
Qed.

End MatcherProps.


Section OperationProps.

Variables primary fallback : adapter.
Variable relevance : uuid → string → article → Q.
Variables (top_k cap : nat) (threshold : Q).

Local Abbreviation perform := (perform primary fallback relevance top_k cap threshold).
Local Abbreviation after := (after primary fallback relevance top_k cap threshold).
Local Abbreviation match_ := (match_ relevance top_k cap threshold).

(** An operation leaves [opposing_articles] as it is, takes rows out
    of it, or is a [match] that persists candidates other than the
    source. *)
Lemma perform_links d o :
  opposing_articles (perform d o) `sublist_of` opposing_articles d ∨
  ∃ now source cands,
    (∀ c, c ∈ cands → a_id c.1 ≠ source) ∧
    opposing_articles (perform d o) =
      opposing_articles (persist_links now source cands d).
Proof.
  destruct o as [now i|ans now id|id qs|search now id qs|id|id]; simpl.
  - left. destruct (insert_article now i d) as [d'|e] eqn:E; [|done].
    by apply insert_article_ok in E as (row & -> & _).
  - left. destruct (analyze primary fallback ans now id d) as [t d'] eqn:E.
    by apply analyze_effect in E as [->|(c & ad & row & _ & -> & _)].
  - by left.
  - destruct (match_cases relevance top_k cap threshold search now id qs d)
      as [->|(cands & Hc & ->)]; [by left|]. right. by exists now, id, cands.
  - left. apply sublist_filter.
  - left. apply delete_feed_shrinks.
Qed.

Lemma perform_links_unique d o : links_unique d → links_unique (perform d o).
Proof.
  intros Hu. unfold links_unique.
  destruct (perform_links d o) as [Hsub|(now & source & cands & _ & ->)].
  - eapply sublist_NoDup; [exact Hu|]. by apply fmap_sublist.
  - by apply persist_links_unique.
Qed.

Lemma perform_no_self d o : no_self_links d → no_self_links (perform d o).
Proof.
  intros Hn. unfold no_self_links.
  destruct (perform_links d o) as [Hsub|(now & source & cands & Hc & ->)].
  - intros l Hl. apply Hn. by eapply elem_of_sublist.
  - by apply persist_links_no_self.
Qed.

(** Every analysis row an operation leaves behind was there before
    with the same scores, or holds normalised scores. *)
Lemma perform_analysis d o r :
  r ∈ article_analysis (perform d o) →
  (∃ r0, r0 ∈ article_analysis d ∧
         an_bias_score r = an_bias_score r0 ∧
         an_bias_confidence r = an_bias_confidence r0) ∨
  in_domain r.
Proof.
  destruct o as [now i|ans now id|id qs|search now id qs|id|id]; simpl.
  - destruct (insert_article now i d) as [d'|e] eqn:E.
    + apply insert_article_ok in E as (row & -> & _). left. by exists r.
    + left. by exists r.
  - destruct (analyze primary fallback ans now id d) as [t d'] eqn:E.
    apply analyze_effect in E
      as [->|(c & ad & row & _ & -> & _ & _ & _ & Hs & Hb & _)]; simpl.
    + left. by exists r.
    + intros [Hr| ->%list_elem_of_singleton]%elem_of_app; [left; by exists r|].
      right. unfold in_domain. rewrite Hs, Hb. apply normalize_in_domain.
  - intros Hr. apply list_elem_of_fmap in Hr as (r0 & Heq & Hr0).
    left. exists r0. split; [done|]. subst r. by case_decide.
  - destruct (match_cases relevance top_k cap threshold search now id qs d)
      as [->|(cands & _ & ->)]; [left; by exists r|].
    destruct (persist_links_frame now id cands d) as (_ & _ & -> & _).
    left. by exists r.
  - intros [_ Hr]%list_elem_of_filter. left. by exists r.
  - intros Hr. left. exists r. split; [|done].
    eapply elem_of_sublist; [exact Hr|]. apply delete_feed_shrinks.
Qed.

(** An operation keeps [article_analysis] at one row per article. *)
Lemma perform_analysis_unique d o : analysis_unique d → analysis_unique (perform d o).
Proof.
  unfold analysis_unique. intros Hu.
  destruct o as [now i|ans now id|id qs|search now id qs|id|id]; simpl.
  - destruct (insert_article now i d) as [d'|e] eqn:E; [|done].
    by apply insert_article_ok in E as (row & -> & _).
  - destruct (analyze primary fallback ans now id d) as [t d'] eqn:E.
    apply analyze_effect in E
      as [->|(c & ad & row & _ & -> & _ & Hid & Hfree & _)]; [done|].
    simpl. rewrite fmap_app. apply NoDup_app.
    split_and!; [done| |apply NoDup_singleton].
    intros k Hin Hk%list_elem_of_singleton. simpl in Hk. congruence.
  - rewrite <- list_fmap_compose.
    erewrite list_fmap_ext; [exact Hu|]. intros i r _. simpl. by case_decide.
  - destruct (match_cases relevance top_k cap threshold search now id qs d)
      as [->|(cands & _ & ->)]; [done|].
    by destruct (persist_links_frame now id cands d) as (_ & _ & -> & _).
  - eapply sublist_NoDup; [exact Hu|]. apply fmap_sublist, sublist_filter.
  - eapply sublist_NoDup; [exact Hu|]. apply fmap_sublist, delete_feed_shrinks.
Qed.

Lemma after_snoc known_feeds history o :
  after known_feeds (history ++ [o]) = perform (after known_feeds history) o.
Proof. unfold Pipeline.after. by rewrite foldl_app. Qed.

Lemma after_invariants known_feeds history :
  links_unique (after known_feeds history) ∧
  no_self_links (after known_feeds history) ∧
  analysis_unique (after known_feeds history) ∧
  (∀ r, r ∈ article_analysis (after known_feeds history) → in_domain r).
Proof.
  induction history as [|o history (IHu & IHn & IHa & IHd)] using rev_ind.
  - split_and!.
    + unfold links_unique; simpl. constructor.
    + intros l Hl. by apply elem_of_nil in Hl.
    + unfold analysis_unique; simpl. constructor.
    + intros r Hr. by apply elem_of_nil in Hr.
  - rewrite after_snoc. split_and!.
    + by apply perform_links_unique.
    + by apply perform_no_self.
    + by apply perform_analysis_unique.
    + intros r [(r0 & Hr0 & Hs & Hb)|Hd]%perform_analysis; [|done].
      unfold in_domain. rewrite Hs, Hb. by apply IHd.
Qed.

(** C4: every analysis row of a database the pipeline has worked on
    has its [bias_score], when there, within [[-1, 1]] and its
    [bias_confidence], when there, within [[0, 1]]; the scores a call
    of [analyze] stores are the provider's, clamped; the table itself
    stores whatever score an insert gives it. *)
Theorem persisted_scores_in_domain (known_feeds : list feed)
    (history : list operation) (r : analysis) :
  r ∈ article_analysis (after known_feeds history) →
  (∀ s, an_bias_score r = Some s → (-1 # 1 <= s)%Q ∧ (s <= 1)%Q) ∧
  (∀ c, an_bias_confidence r = Some c → (0 <= c)%Q ∧ (c <= 1)%Q) ∧
  (∀ ans now id d t d',
     analyze primary fallback ans now id d = (t, d') →
     d' = d ∨
     ∃ c ad row,
       classify_with_fallback primary fallback ans = inl (c, ad) ∧
       article_analysis d' = article_analysis d ++ [row] ∧
       an_bias_score row = clamp (-1 # 1) 1 <$> c_bias_score c ∧
       an_bias_confidence row = clamp 0 1 <$> c_bias_confidence c) ∧
  (∀ now i d d',
     insert_article_analysis now i d = Ok d' →
     ∃ row, article_analysis d' = article_analysis d ++ [row] ∧
            an_bias_score row = resolve None (ani_bias_score i) ∧
            an_bias_confidence row = resolve None (ani_bias_confidence i)).
Proof.
  intros Hr. destruct (after_invariants known_feeds history) as (_ & _ & _ & Hd).
  destruct (Hd r Hr) as [Hs Hb]. split_and!; [done|done| |].
  - intros ans now id d t d' E.
    apply analyze_effect in E
      as [->|(c & ad & row & Hc & -> & _ & _ & _ & Hs' & Hb' & _)]; [by left|].
    right. by exists c, ad, row.
  - intros now i d d' E.
    apply insert_article_analysis_ok in E as (row & -> & _ & _ & _ & _ & _ & ? & ?).
    by exists row.
Qed.

(** C2: the pairs [(source_article_id, opposing_article_id)] of
    [opposing_articles] are pairwise distinct after every statement and
    after every operation of the pipeline, so also after matching
    twice; an insert whose pair is already there is ignored, and only
    that very pair, in that order, stands in its way; persisting the
    same candidates a second time changes nothing, and neither does a
    second [match] to which the search answers as it did to the
    first. *)
Theorem matching_is_idempotent (known_feeds : list feed)
    (history : list operation) :
  (∀ d st, links_unique d → links_unique (exec d st)) ∧
  links_unique (after known_feeds history) ∧
  (∀ d search1 search2 now1 now2 source queries,
     links_unique d →
     links_unique
       (match_ search2 now2 source queries
          (match_ search1 now1 source queries d).2).2) ∧
  (∀ d now source (c : article * Q),
     (source, a_id c.1) ∈ (pair_of <$> opposing_articles d) →
     insertOpposingLink now source d c = d) ∧
  (∀ d now source (c : article * Q),
     (source, a_id c.1) ∉ (pair_of <$> opposing_articles d) →
     source ∈ (a_id <$> articles d) → a_id c.1 ∈ (a_id <$> articles d) →
     ∃ l, insertOpposingLink now source d c = with_link d l ∧
          pair_of l = (source, a_id c.1) ∧ l_relevance_score l = c.2) ∧
  (∀ d now1 now2 source cands,
     persist_links now2 source cands (persist_links now1 source cands d) =
     persist_links now1 source cands d) ∧
  (∀ d search1 search2 now1 now2 source queries,
     let d1 := (match_ search1 now1 source queries d).2 in
     (∀ q, q ∈ queries →
        search2 q (source :: linked_for d1 source) top_k =
        search1 q (source :: linked_for d source) top_k) →
     (match_ search2 now2 source queries d1).2 = d1).
Proof.
  split_and!.
  - apply exec_links_unique.
  - apply after_invariants.
  - intros. by do 2 apply match_links_unique.
  - intros d now source c Hin. rewrite insertOpposingLink_cases.
    by rewrite decide_True.
  - intros d now source c Hout Hs Ho. rewrite insertOpposingLink_cases.
    rewrite decide_False, decide_True by done. by eexists.
  - intros. apply persist_links_twice.
  - intros d search1 search2 now1 now2 source queries d1 Hsame.
    destruct (getArticle d source) as [a|] eqn:Ea.
    + set (cands := without_self source
                      (shortlist cap threshold
                         (concat (omap id (candidates_for relevance top_k search1 d source
                                             <$> queries))))).
      assert (d1 = persist_links now1 source cands d) as Hd1.
      { subst d1. unfold Pipeline.match_. by rewrite Ea. }
      clearbody d1. subst d1.
      destruct (persist_links_frame now1 source cands d) as (_ & Hart & _).
      unfold Pipeline.match_, getArticle. rewrite Hart. fold (getArticle d source).
      rewrite Ea. simpl.
      assert (candidates_for relevance top_k search2
                (persist_links now1 source cands d) source <$> queries =
              candidates_for relevance top_k search1 d source <$> queries) as ->.
      { apply list_fmap_ext. intros i q Hq. unfold candidates_for.
        rewrite Hsame; [done|]. by eapply list_elem_of_lookup_2. }
      apply persist_links_twice.
    + assert (d1 = d) as Hd1.
      { subst d1. unfold Pipeline.match_. by rewrite Ea. }
      clearbody d1. subst d1. unfold Pipeline.match_. by rewrite Ea.
Qed.

(** What the storage layer does with a link from an article to itself. *)
Lemma insert_self_link now id score d :
  id ∈ (a_id <$> articles d) →
  (id, id) ∉ (pair_of <$> opposing_articles d) →
  insert_opposing_article now
    {| li_id := DEFAULT; li_source_article_id := Value id;
       li_opposing_article_id := Value id;
       li_relevance_score := Value score; li_created_at := DEFAULT |} d =
  Ok (with_link d
        {| l_id := gen_random_uuid (l_id <$> opposing_articles d);
           l_source_article_id := id; l_opposing_article_id := id;
           l_relevance_score := score; l_created_at := now |}).
Proof.
  intros Ha Hp. unfold insert_opposing_article; simpl.
  rewrite unique_fresh; simpl. unfold pair_of at 1; simpl.
  rewrite unique_free by done. simpl. by rewrite !references_in.
Qed.

(** C3: no database the pipeline has worked on holds a link from an
    article to itself, and a [match] never adds one, whatever the
    search collaborator returns.  The table itself takes such a row,
    and the matcher without its guard stores one as soon as the search
    returns the source. *)
Theorem no_self_links_by_guard (known_feeds : list feed)
    (history : list operation) :
  (∀ l, l ∈ opposing_articles (after known_feeds history) →
        l_source_article_id l ≠ l_opposing_article_id l) ∧
  (∀ d search now source queries,
     no_self_links d → no_self_links (match_ search now source queries d).2) ∧
  (∀ d now id score,
     id ∈ (a_id <$> articles d) →
     (id, id) ∉ (pair_of <$> opposing_articles d) →
     ∃ l d', insert_opposing_article now
               {| li_id := DEFAULT; li_source_article_id := Value id;
                  li_opposing_article_id := Value id;
                  li_relevance_score := Value score;
                  li_created_at := DEFAULT |} d = Ok d' ∧
             l ∈ opposing_articles d' ∧
             l_source_article_id l = id ∧ l_opposing_article_id l = id) ∧
  (∀ d search now a q,
     a ∈ articles d →
     (a_id a, a_id a) ∉ (pair_of <$> opposing_articles d) →
     search q (a_id a :: linked_for d (a_id a)) top_k = Some [a] →
     (threshold < relevance (a_id a) q a)%Q → (0 < cap)%nat →
     ∃ l, l ∈ opposing_articles
            (match_unguarded relevance top_k cap threshold search now (a_id a) [q] d) ∧
          l_source_article_id l = l_opposing_article_id l).
Proof.
  split_and!.
  - apply after_invariants.
  - intros. by apply match_no_self.
  - intros d now id score Ha Hp. eexists _, _. split.
    + by apply insert_self_link.
    + simpl. split; [apply elem_of_app; right; apply list_elem_of_here|done].
  - intros d search now a q Ha Hp Hs Ht Hcap.
    assert (a_id a ∈ (a_id <$> articles d)) as Hid.
    { apply list_elem_of_fmap. by exists a. }
    unfold match_unguarded, candidates_for; simpl. rewrite Hs; simpl.
    unfold shortlist. rewrite filter_cons, decide_True by done.
    rewrite filter_nil. destruct cap as [|cap']; [lia|].
    cbn. rewrite take_nil. simpl. rewrite insertOpposingLink_cases. simpl.
    rewrite decide_False by done. rewrite decide_True by done.
    eexists. split; [simpl; apply elem_of_app; right; apply list_elem_of_here|].
    reflexivity.
Qed.

End OperationProps.

Lemma matching_is_idempotent_witness :
  opposing_articles Examples.two_matched ≠ [] ∧
  (match_ Examples.flat 5 5 (3 # 10)%Q (Examples.return_all Examples.two_analysed)
     9 1%N ["budget vote"] Examples.two_matched).2 = Examples.two_matched.
Proof.
  split; [vm_compute; discriminate|].
  destruct (matching_is_idempotent Examples.ollama Examples.claude Examples.flat
              5 5 (3 # 10)%Q [Examples.the_feed] []) as (_ & _ & _ & _ & _ & _ & H).
  apply (H Examples.two_analysed (Examples.return_all Examples.two_analysed)
           (Examples.return_all Examples.two_analysed) 4 9 1%N ["budget vote"]).
  intros q Hq. reflexivity.
Defined.

Lemma no_self_links_by_guard_witness :
  (∃ l, l ∈ opposing_articles
          (match_unguarded Examples.flat 5 5 (3 # 10)%Q Examples.careless_search
             4 1%N ["budget vote"] Examples.one_article) ∧
        l_source_article_id l = l_opposing_article_id l) ∧
  no_self_links
    (match_ Examples.flat 5 5 (3 # 10)%Q Examples.careless_search
       4 1%N ["budget vote"] Examples.one_article).2.
Proof.
  destruct (no_self_links_by_guard Examples.ollama Examples.claude Examples.flat
              5 5 (3 # 10)%Q [Examples.the_feed] []) as (_ & Hguard & _ & Hun).
  split.
  - apply (Hun Examples.one_article Examples.careless_search 4
             Examples.first_article "budget vote").
    + vm_compute. apply list_elem_of_here.
    + vm_compute. apply not_elem_of_nil.
    + reflexivity.
    + reflexivity.
    + lia.
  - apply Hguard. intros l Hl. vm_compute in Hl. by apply elem_of_nil in Hl.
Defined.

Lemma persisted_scores_in_domain_witness :
  let r := stored_row 1%N 5 1%N (normalize Examples.loud) Examples.claude in
  let d := after Examples.ollama Examples.claude Examples.flat 5 5 (3 # 10)%Q
             [Examples.the_feed] Examples.analysed_once in
  r ∈ article_analysis d ∧
  (∀ s, an_bias_score r = Some s → (-1 # 1 <= s)%Q ∧ (s <= 1)%Q) ∧
  (∀ c, an_bias_confidence r = Some c → (0 <= c)%Q ∧ (c <= 1)%Q).
Proof.
  intros r d.
  assert (r ∈ article_analysis d) as Hr.
  { vm_compute. apply list_elem_of_here. }
  destruct (persisted_scores_in_domain Examples.ollama Examples.claude
              Examples.flat 5 5 (3 # 10)%Q
              [Examples.the_feed] Examples.analysed_once r Hr)
    as (Hs & Hc & _).
  split; [exact Hr|]. split; [exact Hs|exact Hc].
Defined.

(** C6: a call of [analyze] whose provider answers without a content
    type stores its row with [content_type] "neutral"; so does any
    insert that leaves the column out; and an insert that gives [NULL]
    for it is rejected: no stored row lacks a content type. *)
Theorem content_type_defaults_to_neutral (primary fallback : adapter)
    (ans : answers) (now : timestamptz) (article_id : uuid) (d : db)
    (c : classification) (ad : adapter) :
  is_Some (getArticle d article_id) →
  getAnalysis d article_id = None →
  classify_with_fallback primary fallback ans = inl (c, ad) →
  c_content_type c = None →
  (String.length (adapter_id ad) ≤ 50)%nat →
  (String.length (default "" (adapter_model ad)) ≤ 100)%nat →
  (∃ r, analyze primary fallback ans now article_id d =
          (Analyzed r, with_analysis d r) ∧
        an_content_type r = "neutral") ∧
  (∀ i d', ani_content_type i = DEFAULT →
     insert_article_analysis now i d = Ok d' →
     ∃ r, article_analysis d' = article_analysis d ++ [r] ∧
          an_content_type r = "neutral") ∧
  (∀ i, ani_content_type i = NULL →
     insert_article_analysis now i d = Err not_null_violation).
Proof.
  intros Ha Hn Hc Hct Hp Hm. split_and!.
  - eexists. split.
    + apply analyze_fresh; try done. apply fits_normalize; try done.
      rewrite Hct. simpl. lia.
    + simpl. by rewrite Hct.
  - intros i d' Hi E.
    apply insert_article_analysis_ok in E as (row & -> & _ & _ & _ & _ & Hrow & _).
    exists row. split; [done|]. rewrite Hi in Hrow. simpl in Hrow.
    unfold varchar in Hrow. simpl in Hrow. congruence.
  - intros i Hi. unfold insert_article_analysis. rewrite Hi.
    destruct (not_null (resolve _ (ani_id i))) as [?|[]] eqn:E1; simpl; try done;
      try (by destruct (resolve _ (ani_id i))).
    destruct (not_null (resolve _ (ani_article_id i))) as [?|[]] eqn:E2; simpl;
      try done; by destruct (resolve _ (ani_article_id i)).
Qed.


Lemma content_type_defaults_to_neutral_witness :
  ∃ r, analyze Examples.ollama Examples.claude Examples.primary_times_out 5 1%N
         Examples.one_article = (Analyzed r, with_analysis Examples.one_article r) ∧
       an_content_type r = "neutral".
Proof.
  refine (proj1 (content_type_defaults_to_neutral Examples.ollama Examples.claude
                   Examples.primary_times_out 5 1%N Examples.one_article
                   Examples.loud Examples.claude _ _ _ _ _ _)).
  - vm_compute. eexists. reflexivity.
  - reflexivity.
  - reflexivity.
  - reflexivity.
  - simpl. lia.
  - simpl. lia.
Defined.

(** ** The design document's own examples *)

(** Threshold filtering: of the scores 0.9, 0.5, 0.2 and 0.05, with a
    minimum of 0.3, two links are stored, 0.9 first. *)
Example threshold_filtering :
  l_relevance_score <$>
    opposing_articles
      (match_ Examples.graded 10 5 (3 # 10)%Q
         (Examples.honest_search Examples.five_articles) 9 1%N ["q"]
         Examples.five_articles).2
  = [(9 # 10)%Q; (5 # 10)%Q].
Proof. vm_compute. reflexivity. Qed.

(** Fallback correctness: the primary times out, the fallback answers,
    and the stored row names the fallback. *)
Example fallback_correctness :
  ∃ r d', analyze Examples.ollama Examples.claude Examples.opinionated 5 1%N
            Examples.one_article = (Analyzed r, d') ∧
          an_provider r = "claude" ∧ an_content_type r = "opinion" ∧
          an_bias_score r = Some (6 # 10)%Q.
Proof. eexists _, _. vm_compute. split_and!; reflexivity. Qed.

(** Empty-query safety: no query, no link, no error. *)
Example empty_query_safety :
  match_ Examples.graded 10 5 (3 # 10)%Q
    (Examples.honest_search Examples.five_articles) 9 1%N [] Examples.five_articles
  = (Matched 0, Examples.five_articles).
Proof. vm_compute. reflexivity. Qed.

(** ** Concurrent calls of [analyze] *)

Lemma NoDup_fmap_filter {A B} `{EqDecision B} (f : A → B) (l : list A) (x : A) :
  NoDup (f <$> l) → x ∈ l → filter (λ y, f y = f x) l = [x].
Proof.
  induction l as [|z l IH]; intros Hnd Hx; [by apply elem_of_nil in Hx|].
  rewrite fmap_cons in Hnd. apply NoDup_cons in Hnd as [Hz Hnd].
  rewrite filter_cons. apply elem_of_cons in Hx as [->|Hx].
  - rewrite decide_True by done. f_equal. apply filter_none.
    intros y Hy Heq. apply Hz. rewrite <- Heq. apply list_elem_of_fmap. by exists y.
  - rewrite decide_False; [by apply IH|].
    intros Heq. apply Hz. rewrite Heq. apply list_elem_of_fmap. by exists x.
Qed.

Lemma NoDup_fmap_filter_le {A B} `{EqDecision B} (f : A → B) (l : list A) (k : B) :
  NoDup (f <$> l) → (length (filter (λ y, f y = k) l) ≤ 1)%nat.
Proof.
  intros Hnd. destruct (filter (λ y, f y = k) l) as [|x rest] eqn:E; [simpl; lia|].
  assert (x ∈ filter (λ y, f y = k) l) as Hx by (rewrite E; apply list_elem_of_here).
  apply list_elem_of_filter in Hx as [<- Hx].
  rewrite (NoDup_fmap_filter f l x Hnd Hx) in E. injection E as <-.
  simpl. lia.
Qed.

Section ConcurrencyProps.

Variables primary fallback : adapter.
Variable article_id : uuid.

Local Abbreviation analyze_step := (analyze_step primary fallback).
Local Abbreviation schedule_step := (schedule_step primary fallback article_id).
Local Abbreviation run_schedule := (run_schedule primary fallback article_id).

(** A step writes nothing, or one row for the article, which had none. *)
Lemma analyze_step_effect ans now t d t' d' :
  analyze_step ans now article_id t d = (t', d') →
  d' = d ∨
  ∃ row, d' = with_analysis d row ∧ an_article_id row = article_id ∧
         (article_id ∉ (an_article_id <$> article_analysis d)).
Proof.
  destruct t as [| |c ad|r|e]; simpl.
  - destruct (getAnalysis d article_id); intros [= <- <-]; by left.
  - destruct (getArticle d article_id); [|intros [= <- <-]; by left].
    destruct (classify_with_fallback _ _ _) as [[c ad]|k]; intros [= <- <-]; by left.
  - destruct (insert_article_analysis now _ d) as [d1|e] eqn:Ei.
    + apply insert_article_analysis_ok in Ei as (row & -> & _ & Hfree & _ & Hid & _).
      simpl in Hid. injection Hid as Hid. fold (with_analysis d row).
      intros E. right. exists row.
      assert (d' = with_analysis d row) as ->.
      { by destruct (getAnalysis _ _); injection E as <- <-. }
      split_and!; [done|done|congruence].
    + destruct e; try (intros [= <- <-]; by left).
      destruct (getAnalysis _ _); intros [= <- <-]; by left.
  - intros [= <- <-]; by left.
  - intros [= <- <-]; by left.
Qed.

Lemma schedule_step_unique s e :
  analysis_unique s.1 → analysis_unique (schedule_step s e).1.
Proof.
  intros Hu. unfold Pipeline.schedule_step.
  destruct (s.2 !! ev_caller e) as [t|]; [|done].
  destruct (analyze_step _ _ _ t s.1) as [t' d'] eqn:E. simpl.
  apply analyze_step_effect in E as [->|(row & -> & Hrow & Hfree)]; [done|].
  unfold analysis_unique in *; simpl. rewrite fmap_app.
  apply NoDup_app. split_and!; [done| |apply NoDup_singleton].
  intros k Hin Hk%list_elem_of_singleton. simpl in Hk. congruence.
Qed.

Lemma run_schedule_unique d n sched :
  analysis_unique d → analysis_unique (run_schedule d n sched).1.
Proof.
  intros Hu. unfold Pipeline.run_schedule.
  induction sched as [|e sched IH] using rev_ind; [done|].
  rewrite foldl_app. simpl. by apply schedule_step_unique.
Qed.

(** With the article there and a storable answer at hand, a caller on
    track stays on track and gets one step closer to its row. *)
Lemma analyze_step_progress ans now t d t' d' :
  article_id ∈ (a_id <$> articles d) →
  storable primary fallback ans →
  on_track article_id d t →
  analyze_step ans now article_id t d = (t', d') →
  on_track article_id d' t' ∧ (rank t' ≤ pred (rank t))%nat ∧
  articles d' = articles d ∧
  (∀ r, r ∈ article_analysis d → r ∈ article_analysis d').
Proof.
  intros Ha Hst Ht. destruct t as [| |c ad|r|e]; simpl.
  - destruct (getAnalysis d article_id) as [r|] eqn:Eg; intros [= <- <-].
    + split; [simpl; by apply getAnalysis_Some|]. split_and!; try done; simpl; lia.
    + split_and!; try done; simpl; lia.
  - apply getArticle_Some_iff in Ha as [a ->].
    unfold storable in Hst.
    destruct (classify_with_fallback _ _ _) as [[c ad]|k]; [|done].
    intros [= <- <-]. split; [|split_and!; try done; simpl; lia]. simpl.
    destruct Hst as (Hc & Hp & Hm). by apply fits_normalize.
  - simpl in Ht. rewrite insert_analysis_row by done.
    case_decide as Hin.
    + destruct (getAnalysis d article_id) as [r|] eqn:Eg.
      * intros [= <- <-]. split; [simpl; by apply getAnalysis_Some|].
        split_and!; try done; simpl; lia.
      * apply getAnalysis_None in Eg. done.
    + rewrite decide_True by done.
      set (row := stored_row _ now article_id c ad).
      pose proof (getAnalysis_with_analysis d row) as Hg.
      change (an_article_id row) with article_id in Hg.
      rewrite Hg by (by apply getAnalysis_None).
      intros [= <- <-]. split; [|split_and!; try done; try (simpl; lia)].
      * simpl. split; [|done]. apply elem_of_app. right. apply list_elem_of_here.
      * intros r Hr. simpl. apply elem_of_app. by left.
  - intros [= <- <-]. split_and!; try done; simpl; lia.
  - done.
Qed.

Lemma on_track_mono d d' t :
  (∀ r, r ∈ article_analysis d → r ∈ article_analysis d') →
  on_track article_id d t → on_track article_id d' t.
Proof. intros Hm. destruct t; simpl; try done. intros [? ?]. auto. Qed.

Lemma turns_snoc i sched e :
  turns i (sched ++ [e]) =
  (turns i sched + if decide (ev_caller e = i) then 1 else 0)%nat.
Proof.
  unfold turns. rewrite filter_app, length_app. f_equal.
  rewrite filter_cons, filter_nil. by case_decide.
Qed.

(** Where every caller stands after a schedule whose answers are all
    storable. *)
Lemma run_schedule_on_track d n sched :
  article_id ∈ (a_id <$> articles d) →
  (∀ e, e ∈ sched → storable primary fallback (ev_answers e)) →
  let s := run_schedule d n sched in
  articles s.1 = articles d ∧ length s.2 = n ∧
  (∀ i t, s.2 !! i = Some t →
     on_track article_id s.1 t ∧ (rank t ≤ 3 - turns i sched)%nat).
Proof.
  intros Ha. unfold Pipeline.run_schedule.
  induction sched as [|e sched IH] using rev_ind; intros Hst.
  - simpl. split_and!; [done|by rewrite length_replicate|].
    intros i t [-> _]%lookup_replicate. simpl. split; [done|lia].
  - rewrite foldl_app. simpl.
    destruct IH as (Hart & Hlen & Hts).
    { intros e0 He0. apply Hst. apply elem_of_app. by left. }
    set (s := foldl schedule_step (d, replicate n Unanalyzed) sched) in *.
    unfold Pipeline.schedule_step.
    destruct (s.2 !! ev_caller e) as [t|] eqn:Et.
    + destruct (analyze_step (ev_answers e) (ev_now e) article_id t s.1)
        as [t' d'] eqn:E.
      destruct (Hts _ _ Et) as [Hon Hrk].
      apply analyze_step_progress in E as (Hon' & Hrk' & Hart' & Hmono);
        [|by rewrite Hart|apply Hst, elem_of_app; right; apply list_elem_of_here|done].
      simpl. split_and!; [congruence|by rewrite length_insert|].
      intros i t0 Hi. rewrite turns_snoc.
      destruct (decide (ev_caller e = i)) as [<-|Hne].
      * rewrite list_lookup_insert_eq in Hi by (by eapply lookup_lt_Some).
        injection Hi as <-. split; [done|lia].
      * rewrite list_lookup_insert_ne in Hi by done.
        destruct (Hts _ _ Hi) as [Hon0 Hrk0]. split; [|lia].
        by eapply on_track_mono.
    + split_and!; [done|done|].
      intros i t0 Hi. rewrite turns_snoc. destruct (Hts _ _ Hi) as [Hon0 Hrk0].
      split; [done|]. case_decide as Hc; [|lia].
      subst i. congruence.
Qed.

(** C1: with the uniqueness constraint holding at the start, however
    many callers run [analyze] on one article and however their steps
    interleave, no article ever has more than one analysis row, and
    neither has any in a database the pipeline has worked on.  When
    the article exists, the providers answer with something storable
    and every caller gets to finish, there is exactly one row, and every
    caller ends with that same row.  A call on an article that already
    has its row returns it and changes nothing. *)
Theorem analyze_at_most_once (d : db) (n : nat) (sched : list event) :
  analysis_unique d →
  let s := run_schedule d n sched in
  (∀ id, (length (analyses_of s.1 id) ≤ 1)%nat) ∧
  (∀ relevance top_k cap threshold known_feeds history id,
     (length (analyses_of
                (after primary fallback relevance top_k cap threshold
                   known_feeds history) id) ≤ 1)%nat) ∧
  (is_Some (getArticle d article_id) → (0 < n)%nat →
   (∀ e, e ∈ sched → storable primary fallback (ev_answers e)) →
   (∀ i, (i < n)%nat → (3 ≤ turns i sched)%nat) →
   ∃ r, analyses_of s.1 article_id = [r] ∧ s.2 = replicate n (Analyzed r)) ∧
  (∀ r ans now, getAnalysis d article_id = Some r →
     analyze primary fallback ans now article_id d = (Analyzed r, d)).
Proof.
  intros Hu s. split_and!.
  - intros id. apply NoDup_fmap_filter_le. by apply run_schedule_unique.
  - intros relevance top_k cap threshold known_feeds history id.
    apply NoDup_fmap_filter_le. apply after_invariants.
  - intros Ha%getArticle_Some_iff Hn Hst Hturns.
    destruct (run_schedule_on_track d n sched Ha Hst) as (Hart & Hlen & Hts).
    fold s in Hart, Hlen, Hts.
    assert (∀ i, (i < n)%nat →
              ∃ r, s.2 !! i = Some (Analyzed r) ∧
                   r ∈ article_analysis s.1 ∧ an_article_id r = article_id)
      as Hdone.
    { intros i Hi. destruct (lookup_lt_is_Some_2 s.2 i) as [t Ht]; [lia|].
      destruct (Hts i t Ht) as [Hon Hrk]. specialize (Hturns i Hi).
      destruct t as [| |c ad|r|e]; simpl in Hrk, Hon; try lia; try done.
      by exists r. }
    destruct (Hdone 0%nat Hn) as (r0 & _ & Hr0 & Hid0).
    assert (analyses_of s.1 article_id = [r0]) as Hone.
    { unfold analyses_of. rewrite <- Hid0.
      apply NoDup_fmap_filter; [|done]. by apply run_schedule_unique. }
    exists r0. split; [done|].
    apply list_eq. intros i. destruct (decide (i < n)%nat) as [Hi|Hi].
    + destruct (Hdone i Hi) as (r & Hi' & Hr & Hid).
      rewrite Hi'. rewrite (lookup_replicate_2 n (Analyzed r0) i Hi).
      do 2 f_equal.
      assert (r ∈ analyses_of s.1 article_id) as Hin.
      { unfold analyses_of. by apply list_elem_of_filter. }
      rewrite Hone in Hin. by apply list_elem_of_singleton in Hin.
    + rewrite lookup_ge_None_2 by lia.
      symmetry. apply lookup_ge_None_2. rewrite length_replicate. lia.
  - intros r ans now Hr. unfold analyze; simpl. by rewrite Hr.
Qed.

End ConcurrencyProps.

Lemma analyze_at_most_once_witness :
  let s := run_schedule Examples.ollama Examples.claude 1%N
             Examples.one_article 3 Examples.round_robin in
  analysis_unique Examples.one_article ∧
  ∃ r, analyses_of s.1 1%N = [r] ∧ s.2 = replicate 3 (Analyzed r).
Proof.
  intros s.
  assert (analysis_unique Examples.one_article) as Hu.
  { vm_compute. constructor. }
  split; [exact Hu|].
  refine (proj1 (proj2 (proj2 (analyze_at_most_once Examples.ollama Examples.claude
                                 1%N Examples.one_article 3 Examples.round_robin Hu)))
            _ _ _ _).
  - vm_compute. eexists. reflexivity.
  - lia.
  - apply Forall_forall. unfold Examples.round_robin. simpl.
    repeat constructor; simpl; lia.
  - intros i Hi. destruct i as [|[|[|i]]]; [vm_compute; lia..|lia].
Defined.

End PipelineProps.

(** ** More on the hook and the feed page *)

Module FeedPageProps.
Import JS UseArticles FeedPage Examples FeedExamples.

Lemma num_or_nonzero (n : option Z) (d : Z) : d ≠ 0 → num_or n d ≠ 0.
Proof.
  intros Hd. unfold num_or. destruct n as [n|]; [|done].
  destruct (n =? 0) eqn:E; [done|]. by apply Z.eqb_neq.
Qed.

Lemma fetchArticles_fulfilled (api : request → listing_settlement)
    (filters : FetchFilters) (s : HookState) (l : listing) :
  api (fetchArticles_request filters) = ListingFulfilled l →
  let s' := run (fetchArticles api filters) s in
  loading s' = false ∧
  articles s' = response_articles (as_response l) ∧
  page (pagination s') = num_or (listing_page l) (num_or (f_page filters) 1) ∧
  hasMore (pagination s') = bool_or_false (response_has_more (as_response l)).
Proof. intros H s'. subst s'. unfold fetchArticles. by rewrite H. Qed.

(** X1: [fetchArticles] issues one request.  Answered, it puts the
    answer's articles in place of whatever the list held, clears the
    error, ends with [loading] off and a page number and page size
    that are never 0.  Rejected, it leaves list and paging alone,
    records the message, ends with [loading] off and throws. *)
Theorem fetchArticles_replaces (api : request → listing_settlement)
    (filters : FetchFilters) (s : HookState) :
  let c := fetchArticles api filters in
  let s' := run c s in
  issued c = [fetchArticles_request filters] ∧
  loading s' = false ∧
  (∀ l, api (fetchArticles_request filters) = ListingFulfilled l →
     articles s' = response_articles (as_response l) ∧
     error s' = None ∧
     page (pagination s') = num_or (listing_page l) (num_or (f_page filters) 1) ∧
     page (pagination s') ≠ 0 ∧ perPage (pagination s') ≠ 0 ∧
     hasMore (pagination s') = bool_or_false (response_has_more (as_response l))) ∧
  (∀ message, api (fetchArticles_request filters) = ListingRejected message →
     articles s' = articles s ∧ pagination s' = pagination s ∧
     error s' = Some message ∧ ends c = Throws message).
Proof.
  intros c s'. subst c s'. unfold fetchArticles.
  destruct (api (fetchArticles_request filters)) as [l|m]; simpl.
  - split_and!; try done.
    intros l' [= <-]. split_and!; try done; by repeat apply num_or_nonzero.
  - split_and!; try done. by intros m' [= <-].
Qed.

Lemma fetchArticles_replaces_witness :
  articles (run (fetchArticles two_pages first_tab) shown) = two_articles ∧
  error (run (fetchArticles (λ _, ListingRejected "offline") first_tab) shown)
    = Some "offline".
Proof.
  split.
  - destruct (fetchArticles_replaces two_pages first_tab shown) as (_ & _ & H & _).
    apply (H first_page). reflexivity.
  - destruct (fetchArticles_replaces (λ _, ListingRejected "offline") first_tab shown)
      as (_ & _ & _ & H).
    apply (H "offline"). reflexivity.
Defined.

(** X2: a first page fetched and a second page loaded from the render
    that followed: the second request asks for the page after the
    first and for the first's page size, and the list ends up as the
    first page followed by the second, on the next page number. *)
Theorem fetchArticles_then_loadMore (api : request → listing_settlement)
    (filters : FetchFilters) (more : Filters) (s : HookState)
    (first second : listing) :
  let s1 := run (fetchArticles api filters) s in
  let c := loadMore (as_api api) s1 more in
  api (fetchArticles_request filters) = ListingFulfilled first →
  response_has_more (as_response first) = Some true →
  api (loadMore_request s1 more) = ListingFulfilled second →
  issued c = [loadMore_request s1 more] ∧
  ("page", VNum (page (pagination s1) + 1)) ∈ request_params (loadMore_request s1 more) ∧
  ("per_page", VNum (perPage (pagination s1))) ∈ request_params (loadMore_request s1 more) ∧
  articles (run c s1) =
    response_articles (as_response first) ++ response_articles (as_response second) ∧
  page (pagination (run c s1)) =
    num_or (listing_page first) (num_or (f_page filters) 1) + 1 ∧
  loading (run c s1) = false.
Proof.
  intros s1 c H1 Hmore H2.
  destruct (fetchArticles_fulfilled api filters s first H1) as (Hl & Ha & Hp & Hh).
  fold s1 in Hl, Ha, Hp, Hh.
  rewrite Hmore in Hh. simpl in Hh.
  subst c. unfold loadMore. rewrite Hl, Hh. simpl.
  unfold as_api. rewrite H2. simpl. rewrite Ha, Hp.
  split_and!; try done.
  - simpl. rewrite !elem_of_app. right; right. rewrite <- Hp. apply list_elem_of_here.
  - simpl. rewrite !elem_of_app. right; right.
    apply list_elem_of_further, list_elem_of_here.
Qed.

Lemma fetchArticles_then_loadMore_witness :
  let s1 := run (fetchArticles two_pages first_tab) initialState in
  articles (run (loadMore (as_api two_pages) s1 (filtersFor "tech")) s1)
    = two_articles ++ [third_article] ∧
  page (pagination (run (loadMore (as_api two_pages) s1 (filtersFor "tech")) s1)) = 2.
Proof.
  destruct (fetchArticles_then_loadMore two_pages first_tab (filtersFor "tech")
              initialState first_page second_page eq_refl eq_refl eq_refl)
    as (_ & _ & _ & Ha & Hp & _).
  split; [exact Ha | exact Hp].
Defined.

(** X3: a rejected [PATCH] changes nothing but the error: the list, the
    paging and [loading] stay as they are, the message is recorded and
    the call throws.  The list moves only once the server has agreed. *)
Theorem patch_failure_leaves_list (api : request → settlement)
    (rendered live : HookState) (articleId isRead : value) (m1 m2 : string) :
  api (Patch "/articles/" articleId [("is_read", isRead_arg isRead)]) = Rejected m1 →
  api (Patch "/articles/" articleId
         [("is_saved", VBool (newSavedState rendered articleId))]) = Rejected m2 →
  let c1 := markRead api articleId isRead in
  let c2 := toggleSave api rendered articleId in
  (articles (run c1 live) = articles live ∧ pagination (run c1 live) = pagination live ∧
   loading (run c1 live) = loading live ∧ error (run c1 live) = Some m1 ∧
   ends c1 = Throws m1) ∧
  (articles (run c2 live) = articles live ∧ pagination (run c2 live) = pagination live ∧
   loading (run c2 live) = loading live ∧ error (run c2 live) = Some m2 ∧
   ends c2 = Throws m2).
Proof.
  intros H1 H2 c1 c2. subst c1 c2. unfold markRead, toggleSave. by rewrite H1, H2.
Qed.

Lemma get_spread_set_ne (a : obj) (k k' : string) (v : value) :
  k ≠ k' → get (spread_set a k v) k' = get a k'.
Proof. intros Hne. unfold get, spread_set. by rewrite lookup_insert_ne. Qed.

Lemma get_spread_set_eq (a : obj) (k : string) (v : value) :
  get (spread_set a k v) k = v.
Proof. unfold get, spread_set. by rewrite lookup_insert_eq. Qed.

(** An updater of either callback: set [flag] to [v] where the id is
    [articleId]. *)
Lemma markRead_updater_fmap articleId v :
  markRead_updater articleId v =
  fmap (λ a, if strict_eq (get a "id") articleId then spread_set a "is_read" v else a).
Proof. done. Qed.

Lemma toggleSave_updater_fmap articleId b :
  toggleSave_updater articleId b =
  fmap (λ a, if strict_eq (get a "id") articleId
             then spread_set a "is_saved" (VBool b) else a).
Proof. done. Qed.

Lemma patch_failure_leaves_list_witness :
  articles (run (markRead offline (VStr "a1") VUndefined) shown) = two_articles ∧
  ends (toggleSave offline shown (VStr "a1")) = Throws "offline".
Proof.
  destruct (patch_failure_leaves_list offline shown shown (VStr "a1") VUndefined
              "offline" "offline" eq_refl eq_refl)
    as ((Ha & _) & (_ & _ & _ & _ & He)).
  split; [exact Ha | exact He].
Defined.

Lemma markRead_updater_last (a v v' : value) (l : list obj) :
  markRead_updater a v' (markRead_updater a v l) = markRead_updater a v' l.
Proof.
  rewrite !markRead_updater_fmap, <- list_fmap_compose.
  apply list_fmap_ext. intros i x _. simpl. unfold strict_eq.
  destruct (bool_decide (get x "id" = a)) eqn:E; [|by rewrite E].
  rewrite get_spread_set_ne, E by done.
  unfold spread_set. by rewrite insert_insert_eq.
Qed.

(** X4: how the list updaters compose.  Marking the same article twice
    leaves what the second call says (so repeating a call changes
    nothing more); marking read and saving commute, on the same article
    or on different ones. *)
Theorem updaters_compose (a b : value) (v1 v2 : value) (w : bool) (l : list obj) :
  markRead_updater a v2 (markRead_updater a v1 l) = markRead_updater a v2 l ∧
  markRead_updater a v1 (markRead_updater a v1 l) = markRead_updater a v1 l ∧
  markRead_updater a v1 (toggleSave_updater b w l) =
    toggleSave_updater b w (markRead_updater a v1 l) ∧
  (a ≠ b →
   markRead_updater a v1 (markRead_updater b v2 l) =
     markRead_updater b v2 (markRead_updater a v1 l)).
Proof.
  split_and!; [apply markRead_updater_last|apply markRead_updater_last| |].
  - rewrite markRead_updater_fmap, toggleSave_updater_fmap, <- !list_fmap_compose.
    apply list_fmap_ext. intros i x _. simpl. unfold strict_eq.
    destruct (bool_decide (get x "id" = a)) eqn:Ea,
             (bool_decide (get x "id" = b)) eqn:Eb;
      rewrite ?get_spread_set_ne, ?Ea, ?Eb by done; try done.
    unfold spread_set. by rewrite insert_insert_ne.
  - intros Hab. rewrite !markRead_updater_fmap, <- !list_fmap_compose.
    apply list_fmap_ext. intros i x _. simpl. unfold strict_eq.
    destruct (bool_decide (get x "id" = a)) eqn:Ea,
             (bool_decide (get x "id" = b)) eqn:Eb;
      rewrite ?get_spread_set_ne, ?Ea, ?Eb by done; try done.
    apply bool_decide_eq_true in Ea, Eb. congruence.
Qed.

Lemma updaters_compose_witness :
  markRead_updater (VStr "a1") (VBool true)
    (markRead_updater (VStr "a2") (VBool false) two_articles) =
  markRead_updater (VStr "a2") (VBool false)
    (markRead_updater (VStr "a1") (VBool true) two_articles).
Proof.
  apply (updaters_compose (VStr "a1") (VStr "a2") (VBool true) (VBool false) true
           two_articles).
  discriminate.
Defined.

Lemma find_fmap_flag (articleId : value) (flag : string) (v : value) (l : list obj) :
  flag ≠ "id" →
  List.find (λ a, strict_eq (get a "id") articleId)
    ((λ a, if strict_eq (get a "id") articleId then spread_set a flag v else a) <$> l) =
  (λ a, spread_set a flag v) <$> List.find (λ a, strict_eq (get a "id") articleId) l.
Proof.
  intros Hf. induction l as [|x l IH]; [done|]. simpl.
  destruct (strict_eq (get x "id") articleId) eqn:E.
  - by rewrite get_spread_set_ne, E.
  - by rewrite E.
Qed.

(** X5: [toggleSave] away from the easy case.  For an id the list does
    not hold it asks the server to save ([is_saved: true]) and, agreed
    or not, the list stays as it is.  For an id the list holds, the
    next toggle made from the re-rendered list sends the opposite
    value: two toggles in a row cancel out. *)
Theorem toggleSave_edges (api : request → settlement) (s : HookState)
    (articleId : value) (r : response) :
  api (Patch "/articles/" articleId
         [("is_saved", VBool (newSavedState s articleId))]) = Fulfilled r →
  let s' := run (toggleSave api s articleId) s in
  ((∀ a, a ∈ articles s → get a "id" ≠ articleId) →
     newSavedState s articleId = true ∧ articles s' = articles s) ∧
  ((∃ a, a ∈ articles s ∧ get a "id" = articleId) →
     newSavedState s' articleId = negb (newSavedState s articleId)).
Proof.
  intros Hok s'. subst s'. unfold toggleSave. rewrite Hok. simpl. split.
  - intros Hnone. split.
    + unfold newSavedState. destruct (List.find _ _) as [a|] eqn:E; [|done].
      apply find_some in E as [Hin Hid]. apply list_elem_of_In in Hin.
      apply bool_decide_eq_true in Hid. by destruct (Hnone a Hin).
    + unfold toggleSave_updater. rewrite <- (list_fmap_id (articles s)) at 2.
      apply list_fmap_ext. intros i a Hi. simpl. unfold strict_eq.
      rewrite bool_decide_false; [done|].
      apply Hnone. by eapply list_elem_of_lookup_2.
  - intros (a & Hin & Hid). unfold newSavedState at 1. simpl.
    unfold toggleSave_updater. rewrite find_fmap_flag by done.
    destruct (List.find _ (articles s)) as [x|] eqn:E; simpl.
    + by rewrite get_spread_set_eq.
    + pose proof (find_none _ _ E a) as Hn.
      rewrite <- list_elem_of_In in Hn. specialize (Hn Hin).
      apply bool_decide_eq_false in Hn. done.
Qed.

Lemma toggleSave_edges_witness :
  newSavedState (run (toggleSave one_more shown (VStr "a2")) shown) (VStr "a2") = true ∧
  articles (run (toggleSave one_more shown (VStr "a9")) shown) = two_articles.
Proof.
  split.
  - apply (toggleSave_edges one_more shown (VStr "a2")
             (RObject [third_article] (Some 2) (Some 3) (Some false)) eq_refl).
    exists (two_articles_second). split; [|reflexivity].
    apply list_elem_of_further, list_elem_of_here.
  - apply (toggleSave_edges one_more shown (VStr "a9")
             (RObject [third_article] (Some 2) (Some 3) (Some false)) eq_refl).
    intros a Ha. apply list_elem_of_In in Ha. simpl in Ha.
    destruct Ha as [<-|[<-|[]]]; vm_compute; discriminate.
Defined.

(** X6: from the tab to the request.  After a tab is chosen the active
    topic is its slug ("all" for the empty one).  What [loadMore] then
    asks for is what the fetching effect asks for, with the paging
    added; a [topic] parameter is only ever a slug other than "all"
    and "saved", a [saved] parameter only goes with the "saved" tab,
    and the two never go together. *)
Theorem tab_to_request (slug : string) (rendered : HookState) :
  let active := activeTopic (handleTopicChange slug) in
  let params := request_params (loadMore_request rendered (filtersFor active)) in
  active = (if bool_decide (slug = "") then "all" else slug) ∧
  params =
    request_params (fetchArticles_request (fetchFiltersFor active)) ++
    [("page", VNum (page (pagination rendered) + 1));
     ("per_page", VNum (perPage (pagination rendered)))] ∧
  (∀ v, ("topic", v) ∈ params →
        v = VStr slug ∧ slug ≠ "" ∧ slug ≠ "all" ∧ slug ≠ "saved") ∧
  (∀ v, ("saved", v) ∈ params → v = VStr "true" ∧ slug = "saved") ∧
  (slug = "saved" → ("saved", VStr "true") ∈ params) ∧
  (slug ≠ "" → slug ≠ "all" → slug ≠ "saved" → ("topic", VStr slug) ∈ params).
Proof.
  intros active params.
  assert (active = (if bool_decide (slug = "") then "all" else slug)) as Hact.
  { subst active. unfold handleTopicChange, activeTopic.
    case_bool_decide as Hall; [subst slug; done|]. simpl.
    destruct (String.eqb_spec slug ""); by repeat case_bool_decide. }
  assert (params =
          (if bool_decide (slug ≠ "" ∧ slug ≠ "all" ∧ slug ≠ "saved")
           then [("topic", VStr slug)] else []) ++
          (if bool_decide (slug = "saved") then [("saved", VStr "true")] else []) ++
          [("page", VNum (page (pagination rendered) + 1));
           ("per_page", VNum (perPage (pagination rendered)))]) as Hparams.
  { subst params. rewrite Hact. unfold loadMore_request, filtersFor; simpl.
    destruct (String.eqb_spec slug "") as [->|Hne]; [done|].
    rewrite (bool_decide_false (slug = "")) by done.
    assert (String.eqb slug "" = false) as Hs by (by apply String.eqb_neq).
    simpl. rewrite Hs. simpl.
    destruct (decide (slug = "all")) as [->|Hall]; [done|].
    destruct (decide (slug = "saved")) as [->|Hsaved]; [done|].
    rewrite !(bool_decide_false (slug = _)) by done. simpl. rewrite Hs. simpl.
    by rewrite bool_decide_true. }
  split_and!.
  - done.
  - rewrite Hparams. subst params. rewrite Hact.
    unfold fetchArticles_request, fetchFiltersFor, filtersFor; simpl.
    destruct (String.eqb_spec slug "") as [->|Hne]; [done|].
    rewrite (bool_decide_false (slug = "")) by done.
    assert (String.eqb slug "" = false) as Hs by (by apply String.eqb_neq).
    simpl. rewrite Hs. simpl.
    destruct (decide (slug = "all")) as [->|Hall]; [done|].
    destruct (decide (slug = "saved")) as [->|Hsaved]; [done|].
    rewrite !(bool_decide_false (slug = _)) by done. simpl. rewrite Hs. simpl.
    by rewrite bool_decide_true.
  - intros v. rewrite Hparams.
    case_bool_decide as Ht; case_bool_decide as Hs; simpl;
      rewrite ?elem_of_cons, ?elem_of_nil; intros Hv;
      repeat (destruct Hv as [Hv|Hv]; try done).
    + injection Hv as <-. by destruct Ht as (? & ? & ?).
    + injection Hv as <-. by destruct Ht as (? & ? & ?).
  - intros v. rewrite Hparams.
    case_bool_decide as Ht; case_bool_decide as Hs; simpl;
      rewrite ?elem_of_cons, ?elem_of_nil; intros Hv;
      repeat (destruct Hv as [Hv|Hv]; try done).
    + by injection Hv as <-.
    + by injection Hv as <-.
  - intros ->. rewrite Hparams. simpl. apply list_elem_of_here.
  - intros H1 H2 H3. rewrite Hparams. rewrite bool_decide_true by done.
    apply list_elem_of_here.
Qed.

Lemma tab_to_request_witness :
  ("saved", VStr "true") ∈
    request_params
      (loadMore_request shown (filtersFor (activeTopic (handleTopicChange "saved")))) ∧
  ("topic", VStr "tech") ∈
    request_params
      (loadMore_request shown (filtersFor (activeTopic (handleTopicChange "tech")))).
Proof.
  split.
  - apply (tab_to_request "saved" shown). reflexivity.
  - apply (tab_to_request "tech" shown); discriminate.
Defined.

(** X7: opening an unread article marks it read with one [PATCH]; once
    that is agreed, opening the article again from the list asks
    nothing of the server.  The preview keeps the article as it was
    when opened, so its read toggle, pressed then, sends [is_read:
    true] once more and the list stays as the first call left it. *)
Theorem select_marks_read_once (api : request → settlement) (live : HookState)
    (a : obj) (r : response) :
  a ∈ articles live →
  truthy (get a "is_read") = false →
  api (Patch "/articles/" (get a "id") [("is_read", VBool true)]) = Fulfilled r →
  let c := markRead api (get a "id") (VBool true) in
  let live' := run c live in
  handleArticleSelect api (Some a) = (Some a, Some c) ∧
  issued c = [Patch "/articles/" (get a "id") [("is_read", VBool true)]] ∧
  (∀ a', a' ∈ articles live' → get a' "id" = get a "id" →
         handleArticleSelect api (Some a') = (Some a', None)) ∧
  previewToggleRead api a = c ∧
  run (previewToggleRead api a) live' = live'.
Proof.
  intros Hin Hunread Hok c live'.
  assert (previewToggleRead api a = c) as Hprev.
  { unfold previewToggleRead. subst c.
    destruct (get a "is_read") eqn:E; simpl in *; by rewrite ?Hunread. }
  split_and!.
  - unfold handleArticleSelect. by rewrite Hunread.
  - subst c. unfold markRead. simpl. by rewrite Hok.
  - intros a' Hin' Hid. unfold handleArticleSelect.
    subst live' c. unfold markRead in Hin'. simpl in Hin'. rewrite Hok in Hin'.
    simpl in Hin'. unfold markRead_updater in Hin'.
    apply list_elem_of_fmap in Hin' as (x & -> & Hx).
    unfold strict_eq in *.
    destruct (bool_decide (get x "id" = get a "id")) eqn:Hxid.
    + by rewrite get_spread_set_eq.
    + apply bool_decide_eq_false in Hxid. by destruct Hxid.
  - done.
  - rewrite Hprev. subst live' c. unfold markRead. simpl. rewrite Hok.
    unfold run; simpl. destruct live as [arts ld er pg]; simpl. f_equal.
    apply markRead_updater_last.
Qed.

Lemma select_marks_read_once_witness :
  handleArticleSelect one_more (Some unread_article)
    = (Some unread_article, Some (markRead one_more (VStr "a1") (VBool true))) ∧
  run (previewToggleRead one_more unread_article)
      (run (markRead one_more (VStr "a1") (VBool true)) shown)
    = run (markRead one_more (VStr "a1") (VBool true)) shown.
Proof.
  destruct (select_marks_read_once one_more shown unread_article
              (RObject [third_article] (Some 2) (Some 3) (Some false)))
    as (H1 & _ & _ & _ & H5).
  - apply list_elem_of_here.
  - reflexivity.
  - reflexivity.
  - split; [exact H1 | exact H5].
Defined.

(** X8: the grid and its button against the hook's guard.  The empty
    state shows exactly when nothing is loading and the list is empty;
    the load-more area shows exactly when the list is not empty; the
    six skeletons of a first load and the three of a later one never
    show together.  The button is enabled exactly when [loadMore], made
    in the same render, goes to the server. *)
Theorem grid_and_button (api : request → settlement) (s : HookState)
    (filters : Filters) :
  (feedGrid s = EmptyState ↔ loading s = false ∧ articles s = []) ∧
  (∀ cards sk lm more, feedGrid s = Grid cards sk lm more →
     cards = length (articles s) ∧
     (lm = None ↔ articles s = []) ∧
     (sk = 6%nat ∧ more = 0%nat ∧ loading s = true ∧ articles s = [] ∨
      sk = 0%nat ∧ more = 3%nat ∧ loading s = true ∧ articles s ≠ [] ∨
      sk = 0%nat ∧ more = 0%nat ∧ loading s = false)) ∧
  ((∃ busy, LoadMoreButton (loading s) (hasMore (pagination s)) = Button false busy) ↔
   issued (loadMore api s filters) = [loadMore_request s filters]) ∧
  (LoadMoreButton (loading s) (hasMore (pagination s)) = AllCaughtUp ↔
   loading s = false ∧ hasMore (pagination s) = false).
Proof.
  unfold feedGrid, ArticleGrid, LoadMoreButton, loadMore.
  destruct s as [arts ld er [pg pp tt hm]]; simpl.
  split_and!.
  - destruct ld, arts as [|x arts]; simpl; split; (intros H; try done);
      try (by destruct H); done.
  - intros cards sk lm more.
    destruct ld, arts as [|x arts]; simpl; intros H; try done;
      injection H as <- <- <- <-; split_and!; try done; auto 6.
  - destruct ld, hm; simpl; split; try done; try (by intros [? ?]);
      try (by destruct (api _)); try (intros _; by eexists).
  - destruct ld, hm; simpl; split; try done; by intros [? ?].
Qed.

Lemma grid_and_button_witness :
  issued (loadMore one_more shown (filtersFor "tech"))
    = [loadMore_request shown (filtersFor "tech")] ∧
  feedGrid initialState = EmptyState.
Proof.
  destruct (grid_and_button one_more shown (filtersFor "tech")) as (_ & _ & Hb & _).
  destruct (grid_and_button one_more initialState (filtersFor "tech")) as (He & _).
  split.
  - apply Hb. exists false. reflexivity.
  - apply He. split; reflexivity.
Defined.

End FeedPageProps.

(** ** The useTopics hook and the way out of the onboarding page *)

Module UseTopicsProps.
Import JS UseTopics.


End UseTopicsProps.

Module OnboardingPageProps.
Import JS UseTopics Onboarding OnboardingPage.

Lemma str_or_nonempty (a b : string) : b ≠ "" → str_or a b ≠ "".
Proof.
  intros Hb. unfold str_or. simpl.
  destruct (String.eqb_spec a ""); simpl; done.
Qed.

(** X10: [handleContinue] does nothing at all on an empty selection.
    Otherwise it sends the selection in one [PUT] and ends with
    [isSubmitting] off; it navigates to ["/"] exactly when the request
    was answered, and leaves a message to show exactly when it was
    rejected, an empty message of the server being replaced.  Whenever
    the Continue button is enabled, one request goes out. *)
Theorem handleContinue_outcome (api : client) (rendered : PageState)
    (h : HookState) :
  let es := handleContinue api rendered in
  let ids := (λ id, TValue (VStr id)) <$> selectedTopics rendered in
  (selectedTopics rendered = [] → es = []) ∧
  (selectedTopics rendered ≠ [] →
     requests es = [Put "/user/topics" ids] ∧
     isSubmitting (page_after es rendered) = false ∧
     selectedTopics (page_after es rendered) = selectedTopics rendered ∧
     (∀ r, api_put api "/user/topics" ids = Fulfilled r →
        navigations es = [("/", true)] ∧
        OnboardingPage.error (page_after es rendered) = "" ∧
        userTopics (hook_after es h) = default ids (s_topics r)) ∧
     (∀ m, api_put api "/user/topics" ids = Rejected m →
        navigations es = [] ∧
        OnboardingPage.error (page_after es rendered) ≠ "" ∧
        (m ≠ "" → OnboardingPage.error (page_after es rendered) = m) ∧
        userTopics (hook_after es h) = userTopics h ∧
        UseTopics.error (hook_after es h) = Some m)) ∧
  (continueDisabled rendered = false → length (requests es) = 1%nat).
Proof.
  intros es ids. subst es ids. unfold handleContinue, continueDisabled.
  destruct rendered as [sel sub err]; simpl.
  destruct sel as [|x sel]; simpl; [done|].
  unfold updateUserTopics.
  destruct (api_put api "/user/topics" _) as [r|m] eqn:E; simpl.
  - split_and!; try done. intros _. split_and!; try done.
    intros r' [= <-]. done.
  - split_and!; try done. intros _. split_and!; try done.
    intros m' [= <-]. split_and!; try done.
    + by apply str_or_nonempty.
    + intros Hm. unfold str_or. simpl.
      destruct (String.eqb_spec m ""); done.
Qed.

Lemma handleContinue_outcome_witness :
  navigations (handleContinue PagesExamples.accepting PagesExamples.chosen) = [("/", true)] ∧
  OnboardingPage.error
    (page_after (handleContinue PagesExamples.refusing PagesExamples.chosen)
                PagesExamples.chosen)
    = "Failed to save topics. Please try again.".
Proof.
  destruct (handleContinue_outcome PagesExamples.accepting PagesExamples.chosen
              UseTopics.initialState) as (_ & Ha & _).
  destruct (handleContinue_outcome PagesExamples.refusing PagesExamples.chosen
              UseTopics.initialState) as (_ & Hr & _).
  split.
  - destruct (Ha ltac:(discriminate)) as (_ & _ & _ & Hok & _).
    apply (Hok {| s_topics := None |}). reflexivity.
  - reflexivity.
Defined.

Lemma handleContinue_requests (api : client) (rendered : PageState) :
  requests (handleContinue api rendered) =
  if bool_decide (length (selectedTopics rendered) = 0%nat) then []
  else [Put "/user/topics" ((λ id, TValue (VStr id)) <$> selectedTopics rendered)].
Proof.
  unfold handleContinue. case_bool_decide; [done|].
  unfold updateUserTopics. by destruct (api_put api "/user/topics" _).
Qed.

Lemma selectedAfter_NoDup (clicks : list string) : NoDup (selectedAfter clicks).
Proof.
  induction clicks as [|c clicks IH] using rev_ind; [constructor|].
  rewrite OnboardingProps.selectedAfter_snoc.
  by apply OnboardingProps.toggleTopic_NoDup.
Qed.

Lemma selectedAfter_odd (clicks : list string) (id : string) :
  id ∈ selectedAfter clicks ↔ Nat.odd (length (filter (λ c, c = id) clicks)) = true.
Proof.
  induction clicks as [|c clicks IH] using rev_ind.
  - simpl. split; [by intros ?%elem_of_nil|done].
  - rewrite OnboardingProps.selectedAfter_snoc, OnboardingProps.toggleTopic_elem.
    rewrite filter_app, length_app.
    destruct (decide (id = c)) as [->|Hne].
    + rewrite filter_cons_True by done. simpl.
      rewrite Nat.add_1_r, Nat.odd_succ, <- Nat.negb_odd.
      rewrite IH. destruct (Nat.odd _); simpl; split; try done; try tauto.
    + rewrite filter_cons_False by done. simpl. by rewrite Nat.add_0_r.
Qed.

(** X11: what the onboarding page submits after any series of clicks
    on the topic cards: one [PUT] at most, none when every card was
    clicked an even number of times; its body names no topic twice and
    names exactly the topics clicked an odd number of times. *)
Theorem continue_sends_the_odd_clicks (api : client) (clicks : list string)
    (sub : bool) (err : string) :
  let rendered := {| selectedTopics := selectedAfter clicks;
                     isSubmitting := sub; error := err |} in
  let es := handleContinue api rendered in
  (length (requests es) ≤ 1)%nat ∧
  (requests es = [] ↔ ∀ id, Nat.odd (length (filter (λ c, c = id) clicks)) = false) ∧
  (∀ path body, Put path body ∈ requests es →
     NoDup body ∧
     ∀ id, TValue (VStr id) ∈ body ↔ Nat.odd (length (filter (λ c, c = id) clicks)) = true).
Proof.
  intros rendered es.
  pose proof (handleContinue_requests api rendered) as Hreq. fold es in Hreq.
  simpl in Hreq. split_and!.
  - rewrite Hreq. case_bool_decide; simpl; lia.
  - rewrite Hreq. case_bool_decide as Hlen.
    + apply length_zero_iff_nil in Hlen. split; [|done]. intros _ id.
      apply not_true_is_false. rewrite <- selectedAfter_odd, Hlen.
      by intros ?%elem_of_nil.
    + split; [done|]. intros Hall. destruct Hlen.
      destruct (selectedAfter clicks) as [|x l] eqn:E; [done|].
      assert (x ∈ selectedAfter clicks) as Hx by (rewrite E; apply list_elem_of_here).
      apply selectedAfter_odd in Hx. by rewrite Hall in Hx.
  - intros path body. rewrite Hreq. case_bool_decide as Hlen; [by intros ?%elem_of_nil|].
    intros [= -> ->]%list_elem_of_singleton. split.
    + apply NoDup_fmap_2; [by intros ?? [=]|].
      apply selectedAfter_NoDup.
    + intros id. rewrite <- selectedAfter_odd.
      rewrite list_elem_of_fmap. split; [by intros (y & [= <-] & Hy)|].
      intros Hin. by exists id.
Qed.





End OnboardingPageProps.

(** ** Text and dates on the cards *)

Module TextProps.
Import Text.

Lemma trimStart_spec (s : jsstring) :
  ∃ pre, s = pre ++ trimStart s ∧ Forall (λ c, is_space c = true) pre.
Proof.
  induction s as [|c s (pre & Hs & Hpre)]; simpl.
  - by exists [].
  - destruct (is_space c) eqn:E.
    + exists (c :: pre). split; [simpl; by f_equal|by constructor].
    + by exists [].
Qed.

Lemma trimStart_head (s : jsstring) (c : N) :
  head (trimStart s) = Some c → is_space c = false.
Proof.
  induction s as [|x s IH]; simpl; [done|].
  destruct (is_space x) eqn:E; [done|]. simpl. by intros [= <-].
Qed.

Lemma trimStart_fixed (s : jsstring) :
  (∀ c, head s = Some c → is_space c = false) → trimStart s = s.
Proof.
  destruct s as [|x s]; simpl; [done|]. intros H. by rewrite (H x).
Qed.

Lemma trim_spec (s : jsstring) :
  ∃ pre post, s = pre ++ trim s ++ post ∧
              Forall (λ c, is_space c = true) pre ∧
              Forall (λ c, is_space c = true) post.
Proof.
  unfold trim, trimEnd.
  destruct (trimStart_spec s) as (pre & Hs & Hpre).
  destruct (trimStart_spec (reverse (trimStart s))) as (post & Hr & Hpost).
  exists pre, (reverse post). split_and!.
  - rewrite Hs at 1. f_equal. rewrite <- reverse_app, <- Hr. by rewrite reverse_involutive.
  - done.
  - by apply Forall_reverse.
Qed.

Lemma head_app_nonempty {A} (l k : list A) (x : A) :
  head l = Some x → head (l ++ k) = Some x.
Proof. by destruct l. Qed.

Lemma trim_head (s : jsstring) (c : N) :
  head (trim s) = Some c → is_space c = false.
Proof.
  unfold trim, trimEnd. intros Hc.
  destruct (trimStart_spec (reverse (trimStart s))) as (post & Hr & _).
  apply (trimStart_head s).
  rewrite <- (reverse_involutive (trimStart s)), Hr, reverse_app.
  by apply head_app_nonempty.
Qed.

Lemma trim_last (s : jsstring) (c : N) :
  last (trim s) = Some c → is_space c = false.
Proof.
  unfold trim, trimEnd. rewrite last_reverse.
  apply trimStart_head.
Qed.

Lemma trim_fixed (s : jsstring) :
  (∀ c, head s = Some c → is_space c = false) →
  (∀ c, last s = Some c → is_space c = false) →
  trim s = s.
Proof.
  intros Hh Hl. unfold trim, trimEnd. rewrite (trimStart_fixed s Hh).
  rewrite trimStart_fixed; [apply reverse_involutive|].
  intros c. rewrite head_reverse. apply Hl.
Qed.

Lemma trim_idemp (s : jsstring) : trim (trim s) = trim s.
Proof. apply trim_fixed; [apply trim_head|apply trim_last]. Qed.

End TextProps.

Module ComponentsProps.
Import Text Components.

Lemma strip_tags_sublist (in_tag : bool) (s : jsstring) :
  sublist (strip_tags in_tag s) s.
Proof.
  revert in_tag. induction s as [|c s IH]; intros in_tag; simpl; [constructor|].
  destruct in_tag.
  - destruct (c =? gt_sign)%N; by constructor.
  - destruct ((c =? lt_sign)%N && bool_decide (gt_sign ∈ s)); by constructor.
Qed.

Lemma strip_tags_no_tag (s : jsstring) (a b : jsstring) :
  strip_tags false s = a ++ lt_sign :: b → gt_sign ∉ b.
Proof.
  assert (∀ in_tag a b, strip_tags in_tag s = a ++ lt_sign :: b → gt_sign ∉ b) as H;
    [|by apply H].
  clear a b. induction s as [|c s IH]; intros in_tag a b; simpl.
  - by destruct a.
  - destruct in_tag.
    + destruct (c =? gt_sign)%N; apply IH.
    + destruct ((c =? lt_sign)%N && bool_decide (gt_sign ∈ s)) eqn:E; [apply IH|].
      destruct a as [|x a]; simpl; intros [= -> Hb].
      * rewrite N.eqb_refl in E. simpl in E. apply bool_decide_eq_false in E.
        intros Hin. apply E. rewrite <- Hb in Hin.
        by eapply elem_of_sublist; [|apply strip_tags_sublist].
      * by eapply IH.
Qed.

Lemma strip_tags_fixed (s : jsstring) :
  (∀ a b, s = a ++ lt_sign :: b → gt_sign ∉ b) → strip_tags false s = s.
Proof.
  induction s as [|c s IH]; intros Hno; simpl; [done|].
  destruct ((c =? lt_sign)%N && bool_decide (gt_sign ∈ s)) eqn:E.
  - apply andb_true_iff in E as [->%N.eqb_eq Hin%bool_decide_eq_true].
    by destruct (Hno [] s eq_refl).
  - f_equal. apply IH. intros a b ->. by apply (Hno (c :: a) b).
Qed.

(** X13: what [stripHtml] gives holds no tag any more, that is no [<]
    with a [>] somewhere behind it; it is made of code units of the
    argument, in their order; it neither starts nor ends with white
    space; stripping it again changes nothing.  A text without any
    [<] is only trimmed. *)
Theorem stripHtml_strips (html : option jsstring) :
  let out := stripHtml html in
  (∀ a b, out = a ++ lt_sign :: b → gt_sign ∉ b) ∧
  sublist out (default [] html) ∧
  (∀ c, head out = Some c ∨ last out = Some c → is_space c = false) ∧
  stripHtml (Some out) = out ∧
  (∀ s, html = Some s → lt_sign ∉ s → out = trim s).
Proof.
  intros out.
  assert (∀ a b, out = a ++ lt_sign :: b → gt_sign ∉ b) as Hno.
  { subst out. destruct html as [s|]; simpl; [|by intros [|??] ?].
    unfold blank. case_bool_decide; [by intros [|??] ?|].
    intros a b Hab.
    destruct (TextProps.trim_spec (strip_tags false s)) as (pre & post & Hs & _).
    rewrite Hab in Hs. intros Hin.
    apply (strip_tags_no_tag s (pre ++ a) (b ++ post)).
    - rewrite Hs. by rewrite <- !app_assoc.
    - apply elem_of_app. by left. }
  assert (∀ c, head out = Some c ∨ last out = Some c → is_space c = false) as Hends.
  { subst out. destruct html as [s|]; simpl; [|by intros c [|]].
    unfold blank. case_bool_decide; [by intros c [|]|].
    intros c [Hc|Hc]; [by eapply TextProps.trim_head|by eapply TextProps.trim_last]. }
  split_and!.
  - done.
  - subst out. destruct html as [s|]; simpl; [|constructor].
    unfold blank. case_bool_decide; [apply sublist_nil_l|].
    etrans; [|apply strip_tags_sublist].
    destruct (TextProps.trim_spec (strip_tags false s)) as (pre & post & Hs & _).
    rewrite Hs at 2. apply sublist_inserts_l, sublist_inserts_r. done.
  - done.
  - simpl. unfold blank. case_bool_decide as Hlen.
    + symmetry. by apply length_zero_iff_nil.
    + rewrite strip_tags_fixed by done. apply TextProps.trim_fixed; naive_solver.
  - intros s -> Hlt. subst out. simpl. unfold blank. case_bool_decide as Hlen.
    + apply length_zero_iff_nil in Hlen. by subst s.
    + rewrite strip_tags_fixed; [done|]. intros a b ->.
      destruct Hlt. apply elem_of_app. right. apply list_elem_of_here.
Qed.

(** X14: what the card shows against the elapsed milliseconds.  The
    six answers split the line in six ranges: under a minute (the
    future included) "Just now"; then whole minutes from 1 to 59,
    whole hours from 1 to 23, "Yesterday" from 24 to under 48 hours,
    whole days from 2 to 6, and the date from 7 days on. *)
Theorem formatRelativeTime_ranges (now then_ : Z) :
  let diff := now - then_ in
  match formatRelativeTime now then_ with
  | JustNow => diff < 60000
  | Minutes m => 1 ≤ m ≤ 59 ∧ 60000 * m ≤ diff < 60000 * (m + 1)
  | Hours h => 1 ≤ h ≤ 23 ∧ 3600000 * h ≤ diff < 3600000 * (h + 1)
  | Yesterday => 86400000 ≤ diff < 2 * 86400000
  | Days d => 2 ≤ d ≤ 6 ∧ 86400000 * d ≤ diff < 86400000 * (d + 1)
  | MonthDay t => t = then_ ∧ 7 * 86400000 ≤ diff
  end.
Proof.
  intros diff. unfold formatRelativeTime. fold diff.
  pose proof (Z.div_mod diff 1000 ltac:(done)) as H1.
  pose proof (Z.mod_pos_bound diff 1000 ltac:(done)) as B1.
  set (q1 := diff / 1000) in *.
  pose proof (Z.div_mod q1 60 ltac:(done)) as H2.
  pose proof (Z.mod_pos_bound q1 60 ltac:(done)) as B2.
  set (q2 := q1 / 60) in *.
  pose proof (Z.div_mod q2 60 ltac:(done)) as H3.
  pose proof (Z.mod_pos_bound q2 60 ltac:(done)) as B3.
  set (q3 := q2 / 60) in *.
  pose proof (Z.div_mod q3 24 ltac:(done)) as H4.
  pose proof (Z.mod_pos_bound q3 24 ltac:(done)) as B4.
  set (q4 := q3 / 24) in *.
  destruct (Z.ltb_spec q1 60); [lia|].
  destruct (Z.ltb_spec q2 60); [lia|].
  destruct (Z.ltb_spec q3 24); [lia|].
  destruct (Z.eqb_spec q4 1); [lia|].
  destruct (Z.ltb_spec q4 7); lia.
Qed.

(** X15: the card and the preview agree on yesterday.  The preview
    says "Yesterday at" exactly when the card says "Yesterday"; it
    shows the bare time of day exactly when the card shows "Just now",
    minutes or hours, and a date exactly when the card shows days or a
    date. *)
Theorem card_and_preview_agree (getFullYear : Z → Z) (now d : Z) :
  match formatRelativeTime now d, formatDate getFullYear now d with
  | (JustNow | Minutes _ | Hours _), TimeOfDay d' => d' = d
  | Yesterday, YesterdayAt d' => d' = d
  | (Days _ | MonthDay _), LongDate d' y =>
      d' = d ∧ (y = false ↔ getFullYear d = getFullYear now)
  | _, _ => False
  end.
Proof.
  unfold formatRelativeTime, formatDate.
  set (diff := now - d).
  pose proof (Z.div_mod diff 1000 ltac:(done)) as H1.
  pose proof (Z.mod_pos_bound diff 1000 ltac:(done)) as B1.
  set (q1 := diff / 1000) in *.
  pose proof (Z.div_mod q1 60 ltac:(done)) as H2.
  pose proof (Z.mod_pos_bound q1 60 ltac:(done)) as B2.
  set (q2 := q1 / 60) in *.
  pose proof (Z.div_mod q2 60 ltac:(done)) as H3.
  pose proof (Z.mod_pos_bound q2 60 ltac:(done)) as B3.
  set (q3 := q2 / 60) in *.
  pose proof (Z.div_mod q3 24 ltac:(done)) as H4.
  pose proof (Z.mod_pos_bound q3 24 ltac:(done)) as B4.
  set (q4 := q3 / 24) in *.
  change (1000 * 60 * 60) with 3600000.
  pose proof (Z.div_mod diff 3600000 ltac:(done)) as H5.
  pose proof (Z.mod_pos_bound diff 3600000 ltac:(done)) as B5.
  set (h := diff / 3600000) in *.
  assert (h = q3) as -> by lia.
  assert (∀ y : bool, y = false ↔ negb y = true) as Hy by (by intros []).
  destruct (Z.ltb_spec q1 60), (Z.ltb_spec q2 60), (Z.ltb_spec q3 24),
           (Z.eqb_spec q4 1), (Z.ltb_spec q4 7), (Z.ltb_spec q3 48);
    try lia; try done;
    (split; [done|]); rewrite Hy, negb_involutive; apply Z.eqb_eq.
Qed.

End ComponentsProps.

(** ** The settings page *)

Module SettingsPageProps.
Import JS Text UseTopics SettingsPage.

Section JSSetProps.
Context {A : Type} `{EqDecision A}.

Lemma set_add_NoDup (x : A) (s : list A) : NoDup s → NoDup (set_add x s).
Proof.
  intros Hs. unfold set_add, set_has. case_bool_decide as Hin; [done|].
  apply NoDup_app. split_and!; [done| |apply NoDup_singleton].
  by intros y Hy ->%list_elem_of_singleton.
Qed.

Lemma set_add_elem (x y : A) (s : list A) : y ∈ set_add x s ↔ y = x ∨ y ∈ s.
Proof.
  unfold set_add, set_has. case_bool_decide as Hin.
  - split; [by right|]. by intros [->|].
  - rewrite elem_of_app, list_elem_of_singleton. tauto.
Qed.

Lemma foldl_set_add (acc l : list A) :
  NoDup acc →
  NoDup (foldl (λ s x, set_add x s) acc l) ∧
  (∀ y, y ∈ foldl (λ s x, set_add x s) acc l ↔ y ∈ acc ∨ y ∈ l) ∧
  (NoDup (acc ++ l) → foldl (λ s x, set_add x s) acc l = acc ++ l).
Proof.
  revert acc. induction l as [|x l IH]; intros acc Hacc; simpl.
  - split_and!; [done| |by rewrite app_nil_r].
    intros y. rewrite elem_of_nil. tauto.
  - destruct (IH (set_add x acc) (set_add_NoDup x acc Hacc)) as (Hnd & Hel & Hfix).
    split_and!; [done| |].
    + intros y. rewrite Hel, set_add_elem, elem_of_cons. tauto.
    + intros Hall. assert (x ∉ acc) as Hx.
      { apply NoDup_app in Hall as (_ & Hdis & _). intros Hin.
        apply (Hdis x Hin). apply list_elem_of_here. }
      assert (set_add x acc = acc ++ [x]) as Hadd.
      { unfold set_add, set_has. by rewrite bool_decide_false. }
      rewrite Hadd in Hfix |- *.
      rewrite Hfix; by rewrite <- app_assoc.
Qed.

Lemma new_Set_NoDup (l : list A) : NoDup (new_Set l).
Proof. apply foldl_set_add. constructor. Qed.

Lemma new_Set_elem (l : list A) (y : A) : y ∈ new_Set l ↔ y ∈ l.
Proof.
  unfold new_Set. destruct (foldl_set_add [] l (NoDup_nil_2)) as (_ & Hel & _).
  rewrite Hel, elem_of_nil. tauto.
Qed.

Lemma new_Set_fixed (l : list A) : NoDup l → new_Set l = l.
Proof. intros Hl. by apply (foldl_set_add [] l NoDup_nil_2). Qed.

End JSSetProps.

Lemma settings_toggle_NoDup (topicId : string) (sel : list topic) :
  NoDup (toggleTopic topicId sel).
Proof.
  unfold toggleTopic. destruct (set_has _ _).
  - apply NoDup_filter, new_Set_NoDup.
  - apply set_add_NoDup, new_Set_NoDup.
Qed.

Lemma settings_toggle_elem (topicId : string) (sel : list topic) (x : topic) :
  x ∈ toggleTopic topicId sel ↔
  if decide (x = TValue (VStr topicId)) then x ∉ sel else x ∈ sel.
Proof.
  unfold toggleTopic, set_has. case_bool_decide as Hin.
  - unfold set_delete. rewrite list_elem_of_filter, new_Set_elem.
    rewrite new_Set_elem in Hin.
    destruct (decide (x = _)) as [->|Hne]; tauto.
  - rewrite set_add_elem, new_Set_elem. rewrite new_Set_elem in Hin.
    destruct (decide (x = _)) as [->|Hne]; tauto.
Qed.

(** X16: the selection of the settings page against that of the
    onboarding page.  Whatever the selection was made from, it holds
    no member twice, and a click on a topic flips that topic and no
    other.  On a selection of ids without repeats the click gives, id
    for id and in the same order, what [toggleTopic] of the onboarding
    page gives. *)
Theorem settings_toggle_agrees (topicId : string) (ids : list string)
    (sel : list topic) :
  NoDup ids →
  let key := λ id, TValue (VStr id) in
  toggleTopic topicId (key <$> ids) = key <$> Onboarding.toggleTopic topicId ids ∧
  NoDup (toggleTopic topicId sel) ∧
  (key topicId ∈ toggleTopic topicId sel ↔ key topicId ∉ sel) ∧
  (∀ x, x ≠ key topicId → x ∈ toggleTopic topicId sel ↔ x ∈ sel).
Proof.
  intros Hids key. split_and!.
  - assert (Inj (=) (=) key) as Hinj by (by intros ?? [=]).
    unfold toggleTopic, Onboarding.toggleTopic.
    rewrite new_Set_fixed by (by apply NoDup_fmap_2).
    unfold set_has.
    destruct (decide (topicId ∈ ids)) as [Hin|Hin].
    + rewrite !bool_decide_true; [|done|by apply (list_elem_of_fmap_2 key)].
      unfold set_delete. clear Hin Hids. induction ids as [|i ids IH]; [done|].
      rewrite fmap_cons. destruct (decide (i = topicId)) as [->|Hne].
      * rewrite !filter_cons_False by (by intros []). apply IH.
      * rewrite !filter_cons_True; [|done|by intros [=]].
        rewrite fmap_cons. by f_equal.
    + rewrite !bool_decide_false; [|done|].
      * unfold set_add, set_has. rewrite bool_decide_false.
        -- by rewrite fmap_app.
        -- by intros (y & [= <-] & Hy)%list_elem_of_fmap.
      * by intros (y & [= <-] & Hy)%list_elem_of_fmap.
  - apply settings_toggle_NoDup.
  - rewrite settings_toggle_elem. by rewrite decide_True.
  - intros x Hx. rewrite settings_toggle_elem. by rewrite decide_False.
Qed.

Lemma settings_toggle_agrees_witness :
  toggleTopic "tech" [TValue (VStr "tech"); TValue (VStr "ai")] = [TValue (VStr "ai")].
Proof.
  apply (settings_toggle_agrees "tech" ["tech"; "ai"] []).
  apply (bool_decide_unpack _). reflexivity.
Defined.

Lemma topic_key_fixed (t k : topic) : topic_key t = Some k → topic_key k = Some k.
Proof.
  destruct t as [o|v]; simpl.
  - intros [= <-]. destruct (truthy (get o "id")) eqn:E; simpl.
    + by destruct (get o "id").
    + by rewrite E.
  - destruct v; by intros [= <-].
Qed.

Lemma mapM_topic_key_fixed (l : list topic) :
  Forall (λ k, topic_key k = Some k) l → mapM topic_key l = Some l.
Proof.
  intros Hl. apply mapM_Some. induction Hl; by constructor.
Qed.

Lemma toggles_keys (s0 : list topic) (clicks : list string) :
  Forall (λ k, topic_key k = Some k) s0 →
  Forall (λ k, topic_key k = Some k)
         (foldl (λ s id, toggleTopic id s) s0 clicks).
Proof.
  revert s0. induction clicks as [|c clicks IH]; intros s0 Hs0; simpl; [done|].
  apply IH. apply Forall_forall. intros x Hx. apply settings_toggle_elem in Hx.
  destruct (decide (x = _)) as [->|Hne]; [done|].
  by eapply Forall_forall in Hs0.
Qed.

(** X17: saving the selection and getting it back, for topics that
    carry an id.  The selection made from [userTopics] and any clicks
    holds no member twice.  When
    the server accepts it and names no topics in its answer, the hook
    stores what was sent, and the selection the next render starts
    from is the one that was saved, order included; the changes are
    marked as saved.  When the server refuses, the hook's topics stay
    and the changes stay marked. *)
Theorem save_gives_selection_back (api : client) (userTopics0 s0 : list topic)
    (clicks : list string) (rendered : TopicSelectionState) (h : HookState) :
  Forall has_id userTopics0 →
  initialSelected userTopics0 = Some s0 →
  selected rendered = foldl (λ s id, toggleTopic id s) s0 clicks →
  let es := handleSave api rendered in
  NoDup (selected rendered) ∧
  isSaving (selection_after es rendered) = false ∧
  (∀ r, api_put api "/user/topics" (selected rendered) = Fulfilled r →
     s_topics r = None →
     initialSelected (userTopics (topics_after es h)) = Some (selected rendered) ∧
     hasChanges (selection_after es rendered) = false) ∧
  (∀ m, api_put api "/user/topics" (selected rendered) = Rejected m →
     userTopics (topics_after es h) = userTopics h ∧
     hasChanges (selection_after es rendered) = hasChanges rendered).
Proof.
  intros _ Hs0 Hsel es.
  assert (NoDup (selected rendered)) as Hnd.
  { rewrite Hsel. destruct clicks as [|c clicks _] using rev_ind.
    - simpl. unfold initialSelected in Hs0.
      destruct (mapM topic_key userTopics0); [|done].
      injection Hs0 as <-. apply new_Set_NoDup.
    - rewrite foldl_app. simpl. apply settings_toggle_NoDup. }
  assert (Forall (λ k, topic_key k = Some k) (selected rendered)) as Hkeys.
  { rewrite Hsel. apply toggles_keys. unfold initialSelected in Hs0.
    destruct (mapM topic_key userTopics0) as [ks|] eqn:E; [|done].
    injection Hs0 as <-. apply Forall_forall. intros k Hk.
    rewrite new_Set_elem in Hk. apply mapM_Some in E.
    apply list_elem_of_lookup in Hk as [i Hi].
    destruct (Forall2_lookup_r _ _ _ _ _ E Hi) as (t & _ & Ht).
    by eapply topic_key_fixed. }
  subst es. unfold handleSave, updateUserTopics.
  destruct rendered as [sel sav chg]; simpl in *.
  destruct (api_put api "/user/topics" sel) as [r|m]; simpl.
  - split_and!; try done. intros r' [= <-] Hr. split; [|done].
    unfold saved_topics. rewrite Hr. simpl.
    unfold initialSelected. rewrite mapM_topic_key_fixed by done. simpl.
    by rewrite new_Set_fixed.
  - split_and!; done.
Qed.

Lemma save_gives_selection_back_witness :
  initialSelected
    (userTopics (topics_after (handleSave PagesExamples.accepting PagesExamples.changed)
                              UseTopics.initialState))
  = Some [TValue (VStr "tech"); TValue (VStr "ai"); TValue (VStr "sports")].
Proof.
  destruct (save_gives_selection_back PagesExamples.accepting
              PagesExamples.stored_topics
              [TValue (VStr "tech"); TValue (VStr "ai")] ["sports"]
              PagesExamples.changed UseTopics.initialState) as (_ & _ & H & _).
  - repeat constructor.
  - reflexivity.
  - reflexivity.
  - apply (H {| s_topics := None |}); reflexivity.
Defined.

Lemma blank_trim (s : jsstring) :
  blank (trim s) = false → ∃ c, c ∈ s ∧ is_space c = false.
Proof.
  unfold blank. intros Hlen%bool_decide_eq_false.
  destruct (trim s) as [|c t] eqn:E; [done|]. exists c. split.
  - destruct (TextProps.trim_spec s) as (pre & post & Hs & _).
    rewrite Hs, E. apply elem_of_app. right. apply list_elem_of_here.
  - apply (TextProps.trim_head s). by rewrite E.
Qed.

(** X18: [handleAddFeed] sends nothing and changes nothing when the
    address is blank.  Otherwise it posts the address as typed, which
    then holds a code unit that is no white space.  Accepted, the new
    feed goes behind the feeds of the render, the input is emptied and
    no error is left; refused, the list and the input stay and a
    message is left, never an empty one.  Both ways [isAdding] ends
    off. *)
Theorem handleAddFeed_outcome (api : feeds_client) (rendered live : FeedsState) :
  let c := handleAddFeed api rendered in
  let s' := feeds_after c live in
  (blank (trim (newFeedUrl rendered)) = true → sent c = [] ∧ s' = live) ∧
  (addDisabled rendered = false →
     sent c = [PostFeed "/user/feeds" (newFeedUrl rendered)] ∧
     (∃ ch, ch ∈ newFeedUrl rendered ∧ is_space ch = false) ∧
     isAdding s' = false ∧
     (∀ r, post_feed api (newFeedUrl rendered) = Fulfilled r →
        feeds s' = feeds rendered ++ [posted_feed r] ∧
        newFeedUrl s' = [] ∧ error s' = "") ∧
     (∀ m, post_feed api (newFeedUrl rendered) = Rejected m →
        feeds s' = feeds live ∧ newFeedUrl s' = newFeedUrl live ∧ error s' ≠ "")).
Proof.
  intros c s'. subst c s'. unfold handleAddFeed, addDisabled. split.
  - by intros ->.
  - intros [_ Hb]%orb_false_iff. rewrite Hb.
    destruct (post_feed api (newFeedUrl rendered)) as [r|m]; simpl.
    + split_and!; try done; [by apply blank_trim|]. by intros r' [= <-].
    + split_and!; try done; [by apply blank_trim|]. intros m' [= <-].
      split_and!; try done. by apply OnboardingPageProps.str_or_nonempty.
Qed.

(** X19: the feed list is written from the render, not from what the
    list has become.  Of two removals made in the same render and both
    accepted, only the second shows in the end: the feed the first
    took out is back.  Made one render after the other they add up,
    in either order.  A refused removal changes nothing. *)
Theorem removals_from_one_render (api : feeds_client) (rendered live : FeedsState)
    (a b : value) :
  delete_feed api a = Fulfilled () →
  delete_feed api b = Fulfilled () →
  let ca := handleRemoveFeed api rendered a in
  let cb := handleRemoveFeed api rendered b in
  let both := feeds_after cb (feeds_after ca live) in
  feeds both = filter (λ f, get f "id" ≠ b) (feeds rendered) ∧
  (∀ f, f ∈ feeds rendered → get f "id" = a → a ≠ b → f ∈ feeds both) ∧
  (let r1 := feeds_after ca rendered in
   let r2 := feeds_after (handleRemoveFeed api r1 b) r1 in
   feeds r2 = filter (λ f, get f "id" ≠ a ∧ get f "id" ≠ b) (feeds rendered) ∧
   feeds r2 = feeds (let r1' := feeds_after cb rendered in
                     feeds_after (handleRemoveFeed api r1' a) r1')) ∧
  (∀ api' c m, delete_feed api' c = Rejected m →
     feeds_after (handleRemoveFeed api' rendered c) live = live).
Proof.
  intros Ha Hb ca cb both. subst ca cb both. unfold handleRemoveFeed.
  rewrite !Ha, !Hb. simpl. rewrite ?Ha, ?Hb. simpl. split_and!.
  - done.
  - intros f Hf Hid Hab. apply list_elem_of_filter. split; [congruence|done].
  - rewrite list_filter_filter. apply list_filter_iff. intros f. tauto.
  - rewrite !list_filter_filter. apply list_filter_iff. intros f. tauto.
  - intros api' c m Hc. by rewrite Hc.
Qed.

Lemma removals_from_one_render_witness :
  feeds (feeds_after (handleRemoveFeed PagesExamples.feeds_api PagesExamples.two_feeds (VNum 2))
          (feeds_after (handleRemoveFeed PagesExamples.feeds_api PagesExamples.two_feeds (VNum 1))
                       PagesExamples.two_feeds))
  = [ {[ "id" := VNum 1 ]} ].
Proof.
  apply (removals_from_one_render PagesExamples.feeds_api PagesExamples.two_feeds
           PagesExamples.two_feeds (VNum 1) (VNum 2)); reflexivity.
Defined.

(** X20: [handleChangePassword] posts only a new password that equals
    its confirmation and has 8 code units or more, and at most once.
    Afterwards either the success text or an error text is set, never
    both and never neither: success exactly when the request was made
    and accepted.  On success the three fields are emptied and the form
    closed; otherwise the fields stay as typed.  A confirmation that
    differs is reported before the length is looked at. *)
Theorem handleChangePassword_outcome (api : password_change → settlement unit)
    (rendered : AccountState) :
  let c := handleChangePassword api rendered in
  let s' := account_after c rendered in
  let body := {| current_password := currentPassword rendered;
                 new_password := newPassword rendered |} in
  (posts c = [body] ∨ posts c = []) ∧
  (posts c = [body] ↔
     newPassword rendered = confirmPassword rendered ∧
     (8 ≤ length (newPassword rendered))%nat) ∧
  (success s' ≠ "" ↔ posts c = [body] ∧ api body = Fulfilled ()) ∧
  (a_error s' = "" ↔ success s' ≠ "") ∧
  (success s' ≠ "" →
     showPasswordForm s' = false ∧ currentPassword s' = [] ∧
     newPassword s' = [] ∧ confirmPassword s' = []) ∧
  (a_error s' ≠ "" →
     showPasswordForm s' = showPasswordForm rendered ∧
     currentPassword s' = currentPassword rendered ∧
     newPassword s' = newPassword rendered ∧
     confirmPassword s' = confirmPassword rendered) ∧
  (posts c ≠ [] → isChanging s' = false) ∧
  (newPassword rendered ≠ confirmPassword rendered →
     a_error s' = "Passwords do not match").
Proof.
  intros c s' body. subst c s'. unfold handleChangePassword. fold body.
  case_bool_decide as Heq; simpl.
  - case_bool_decide as Hlen; simpl.
    + split_and!; try done; try (by right); try (split; [done|intros [_ ?]; lia]);
        try (by intros [? _]); split; [done|by intros [? ?]].
    + destruct (api body) as [[]|m] eqn:E; simpl.
      * split_and!; try done; try (by left);
          try (split; [intros _; split; [done|lia]|done]).
      * pose proof (OnboardingPageProps.str_or_nonempty m "Failed to change password"
                      ltac:(done)) as Hne.
        split_and!; try done; try (by left);
          try (split; [intros _; split; [done|lia]|done]);
          try (by intros [_ ?]); split; [done|by intros [? ?]].
  - split_and!; try done; try (by right); try (split; [done|by intros [? _]]);
      try (by intros [? _]).
Qed.

End SettingsPageProps.

(** ** Regular expressions, the session, the routes and the login page *)

Module RegexProps.
Import Text Regex.

Lemma Matches_Empty (s : jsstring) : ¬ Matches Empty s.
Proof. intros H. inversion H. Qed.

Lemma Matches_Eps (s : jsstring) : Matches Eps s ↔ s = [].
Proof. split; [intros H; by inversion H|intros ->; constructor]. Qed.

Lemma Matches_Class (p : N → bool) (s : jsstring) :
  Matches (Class p) s ↔ ∃ c, s = [c] ∧ p c = true.
Proof.
  split.
  - intros H. inversion H; subst. by eexists.
  - intros (c & -> & Hc). by constructor.
Qed.

Lemma Matches_Seq (r1 r2 : regex) (s : jsstring) :
  Matches (Seq r1 r2) s ↔ ∃ s1 s2, s = s1 ++ s2 ∧ Matches r1 s1 ∧ Matches r2 s2.
Proof.
  split.
  - intros H. inversion H; subst. by eexists _, _.
  - intros (s1 & s2 & -> & H1 & H2). by constructor.
Qed.

Lemma Matches_Alt (r1 r2 : regex) (s : jsstring) :
  Matches (Alt r1 r2) s ↔ Matches r1 s ∨ Matches r2 s.
Proof.
  split.
  - intros H. inversion H; subst; auto.
  - intros [H|H]; [by apply MAltL|by apply MAltR].
Qed.

Lemma Matches_Star_cons (r : regex) (c : N) (s : jsstring) :
  Matches (Star r) (c :: s) ↔
  ∃ s1 s2, s = s1 ++ s2 ∧ Matches r (c :: s1) ∧ Matches (Star r) s2.
Proof.
  split.
  - intros H. remember (Star r) as r' eqn:Er. remember (c :: s) as s' eqn:Es.
    revert Er Es. induction H as [| | | | | |r0 s1 s2 H1 _ H2 IH2]; try done.
    intros [= ->] Hs. destruct s1 as [|c' s1]; simpl in Hs.
    + by apply IH2.
    + injection Hs as -> <-. by eexists _, _.
  - intros (s1 & s2 & -> & H1 & H2).
    change (c :: s1 ++ s2) with ((c :: s1) ++ s2). by constructor.
Qed.

Lemma nullable_spec (r : regex) : nullable r = true ↔ Matches r [].
Proof.
  induction r as [| |p|r1 IH1 r2 IH2|r1 IH1 r2 IH2|r IH]; simpl.
  - split; [done|]. by intros ?%Matches_Empty.
  - split; [constructor|done].
  - split; [done|]. by intros (c & ? & _)%Matches_Class.
  - rewrite andb_true_iff, IH1, IH2, Matches_Seq. split.
    + intros [H1 H2]. by exists [], [].
    + intros (s1 & s2 & Hs & H1 & H2). symmetry in Hs.
      apply app_eq_nil in Hs as [-> ->]. done.
  - by rewrite orb_true_iff, IH1, IH2, Matches_Alt.
  - split; [constructor|done].
Qed.

Lemma deriv_spec (c : N) (r : regex) (s : jsstring) :
  Matches (deriv c r) s ↔ Matches r (c :: s).
Proof.
  revert s. induction r as [| |p|r1 IH1 r2 IH2|r1 IH1 r2 IH2|r IH]; intros s; simpl.
  - split; by intros ?%Matches_Empty.
  - split; [by intros ?%Matches_Empty|]. by intros ?%Matches_Eps.
  - rewrite Matches_Class. destruct (p c) eqn:E.
    + rewrite Matches_Eps. split; [intros ->; by exists c|].
      by intros (c' & [= <- ->] & _).
    + split; [by intros ?%Matches_Empty|]. intros (c' & [= <- ->] & ?). congruence.
  - assert (Matches (Seq (deriv c r1) r2) s ↔
            ∃ s1 s2, s = s1 ++ s2 ∧ Matches r1 (c :: s1) ∧ Matches r2 s2) as Hseq.
    { rewrite Matches_Seq. by setoid_rewrite IH1. }
    rewrite (Matches_Seq r1 r2 (c :: s)).
    destruct (nullable r1) eqn:E.
    + rewrite Matches_Alt, Hseq, IH2. apply nullable_spec in E. split.
      * intros [(s1 & s2 & -> & H1 & H2)|H2].
        -- by exists (c :: s1), s2.
        -- by exists [], (c :: s).
      * intros ([|c' s1] & s2 & Hs & H1 & H2); simpl in Hs.
        -- right. by subst s2.
        -- left. injection Hs as <- ->. by exists s1, s2.
    + rewrite Hseq. split.
      * intros (s1 & s2 & -> & H1 & H2). by exists (c :: s1), s2.
      * intros ([|c' s1] & s2 & Hs & H1 & H2); simpl in Hs.
        -- apply nullable_spec in H1. congruence.
        -- injection Hs as <- ->. by exists s1, s2.
  - by rewrite !Matches_Alt, IH1, IH2.
  - rewrite Matches_Star_cons, Matches_Seq. by setoid_rewrite IH.
Qed.

Lemma test_spec (r : regex) (s : jsstring) : test r s = true ↔ Matches r s.
Proof.
  unfold test. revert r. induction s as [|c s IH]; intros r; simpl.
  - apply nullable_spec.
  - by rewrite IH, deriv_spec.
Qed.

Lemma Matches_Star_Class (p : N → bool) (s : jsstring) :
  Matches (Star (Class p)) s ↔ Forall (λ c, p c = true) s.
Proof.
  induction s as [|c s IH].
  - split; constructor.
  - rewrite Matches_Star_cons, Forall_cons. split.
    + intros (s1 & s2 & -> & (c' & [= <- ->] & Hc)%Matches_Class & H2).
      split; [done|]. by apply IH.
    + intros [Hc Hs]. exists [], s. split_and!; [done|by constructor|by apply IH].
Qed.

Lemma Matches_Plus_Class (p : N → bool) (s : jsstring) :
  Matches (Plus (Class p)) s ↔ s ≠ [] ∧ Forall (λ c, p c = true) s.
Proof.
  unfold Plus. rewrite Matches_Seq. split.
  - intros (s1 & s2 & -> & (c & -> & Hc)%Matches_Class & H2%Matches_Star_Class).
    split; [done|]. by constructor.
  - intros [Hne Hall]. destruct s as [|c s]; [done|].
    apply Forall_cons in Hall as [Hc Hs].
    exists [c], s. split_and!; [done|by constructor|by apply Matches_Star_Class].
Qed.

Lemma Matches_Chr (c : N) (s : jsstring) : Matches (Chr c) s ↔ s = [c].
Proof.
  unfold Chr. rewrite Matches_Class. split.
  - by intros (c' & -> & ->%N.eqb_eq).
  - intros ->. exists c. split; [done|apply N.eqb_refl].
Qed.

End RegexProps.

Module AuthProps.
Import JS UseTopics Auth.

(** X21: the session the provider keeps.  Once [initAuth] has run the
    loading flag is off, and the user counts as signed in exactly when
    the client had kept a token and [GET /auth/me] gave a user; if that
    request fails the token is dropped, in the state and in the
    client.  A refused sign-in or registration leaves the session as
    it was and throws; an accepted one counts as signed in exactly
    when the answer carries a token and a user.  After [logout] nobody
    is signed in. *)
Theorem session_outcomes (storedToken : value) (me : settlement (option obj))
    (api : auth_request → settlement session) (req_email req_password : Text.jsstring)
    (s : AuthState) :
  let s0 := auth_after (initAuth storedToken me) (mounted storedToken) in
  let c := login api req_email req_password in
  let s1 := auth_after (auth_effects c) s in
  isLoading (mounted storedToken) = true ∧
  isLoading s0 = false ∧
  (isAuthenticated s0 = true ↔
     truthy storedToken = true ∧ ∃ u, me = Fulfilled (Some u)) ∧
  (∀ m, truthy storedToken = true → me = Rejected m →
     token s0 = VNull ∧ user s0 = None ∧ ClientClearToken ∈ initAuth storedToken me) ∧
  (∀ m, api (PostLogin req_email req_password) = Rejected m →
     s1 = s ∧ auth_ends c = Throws m) ∧
  (∀ r, api (PostLogin req_email req_password) = Fulfilled r →
     ClientSetToken (token s1) ∈ auth_effects c ∧
     (isAuthenticated s1 = true ↔ truthy (r_token r) = true ∧ is_Some (r_user r))) ∧
  isAuthenticated (auth_after logout s) = false ∧
  ClientClearToken ∈ logout.
Proof.
  intros s0 c s1. subst s0 c s1. unfold initAuth, login, signed_in, isAuthenticated.
  split_and!.
  - done.
  - destruct (truthy storedToken), me as [u|m]; done.
  - destruct (truthy storedToken) eqn:E, me as [u|m]; simpl; rewrite ?E; simpl.
    + rewrite bool_decide_eq_true. split.
      * intros [u' ->]. split; [done|]. by exists u'.
      * intros [_ (u' & [= ->])]. by eexists.
    + split; [done|]. by intros [_ (u' & ?)].
    + split; [done|by intros [? _]].
    + split; [done|by intros [? _]].
  - intros m -> ->. simpl. split_and!; try done.
    apply list_elem_of_further, list_elem_of_here.
  - intros m ->. simpl. by destruct s.
  - intros r ->. simpl. split; [apply list_elem_of_here|].
    by rewrite andb_true_iff, bool_decide_eq_true.
  - simpl. done.
  - apply list_elem_of_here.
Qed.

End AuthProps.

Module RoutesProps.
Import JS Auth Routes.

(** X22: where a visit ends.  While the session is loading no page is
    shown.  Afterwards at most two redirections lead to a page, from
    any location: the login page exactly when nobody is signed in; the
    onboarding page only at its own route, signed in and not yet
    onboarded; the settings page exactly at its route when signed in;
    the feed in every other case. *)
Theorem guards_settle (auth : AuthState) (here : location) (hops : nat) :
  (isLoading auth = true → ∀ p, settle hops auth here ≠ Page p) ∧
  (isLoading auth = false →
   ∃ p, settle 2 auth here = Page p ∧
        (p = LoginPage ↔ isAuthenticated auth = false) ∧
        (p = OnboardingPage ↔
           isAuthenticated auth = true ∧ onboarded auth = false ∧
           matched here = AtOnboarding) ∧
        (p = SettingsPage ↔
           isAuthenticated auth = true ∧ matched here = AtSettings)).
Proof.
  split.
  - intros Hl. revert here. induction hops as [|hops IH]; intros here p.
    + simpl. unfold AppRoutes, PublicRoute, OnboardingRoute, ProtectedRoute.
      rewrite Hl. by destruct (matched here).
    + simpl. unfold AppRoutes, PublicRoute, OnboardingRoute, ProtectedRoute.
      rewrite Hl. destruct (matched here); try done; apply IH.
  - intros Hl. destruct here as [r p st]. simpl.
    unfold AppRoutes, PublicRoute, OnboardingRoute, ProtectedRoute. simpl.
    rewrite Hl.
    destruct r, (isAuthenticated auth) eqn:Ea, (onboarded auth) eqn:Eo; simpl;
      unfold AppRoutes, PublicRoute, OnboardingRoute, ProtectedRoute; simpl;
      rewrite ?Hl, ?Ea, ?Eo; simpl;
      unfold AppRoutes, PublicRoute, OnboardingRoute, ProtectedRoute; simpl;
      rewrite ?Hl, ?Ea, ?Eo; simpl;
      eexists; (split; [reflexivity|]); split_and!; split; try done;
      try (by intros (? & ?)); try (by intros (? & ? & ?)).
Qed.

End RoutesProps.

Module LoginPageProps.
Import JS Text Regex UseTopics Auth Routes LoginPage.

Lemma blank_trim_true (s : jsstring) :
  blank (trim s) = true ↔ Forall (λ c, is_space c = true) s.
Proof.
  unfold blank. rewrite bool_decide_eq_true, length_zero_iff_nil. split.
  - intros Ht. destruct (TextProps.trim_spec s) as (pre & post & Hs & Hpre & Hpost).
    rewrite Hs, Ht. simpl. by apply Forall_app.
  - intros Hall. destruct (trim s) as [|c t] eqn:E; [done|].
    assert (is_space c = false) as Hc by (apply (TextProps.trim_head s); by rewrite E).
    assert (c ∈ s) as Hin.
    { destruct (TextProps.trim_spec s) as (pre & post & Hs & _).
      rewrite Hs, E. apply elem_of_app. right. apply list_elem_of_here. }
    eapply Forall_forall in Hall; [|exact Hin]. simpl in Hall. congruence.
Qed.

Lemma not_space_or_at_spec (s : jsstring) :
  Matches (Plus not_space_or_at) s ↔
  s ≠ [] ∧ Forall (λ c, is_space c = false ∧ c ≠ at_sign) s.
Proof.
  unfold not_space_or_at. rewrite RegexProps.Matches_Plus_Class.
  apply and_iff_compat_l. apply Forall_proper; [|done]. intros c.
  rewrite negb_true_iff, orb_false_iff, N.eqb_neq. done.
Qed.

Lemma email_pattern_spec (s : jsstring) :
  test email_pattern s = true ↔
  ∃ a b c, s = a ++ at_sign :: b ++ full_stop :: c ∧
           a ≠ [] ∧ b ≠ [] ∧ c ≠ [] ∧
           Forall (λ c, is_space c = false ∧ c ≠ at_sign) (a ++ b ++ c).
Proof.
  rewrite RegexProps.test_spec. unfold email_pattern.
  rewrite RegexProps.Matches_Seq. split.
  - intros (a & s1 & -> & Ha%not_space_or_at_spec & H1).
    apply RegexProps.Matches_Seq in H1 as (x & s2 & -> & ->%RegexProps.Matches_Chr & H2).
    apply RegexProps.Matches_Seq in H2 as (b & s3 & -> & Hb%not_space_or_at_spec & H3).
    apply RegexProps.Matches_Seq in H3 as (y & c & -> & ->%RegexProps.Matches_Chr
                                           & Hc%not_space_or_at_spec).
    exists a, b, c. destruct Ha, Hb, Hc. split_and!; try done.
    rewrite !Forall_app. done.
  - intros (a & b & c & -> & Ha & Hb & Hc & Hall).
    rewrite !Forall_app in Hall. destruct Hall as (Hfa & Hfb & Hfc).
    exists a, (at_sign :: b ++ full_stop :: c). split_and!; [done| |].
    { by apply not_space_or_at_spec. }
    apply RegexProps.Matches_Seq. exists [at_sign], (b ++ full_stop :: c).
    split_and!; [done|by apply RegexProps.Matches_Chr|].
    apply RegexProps.Matches_Seq. exists b, (full_stop :: c).
    split_and!; [done|by apply not_space_or_at_spec|].
    apply RegexProps.Matches_Seq. exists [full_stop], c.
    split_and!; [done|by apply RegexProps.Matches_Chr|by apply not_space_or_at_spec].
Qed.

Lemma validation_error_spec (s : FormState) :
  validation_error s = "" ↔
  test email_pattern (email s) = true ∧
  (8 ≤ length (password s))%nat ∧
  (f_mode s = RegisterMode → blank (trim (displayName s)) = false).
Proof.
  unfold validation_error.
  destruct (blank (trim (email s))) eqn:Eb.
  { split; [done|]. intros (Ht & _). exfalso.
    apply email_pattern_spec in Ht as (a & b & c & He & Ha & _ & _ & Hall).
    apply blank_trim_true in Eb. rewrite He in Eb.
    destruct a as [|x a]; [done|].
    apply Forall_cons in Hall as [[Hx _] _].
    apply Forall_app in Eb as [Eb _]. apply Forall_cons in Eb as [Eb _].
    simpl in Eb. congruence. }
  destruct (test email_pattern (email s)) eqn:Et; simpl; [|by split; [|intros (? & _)]].
  unfold blank at 1. case_bool_decide as Hp.
  { split; [done|]. intros (_ & ? & _). lia. }
  case_bool_decide as Hl.
  { split; [done|]. intros (_ & ? & _). lia. }
  destruct (f_mode s); simpl.
  - split; [|done]. intros _. split_and!; [done|lia|done].
  - destruct (blank (trim (displayName s))) eqn:Ed.
    + split; [done|]. intros (_ & _ & H). by specialize (H eq_refl).
    + split; [|done]. intros _. split_and!; [done|lia|done].
Qed.

(** X23: what [validateForm] lets through.  It returns [true] exactly
    when the e-mail address is made of a part before an [@], a part
    behind it and, behind a full stop, a last part, none of them empty
    and none holding white space or another [@]; the password has 8
    code units or more; and, when registering, the display name is not
    blank.  It leaves a message exactly when it returns [false].  An
    address of white space only is reported as missing, an empty
    password as missing rather than as too short. *)
Theorem validateForm_accepts (s : FormState) :
  let ok := (validateForm s).2 in
  let s' := form_after (validateForm s).1 s in
  (ok = true ↔
     (∃ a b c, email s = a ++ at_sign :: b ++ full_stop :: c ∧
               a ≠ [] ∧ b ≠ [] ∧ c ≠ [] ∧
               Forall (λ c, is_space c = false ∧ c ≠ at_sign) (a ++ b ++ c)) ∧
     (8 ≤ length (password s))%nat ∧
     (f_mode s = RegisterMode → ∃ c, c ∈ displayName s ∧ is_space c = false)) ∧
  (ok = true ↔ error s' = "") ∧
  (Forall (λ c, is_space c = true) (email s) → error s' = "Email is required") ∧
  (test email_pattern (email s) = true → password s = [] →
     error s' = "Password is required").
Proof.
  intros ok s'. subst ok s'.
  pose proof (validation_error_spec s) as Hspec.
  unfold validateForm. split_and!.
  - case_bool_decide as He; simpl.
    + split; [intros _|done]. apply Hspec in He as (Ht & Hp & Hd).
      split_and!; [exact (proj1 (email_pattern_spec _) Ht)|done|].
      intros Hm. by apply SettingsPageProps.blank_trim, Hd.
    + split; [done|]. intros (Ht & Hp & Hd). destruct He. apply Hspec.
      split_and!; [exact (proj2 (email_pattern_spec _) Ht)|done|].
      intros Hm. destruct (Hd Hm) as (c & Hc & Hsp).
      apply not_true_is_false. intros Hb%blank_trim_true.
      eapply Forall_forall in Hb; [|exact Hc]. simpl in Hb. congruence.
  - case_bool_decide as He; simpl; (split; [done|]); [done|by intros ?].
  - intros Hb%blank_trim_true. unfold validation_error. rewrite Hb.
    by case_bool_decide.
  - intros Ht Hp. unfold validation_error. rewrite Ht, Hp. simpl.
    destruct (blank (trim (email s))) eqn:Eb; [|by case_bool_decide].
    exfalso. apply blank_trim_true in Eb.
    apply email_pattern_spec in Ht as (a & b & c & He & Ha & _ & _ & Hall).
    rewrite He in Eb. destruct a as [|x a]; [done|].
    apply Forall_cons in Hall as [[Hx _] _].
    apply Forall_app in Eb as [Eb _]. apply Forall_cons in Eb as [Eb _].
    simpl in Eb. congruence.
Qed.

(** X24: [handleSubmit] asks nothing of the server for a form that
    [validateForm] turns down: the session and the location stay, the
    message shows.  For a valid form it sends one request, a sign-in
    or a registration by the mode, with the fields as typed.
    Accepted, the session takes the token and the user of the answer
    and the page navigates, to where the visitor came from after a
    sign-in and to the onboarding after a registration.  Refused, the
    session stays, nothing is navigated and a message shows.  Both
    ways [isLoading] ends off. *)
Theorem handleSubmit_outcome (api : auth_request → settlement session)
    (rendered : FormState) (here : location) (auth : AuthState) :
  let es := handleSubmit api rendered here in
  let s' := form_after es rendered in
  let req := match f_mode rendered with
             | LoginMode => PostLogin (email rendered) (password rendered)
             | RegisterMode => PostRegister (email rendered) (password rendered)
                                            (displayName rendered)
             end in
  (validation_error rendered ≠ "" →
     auth_requests es = [] ∧ navigated es = [] ∧ session_after es auth = auth ∧
     error s' = validation_error rendered ∧ isLoading s' = isLoading rendered) ∧
  (validation_error rendered = "" →
     auth_requests es = [req] ∧ isLoading s' = false ∧
     (∀ r, api req = Fulfilled r →
        navigated es = [match f_mode rendered with
                        | LoginMode => from here
                        | RegisterMode => to_onboarding
                        end] ∧
        error s' = "" ∧
        token (session_after es auth) = r_token r ∧
        user (session_after es auth) = r_user r) ∧
     (∀ m, api req = Rejected m →
        navigated es = [] ∧ error s' ≠ "" ∧ session_after es auth = auth)).
Proof.
  intros es s' req. subst es s' req. unfold handleSubmit, validateForm.
  case_bool_decide as He; simpl.
  - split; [done|]. intros _. rewrite ?He. unfold login, register, signed_in.
    destruct (f_mode rendered); simpl.
    + destruct (api (PostLogin _ _)) as [r|m]; simpl.
      * split_and!; try done. by intros r' [= <-].
      * split_and!; try done. intros m' [= <-].
        split_and!; try done; try (by apply OnboardingPageProps.str_or_nonempty);
          by destruct auth.
    + destruct (api (PostRegister _ _ _)) as [r|m]; simpl.
      * split_and!; try done. by intros r' [= <-].
      * split_and!; try done. intros m' [= <-].
        split_and!; try done; try (by apply OnboardingPageProps.str_or_nonempty);
          by destruct auth.
  - split; [|done]. intros _. split_and!; try done; by destruct auth.
Qed.

Lemma handleSubmit_accepted (api : auth_request → settlement session)
    (form : FormState) (here : location) (r : session) :
  f_mode form = LoginMode →
  validation_error form = "" →
  api (PostLogin (email form) (password form)) = Fulfilled r →
  handleSubmit api form here =
  [SetError ""; SetIsLoading true; SetError "";
   AwaitAuth (login api (email form) (password form));
   NavigateTo (from here) true; SetIsLoading false].
Proof.
  intros Hmode Hvalid Hok. unfold handleSubmit, validateForm.
  rewrite Hvalid, Hmode. simpl. unfold login, signed_in. by rewrite Hok.
Qed.

(** X25: signing in brings the visitor back.  A visitor who is not
    signed in and opens the feed or the settings is sent to the login
    page, which keeps where they were.  A valid sign-in that the
    server accepts with a token and a user navigates to that same
    route and path, and the guard now shows the page that was asked
    for.  After [logout] the same location leads to the login page
    again. *)
Theorem sign_in_returns (api : auth_request → settlement session)
    (auth : AuthState) (here : location) (form : FormState)
    (r : session) (u : obj) :
  Auth.isLoading auth = false →
  isAuthenticated auth = false →
  matched here = AtRoot ∨ matched here = AtSettings →
  pathname here ≠ "" →
  f_mode form = LoginMode →
  validation_error form = "" →
  api (PostLogin (email form) (password form)) = Fulfilled r →
  truthy (r_token r) = true →
  r_user r = Some u →
  let es := handleSubmit api form (to_login here) in
  let auth' := session_after es auth in
  AppRoutes auth here = Navigate (to_login here) ∧
  AppRoutes auth (to_login here) = Page LoginPage ∧
  ∃ back, navigated es = [back] ∧
          matched back = matched here ∧ pathname back = pathname here ∧
          AppRoutes auth' back =
            Page (match matched here with AtSettings => SettingsPage | _ => FeedPage end) ∧
          settle 2 (auth_after logout auth') back = Page LoginPage.
Proof.
  intros Hl Ha Hroute Hpath Hmode Hvalid Hok Htoken Huser es auth'.
  subst auth' es. rewrite (handleSubmit_accepted api form _ r) by done.
  unfold login, signed_in. rewrite Hok. simpl.
  assert (from (to_login here) = Location (matched here) (pathname here) None) as ->.
  { unfold from, to_login. simpl. destruct (String.eqb_spec (pathname here) ""); done. }
  split_and!.
  - unfold AppRoutes, ProtectedRoute. rewrite Hl, Ha. by destruct Hroute as [-> | ->].
  - unfold AppRoutes, PublicRoute. simpl. by rewrite Hl, Ha.
  - eexists. split; [reflexivity|]. split_and!; try done.
    + unfold AppRoutes, ProtectedRoute, isAuthenticated. simpl.
      rewrite Hl, Htoken, Huser. simpl. by destruct Hroute as [-> | ->].
    + simpl. unfold AppRoutes, ProtectedRoute, isAuthenticated. simpl. rewrite Hl.
      by destruct Hroute as [-> | ->].
Qed.

Lemma sign_in_returns_witness :
  AppRoutes PagesExamples.signed_out PagesExamples.settings_location
    = Navigate (to_login PagesExamples.settings_location) ∧
  AppRoutes
    (session_after
       (handleSubmit PagesExamples.welcoming PagesExamples.filled_in
                     (to_login PagesExamples.settings_location))
       PagesExamples.signed_out)
    PagesExamples.settings_location
    = Page SettingsPage.
Proof.
  destruct (sign_in_returns PagesExamples.welcoming PagesExamples.signed_out
              PagesExamples.settings_location PagesExamples.filled_in
              {| r_token := VStr "t0k3n"; r_user := Some {[ "email" := VStr "a@b.co" ]} |}
              {[ "email" := VStr "a@b.co" ]})
    as (H1 & _ & back & Hnav & _ & _ & Hpage & _);
    try reflexivity; try discriminate; [by right|].
  split; [exact H1|]. injection Hnav as <-. exact Hpage.
Defined.

End LoginPageProps.

(** ** The constraints of the tables of users, topics and their links *)

Module AccountsProps.
Import Schema Accounts SchemaProps.

Lemma NoDup_fmap_snoc {A B} (f : A → B) (l : list A) (x : A) :
  NoDup (f <$> l) → (f x ∉ (f <$> l)) → NoDup (f <$> (l ++ [x])).
Proof.
  intros Hl Hx. rewrite fmap_app. apply NoDup_app. split_and!; [done| |apply NoDup_singleton].
  intros y Hy Hin. apply list_elem_of_singleton in Hin. by subst y.
Qed.

Lemma NoDup_omap_snoc {A B} (f : A → option B) (l : list A) (x : A) :
  NoDup (omap f l) → (∀ k, f x = Some k → k ∉ omap f l) → NoDup (omap f (l ++ [x])).
Proof.
  intros Hl Hx. rewrite omap_app. simpl. destruct (f x) as [k|] eqn:E; simpl.
  - apply NoDup_app. split_and!; [done| |apply NoDup_singleton].
    intros y Hy Hin. apply list_elem_of_singleton in Hin. subst y. by apply (Hx k).
  - by rewrite app_nil_r.
Qed.

Lemma NoDup_fmap_sublist {A B} (f : A → B) (l1 l2 : list A) :
  l1 `sublist_of` l2 → NoDup (f <$> l2) → NoDup (f <$> l1).
Proof. intros Hs Hnd. eapply sublist_NoDup; [done|]. by apply fmap_sublist. Qed.

Lemma NoDup_omap_sublist {A B} (f : A → option B) (l1 l2 : list A) :
  l1 `sublist_of` l2 → NoDup (omap f l2) → NoDup (omap f l1).
Proof. intros Hs Hnd. eapply sublist_NoDup; [done|]. by apply omap_sublist. Qed.

Lemma elem_fmap_filter {A B} (f : A → B) (P : A → Prop) `{∀ x, Decision (P x)}
    (l : list A) (k : B) :
  k ∈ (f <$> l) → (∀ x, x ∈ l → f x = k → P x) → k ∈ (f <$> filter P l).
Proof.
  intros (x & -> & Hx)%list_elem_of_fmap HP. apply list_elem_of_fmap.
  exists x. split; [done|]. apply list_elem_of_filter. split; [|done]. by apply HP.
Qed.

Lemma elem_fmap_app_l {A B} (f : A → B) (l k : list A) (x : B) :
  x ∈ (f <$> l) → x ∈ (f <$> (l ++ k)).
Proof. intros Hx. rewrite fmap_app. apply elem_of_app. by left. Qed.

Lemma references_null_ok (k : option uuid) (keys : list uuid) u :
  references_null k keys = Ok u → ∀ t, k = Some t → t ∈ keys.
Proof. intros H t ->. simpl in H. by eapply references_ok. Qed.

(** What an accepted [INSERT] has checked. *)
Lemma insert_topic_ok i s s' :
  insert_topic i s = Ok s' →
  ∃ row, s' = {| core := core s; topics := topics s ++ [row]; users := users s;
                 curated_feeds := curated_feeds s; user_feeds := user_feeds s;
                 user_topics := user_topics s |} ∧
         (t_id row ∉ (t_id <$> topics s)) ∧
         (t_name row ∉ (t_name <$> topics s)) ∧
         (t_slug row ∉ (t_slug <$> topics s)).
Proof.
  unfold insert_topic. intros H. inv_ok H. injection H as <-.
  eexists. split_and!; done.
Qed.

Lemma insert_user_ok now i s s' :
  insert_user now i s = Ok s' →
  ∃ row, s' = {| core := core s; topics := topics s; users := users s ++ [row];
                 curated_feeds := curated_feeds s; user_feeds := user_feeds s;
                 user_topics := user_topics s |} ∧
         (u_id row ∉ (u_id <$> users s)) ∧
         (u_email row ∉ (u_email <$> users s)) ∧
         (∀ k, oauth row = Some k → k ∉ omap oauth (users s)).
Proof.
  unfold insert_user. intros H. inv_ok H. injection H as <-.
  eexists. split_and!; [done|done|done|].
  intros k Hk.
  match goal with Hu : match oauth _ with _ => _ end = Ok _ |- _ =>
    rewrite Hk in Hu; by apply unique_ok in Hu end.
Qed.

Lemma insert_feed_ok now i s s' :
  insert_feed now i s = Ok s' →
  ∃ row, s' = with_core s
                {| feeds := feeds (core s) ++ [row]; articles := articles (core s);
                   article_analysis := article_analysis (core s);
                   opposing_articles := opposing_articles (core s);
                   user_articles := user_articles (core s) |} ∧
         (f_id row ∉ (f_id <$> feeds (core s))) ∧
         (f_url row ∉ (f_url <$> feeds (core s))) ∧
         (∀ t, f_topic_id row = Some t → t ∈ (t_id <$> topics s)).
Proof.
  unfold insert_feed. intros H. inv_ok H. injection H as <-.
  eexists. split_and!; [done|done|done|].
  by eapply references_null_ok.
Qed.

Lemma insert_curated_feed_ok t f s s' :
  insert_curated_feed t f s = Ok s' →
  ∃ row, s' = {| core := core s; topics := topics s; users := users s;
                 curated_feeds := curated_feeds s ++ [row];
                 user_feeds := user_feeds s; user_topics := user_topics s |} ∧
         resolve None t = Some (cf_topic_id row) ∧
         resolve None f = Some (cf_feed_id row) ∧
         (cf_pair row ∉ (cf_pair <$> curated_feeds s)) ∧
         cf_topic_id row ∈ (t_id <$> topics s) ∧
         cf_feed_id row ∈ (f_id <$> feeds (core s)).
Proof.
  unfold insert_curated_feed. intros H. inv_ok H. injection H as <-.
  eexists. split_and!; try done; simpl.
  - by destruct (resolve None t); simplify_eq/=.
  - by destruct (resolve None f); simplify_eq/=.
Qed.

Lemma insert_user_feed_ok now u f a s s' :
  insert_user_feed now u f a s = Ok s' →
  ∃ row, s' = {| core := core s; topics := topics s; users := users s;
                 curated_feeds := curated_feeds s;
                 user_feeds := user_feeds s ++ [row];
                 user_topics := user_topics s |} ∧
         (uf_pair row ∉ (uf_pair <$> user_feeds s)) ∧
         uf_user_id row ∈ (u_id <$> users s) ∧
         uf_feed_id row ∈ (f_id <$> feeds (core s)).
Proof.
  unfold insert_user_feed. intros H. inv_ok H. injection H as <-.
  eexists. split_and!; done.
Qed.

Lemma insert_user_topic_ok u t s s' :
  insert_user_topic u t s = Ok s' →
  ∃ row, s' = {| core := core s; topics := topics s; users := users s;
                 curated_feeds := curated_feeds s; user_feeds := user_feeds s;
                 user_topics := user_topics s ++ [row] |} ∧
         (ut_pair row ∉ (ut_pair <$> user_topics s)) ∧
         ut_user_id row ∈ (u_id <$> users s) ∧
         ut_topic_id row ∈ (t_id <$> topics s).
Proof.
  unfold insert_user_topic. intros H. inv_ok H. injection H as <-.
  eexists. split_and!; done.
Qed.

Lemma insert_user_article_ok i s s' :
  insert_user_article i s = Ok s' →
  ∃ row, s' = with_core s
                {| feeds := feeds (core s); articles := articles (core s);
                   article_analysis := article_analysis (core s);
                   opposing_articles := opposing_articles (core s);
                   user_articles := user_articles (core s) ++ [row] |} ∧
         (ua_pair row ∉ (ua_pair <$> user_articles (core s))) ∧
         ua_user_id row ∈ (u_id <$> users s) ∧
         ua_article_id row ∈ (a_id <$> articles (core s)) ∧
         (uai_is_read i = DEFAULT → ua_is_read row = false) ∧
         (uai_is_saved i = DEFAULT → ua_is_saved row = false).
Proof.
  unfold insert_user_article. intros H. inv_ok H. injection H as <-.
  eexists. split_and!; try done; simpl.
  - intros Hd. rewrite Hd in *. by simplify_eq/=.
  - intros Hd. rewrite Hd in *. by simplify_eq/=.
Qed.

Lemma link_rows_err (e : sql_error) (rows : list (option uuid * uuid)) :
  foldl (λ acc row, s' ← acc; insert_curated_feed (of_option row.1) (Value row.2) s')
        (Err e) rows = Err e.
Proof. induction rows as [|row rows IH]; [done|]. simpl. apply IH. Qed.

(** What holds before the linking statement and is kept by every row
    it inserts holds after it. *)
Lemma link_rows_ind (P : store → Prop) (rows : list (option uuid * uuid)) (s s' : store) :
  P s →
  (∀ a row b, P a → insert_curated_feed (of_option row.1) (Value row.2) a = Ok b → P b) →
  foldl (λ acc row, s' ← acc; insert_curated_feed (of_option row.1) (Value row.2) s')
        (Ok s) rows = Ok s' →
  P s'.
Proof.
  intros Hs Hstep. revert s Hs. induction rows as [|row rows IH]; intros s Hs; simpl.
  - by intros [= <-].
  - destruct (insert_curated_feed (of_option row.1) (Value row.2) s) as [b|e] eqn:E.
    + apply IH. by eapply Hstep.
    + by rewrite link_rows_err.
Qed.

Lemma keys_sub (s s' : store) :
  topics s' `sublist_of` topics s →
  users s' `sublist_of` users s →
  feeds (core s') `sublist_of` feeds (core s) →
  curated_feeds s' `sublist_of` curated_feeds s →
  user_feeds s' `sublist_of` user_feeds s →
  user_topics s' `sublist_of` user_topics s →
  user_articles (core s') `sublist_of` user_articles (core s) →
  keys_hold s → keys_hold s'.
Proof.
  intros Ht Hu Hf Hc Huf Hut Hua (K1 & K2 & K3 & K4 & K5 & K6 & K7 & K8 & K9 & K10 & K11 & K12).
  unfold keys_hold. split_and!;
    first [by eapply NoDup_fmap_sublist | by eapply NoDup_omap_sublist].
Qed.

Lemma exec_core_keyed (d : db) (st : Schema.statement) :
  feeds (Schema.exec d st) `sublist_of` feeds d ∧
  user_articles (Schema.exec d st) `sublist_of` user_articles d.
Proof.
  destruct st as [now i|now i|now i|id|id]; simpl.
  - destruct (insert_article now i d) as [d'|e] eqn:E; [|done].
    by apply insert_article_ok in E as (row & -> & _).
  - destruct (insert_article_analysis now i d) as [d'|e] eqn:E; [|done].
    by apply insert_article_analysis_ok in E as (row & -> & _).
  - destruct (insert_opposing_article now i d) as [d'|e] eqn:E; [|done].
    by apply insert_opposing_article_ok in E as (row & -> & _).
  - split; [done|apply sublist_filter].
  - destruct (delete_feed_shrinks id d) as (? & _ & _ & _ & ?). done.
Qed.

Lemma insert_curated_feed_keys t f s s' :
  insert_curated_feed t f s = Ok s' → keys_hold s → keys_hold s'.
Proof.
  intros (row & -> & _ & _ & Hp & _)%insert_curated_feed_ok.
  intros (K1 & K2 & K3 & K4 & K5 & K6 & K7 & K8 & K9 & K10 & K11 & K12).
  unfold keys_hold; simpl. split_and!; try done. by apply NoDup_fmap_snoc.
Qed.

Lemma exec_keys (s : store) (st : statement) : keys_hold s → keys_hold (exec s st).
Proof.
  intros Hk.
  pose proof Hk as (K1 & K2 & K3 & K4 & K5 & K6 & K7 & K8 & K9 & K10 & K11 & K12).
  destruct st as [i|id|now i|id|now i|t f|now u f a|u t|i|only|st]; simpl.
  - destruct (insert_topic i s) as [s'|e] eqn:E; [|done]. simpl.
    apply insert_topic_ok in E as (row & -> & H1 & H2 & H3).
    unfold keys_hold; simpl. split_and!; try done; by apply NoDup_fmap_snoc.
  - unfold delete_topic. case_decide; [done|]. simpl.
    apply (keys_sub s); simpl; try done; apply sublist_filter.
  - destruct (insert_user now i s) as [s'|e] eqn:E; [|done]. simpl.
    apply insert_user_ok in E as (row & -> & H1 & H2 & H3).
    unfold keys_hold; simpl. split_and!; try done;
      first [by apply NoDup_fmap_snoc | by apply NoDup_omap_snoc].
  - apply (keys_sub s); simpl; try done; apply sublist_filter.
  - destruct (insert_feed now i s) as [s'|e] eqn:E; [|done]. simpl.
    apply insert_feed_ok in E as (row & -> & H1 & H2 & H3).
    unfold keys_hold; simpl. split_and!; try done; by apply NoDup_fmap_snoc.
  - destruct (insert_curated_feed t f s) as [s'|e] eqn:E; [|done]. simpl.
    by eapply insert_curated_feed_keys.
  - destruct (insert_user_feed now u f a s) as [s'|e] eqn:E; [|done]. simpl.
    apply insert_user_feed_ok in E as (row & -> & H1 & _).
    unfold keys_hold; simpl. split_and!; try done; by apply NoDup_fmap_snoc.
  - destruct (insert_user_topic u t s) as [s'|e] eqn:E; [|done]. simpl.
    apply insert_user_topic_ok in E as (row & -> & H1 & _).
    unfold keys_hold; simpl. split_and!; try done; by apply NoDup_fmap_snoc.
  - destruct (insert_user_article i s) as [s'|e] eqn:E; [|done]. simpl.
    apply insert_user_article_ok in E as (row & -> & H1 & _).
    unfold keys_hold; simpl. split_and!; try done; by apply NoDup_fmap_snoc.
  - destruct (link_curated_feeds only s) as [s'|e] eqn:E; [|done]. simpl.
    unfold link_curated_feeds in E.
    apply (link_rows_ind keys_hold _ _ _ Hk) in E; [done|].
    intros a row b Ha Hrow. by eapply insert_curated_feed_keys.
  - assert (keys_hold (with_core s (Schema.exec (core s) st))) as Hcore.
    { destruct (exec_core_keyed (core s) st). by apply (keys_sub s). }
    destruct st; try done.
    apply (keys_sub s); simpl; try done; try apply sublist_filter.
    + by destruct (delete_feed_shrinks id (core s)) as (? & _).
    + by destruct (delete_feed_shrinks id (core s)) as (_ & _ & _ & _ & ?).
Qed.

Lemma store_reached_snoc (sts : list statement) (st : statement) :
  reached (sts ++ [st]) = exec (reached sts) st.
Proof. unfold reached. by rewrite foldl_app. Qed.

Lemma reached_keys_hold (sts : list statement) : keys_hold (reached sts).
Proof.
  induction sts as [|st' sts' IH] using rev_ind.
  - unfold reached, keys_hold; simpl. split_and!; constructor.
  - rewrite store_reached_snoc. by apply exec_keys.
Qed.

(** X26: the keys of the tables of users, topics, feeds and links.
    Every statement keeps them: no two topics share an id, a name or a
    slug; no two users an id, an e-mail address or a complete pair of
    OAuth provider and id; no two feeds an id or a URL; and no link
    table holds a pair twice.  So they hold in every store the
    statements reach from empty tables.  Users without OAuth columns
    never stand in each other's way: a second one is accepted with
    any e-mail address not yet taken. *)
Theorem keys_always_hold (s : store) (st : statement) (sts : list statement)
    (now : timestamptz) (email name : string) :
  (keys_hold s → keys_hold (exec s st)) ∧
  keys_hold (reached sts) ∧
  (String.length email ≤ 320 → String.length name ≤ 100 →
   email ∉ (u_email <$> users s) →
   ∃ row, insert_user now (without_oauth email name) s =
            Ok {| core := core s; topics := topics s; users := users s ++ [row];
                  curated_feeds := curated_feeds s; user_feeds := user_feeds s;
                  user_topics := user_topics s |} ∧
          u_email row = email ∧ oauth row = None)%nat.
Proof.
  split_and!.
  - apply exec_keys.
  - apply reached_keys_hold.
  - intros He Hn Hnew. unfold insert_user, without_oauth. simpl.
    unfold varchar. rewrite !decide_True by done. simpl.
    rewrite unique_fresh. simpl.
    unfold unique. rewrite decide_False by done. simpl.
    eexists. split; [reflexivity|]. done.
Qed.

Lemma delete_articles_rest ids d :
  let d' := foldr delete_article d ids in
  feeds d' = feeds d ∧
  (∀ u, u ∈ user_articles d' ↔ u ∈ user_articles d ∧ (ua_article_id u ∉ ids)).
Proof.
  induction ids as [|id ids [IHf IHu]]; simpl.
  - split; [done|]. intros u. rewrite elem_of_nil. tauto.
  - split; [done|]. intros u.
    rewrite list_elem_of_filter, IHu, not_elem_of_cons. tauto.
Qed.

(** The tables of [Schema.db] after a feed is deleted: the feed is
    gone, and so is every row that hangs on an article named in
    [ids], which names every article of the feed. *)
Lemma delete_feed_tables (id : uuid) (d : db) :
  let d' := Schema.delete_feed id d in
  ∃ ids : list uuid,
    feeds d' = filter (λ f, f_id f ≠ id) (feeds d) ∧
    (∀ a, a ∈ articles d → a_feed_id a = id → a_id a ∈ ids) ∧
    (∀ a, a ∈ articles d' ↔ a ∈ articles d ∧ (a_id a ∉ ids)) ∧
    (∀ r, r ∈ article_analysis d' ↔
          r ∈ article_analysis d ∧ (an_article_id r ∉ ids)) ∧
    (∀ l, l ∈ opposing_articles d' ↔
          l ∈ opposing_articles d ∧
          (l_source_article_id l ∉ ids) ∧ (l_opposing_article_id l ∉ ids)) ∧
    (∀ u, u ∈ user_articles d' ↔
          u ∈ user_articles d ∧ (ua_article_id u ∉ ids)).
Proof.
  intros d'. subst d'. unfold Schema.delete_feed.
  set (ids := a_id <$> filter (λ a, a_feed_id a = id) (articles d)).
  destruct (delete_articles_tables ids d) as (Ha & Hr & Hl).
  destruct (delete_articles_rest ids d) as (Hf & Hu). simpl.
  exists ids. split_and!; try done.
  - by rewrite Hf.
  - intros a Hin Hfeed. apply list_elem_of_fmap. exists a. split; [done|].
    by apply list_elem_of_filter.
Qed.

Lemma elem_of_ids_kept (ids : list uuid) (l l' : list article) (k : uuid) :
  (∀ a, a ∈ l' ↔ a ∈ l ∧ (a_id a ∉ ids)) →
  k ∈ (a_id <$> l) → k ∉ ids → k ∈ (a_id <$> l').
Proof.
  intros Hl (a & -> & Ha)%list_elem_of_fmap Hk.
  apply list_elem_of_fmap. exists a. split; [done|]. by apply Hl.
Qed.

Lemma exec_references (s : store) (st : statement) :
  references_hold s → references_hold (exec s st).
Proof.
  intros Hr.
  pose proof Hr as (R1 & R2 & R3 & R4 & R5 & R6 & R7 & R8).
  destruct st as [i|id|now i|id|now i|t f|now u f a|u t|i|only|st]; simpl.
  - (* InsertTopic *)
    destruct (insert_topic i s) as [s'|e] eqn:E; [|done]. simpl.
    apply insert_topic_ok in E as (row & -> & _).
    unfold references_hold; simpl. split_and!; try done.
    + intros f0 t0 Hf Ht. apply elem_fmap_app_l. by eapply R1.
    + intros c Hc. destruct (R6 c Hc). split; [by apply elem_fmap_app_l|done].
    + intros x Hx. destruct (R8 x Hx). split; [done|by apply elem_fmap_app_l].
  - (* DeleteTopic *)
    unfold delete_topic. case_decide as Hfeeds; [done|]. simpl.
    unfold references_hold; simpl. split_and!; try done.
    + intros f0 t0 Hf Ht. apply elem_fmap_filter; [by eapply R1|].
      intros x _ Hx Hid. apply Hfeeds. apply list_elem_of_fmap.
      exists f0. split; [|done]. rewrite Ht. congruence.
    + intros c [Hne Hc]%list_elem_of_filter. destruct (R6 c Hc). split; [|done].
      apply elem_fmap_filter; [done|]. intros x _ Hx. by rewrite Hx.
    + intros x [Hne Hx]%list_elem_of_filter. destruct (R8 x Hx). split; [done|].
      apply elem_fmap_filter; [done|]. intros y _ Hy. by rewrite Hy.
  - (* InsertUser *)
    destruct (insert_user now i s) as [s'|e] eqn:E; [|done]. simpl.
    apply insert_user_ok in E as (row & -> & _).
    unfold references_hold; simpl. split_and!; try done.
    + intros x Hx. destruct (R5 x Hx). split; [by apply elem_fmap_app_l|done].
    + intros x Hx. destruct (R7 x Hx). split; [by apply elem_fmap_app_l|done].
    + intros x Hx. destruct (R8 x Hx). split; [by apply elem_fmap_app_l|done].
  - (* DeleteUser *)
    unfold references_hold; simpl. split_and!; try done.
    + intros x [Hne Hx]%list_elem_of_filter. destruct (R5 x Hx). split; [|done].
      apply elem_fmap_filter; [done|]. intros y _ Hy. by rewrite Hy.
    + intros x [Hne Hx]%list_elem_of_filter. destruct (R7 x Hx). split; [|done].
      apply elem_fmap_filter; [done|]. intros y _ Hy. by rewrite Hy.
    + intros x [Hne Hx]%list_elem_of_filter. destruct (R8 x Hx). split; [|done].
      apply elem_fmap_filter; [done|]. intros y _ Hy. by rewrite Hy.
  - (* InsertFeed *)
    destruct (insert_feed now i s) as [s'|e] eqn:E; [|done]. simpl.
    apply insert_feed_ok in E as (row & -> & _ & _ & Htopic).
    unfold references_hold; simpl. split_and!; try done.
    + intros f0 t0 [Hf| ->%list_elem_of_singleton]%elem_of_app Ht;
        [by eapply R1|by apply Htopic].
    + intros x Hx. apply elem_fmap_app_l. by apply R2.
    + intros c Hc. destruct (R6 c Hc). split; [done|by apply elem_fmap_app_l].
    + intros x Hx. destruct (R7 x Hx). split; [done|by apply elem_fmap_app_l].
  - (* InsertCuratedFeed *)
    destruct (insert_curated_feed t f s) as [s'|e] eqn:E; [|done]. simpl.
    apply insert_curated_feed_ok in E as (row & -> & _ & _ & _ & Ht & Hf).
    unfold references_hold; simpl. split_and!; try done.
    intros c [Hc| ->%list_elem_of_singleton]%elem_of_app; [by apply R6|done].
  - (* InsertUserFeed *)
    destruct (insert_user_feed now u f a s) as [s'|e] eqn:E; [|done]. simpl.
    apply insert_user_feed_ok in E as (row & -> & _ & Hu & Hf).
    unfold references_hold; simpl. split_and!; try done.
    intros c [Hc| ->%list_elem_of_singleton]%elem_of_app; [by apply R7|done].
  - (* InsertUserTopic *)
    destruct (insert_user_topic u t s) as [s'|e] eqn:E; [|done]. simpl.
    apply insert_user_topic_ok in E as (row & -> & _ & Hu & Ht).
    unfold references_hold; simpl. split_and!; try done.
    intros c [Hc| ->%list_elem_of_singleton]%elem_of_app; [by apply R8|done].
  - (* InsertUserArticle *)
    destruct (insert_user_article i s) as [s'|e] eqn:E; [|done]. simpl.
    apply insert_user_article_ok in E as (row & -> & _ & Hu & Ha & _).
    unfold references_hold; simpl. split_and!; try done.
    intros c [Hc| ->%list_elem_of_singleton]%elem_of_app; [by apply R5|done].
  - (* LinkCuratedFeeds *)
    destruct (link_curated_feeds only s) as [s'|e] eqn:E; [|done]. simpl.
    unfold link_curated_feeds in E.
    apply (link_rows_ind references_hold _ _ _ Hr) in E; [done|].
    intros a row b (A1 & A2 & A3 & A4 & A5 & A6 & A7 & A8) Hrow.
    apply insert_curated_feed_ok in Hrow as (r & -> & _ & _ & _ & Ht & Hf).
    unfold references_hold; simpl. split_and!; try done.
    intros c [Hc| ->%list_elem_of_singleton]%elem_of_app; [by apply A6|done].
  - destruct st as [now i|now i|now i|id|id]; [simpl..| ].
    + (* InsertArticle *)
      destruct (insert_article now i (core s)) as [d'|e] eqn:E; [|by destruct s].
      apply insert_article_ok in E as (row & -> & _ & _ & Hfeed).
      unfold references_hold; simpl. split_and!; try done.
      * intros x [Hx| ->%list_elem_of_singleton]%elem_of_app; [by apply R2|done].
      * intros x Hx. apply elem_fmap_app_l. by apply R3.
      * intros x Hx. destruct (R4 x Hx). split; by apply elem_fmap_app_l.
      * intros x Hx. destruct (R5 x Hx). split; [done|by apply elem_fmap_app_l].
    + (* InsertAnalysis *)
      destruct (insert_article_analysis now i (core s)) as [d'|e] eqn:E;
        [|by destruct s].
      apply insert_article_analysis_ok in E as (row & -> & _ & _ & Ha & _).
      unfold references_hold; simpl. split_and!; try done.
      intros x [Hx| ->%list_elem_of_singleton]%elem_of_app; [by apply R3|done].
    + (* InsertOpposing *)
      destruct (insert_opposing_article now i (core s)) as [d'|e] eqn:E;
        [|by destruct s].
      apply insert_opposing_article_ok in E as (row & -> & _ & _ & Hs & Ho & _).
      unfold references_hold; simpl. split_and!; try done.
      intros x [Hx| ->%list_elem_of_singleton]%elem_of_app; [by apply R4|done].
    + (* DeleteArticle *)
      unfold references_hold; simpl. split_and!; try done.
      * intros x [Hne Hx]%list_elem_of_filter. by apply R2.
      * intros x [Hne Hx]%list_elem_of_filter.
        apply elem_fmap_filter; [by apply R3|]. intros y _ Hy. by rewrite Hy.
      * intros x [[Hs Ho] Hx]%list_elem_of_filter. destruct (R4 x Hx).
        split; (apply elem_fmap_filter; [done|]); intros y _ Hy; by rewrite Hy.
      * intros x [Hne Hx]%list_elem_of_filter. destruct (R5 x Hx). split; [done|].
        apply elem_fmap_filter; [done|]. intros y _ Hy. by rewrite Hy.
    + (* DeleteFeed *)
      destruct (delete_feed_tables id (core s))
        as (ids & Hf & Hdoomed & Ha & Han & Hl & Hu).
      change (exec s (Core (Schema.DeleteFeed id))) with (Accounts.delete_feed id s).
      unfold references_hold, Accounts.delete_feed.
      cbn [core topics users curated_feeds user_feeds user_topics].
      rewrite Hf. split_and!.
      * intros f0 t0 [_ Hin]%list_elem_of_filter Ht. by eapply R1.
      * intros x [Hx Hk]%Ha. apply elem_fmap_filter; [by apply R2|].
        intros y _ Hy Hid. apply Hk. apply Hdoomed; [done|]. by rewrite <- Hy.
      * intros x [Hx Hk]%Han. eapply elem_of_ids_kept; [done|by apply R3|done].
      * intros x (Hx & Hs & Ho)%Hl. destruct (R4 x Hx).
        split; by eapply elem_of_ids_kept.
      * intros x [Hx Hk]%Hu. destruct (R5 x Hx). split; [done|].
        by eapply elem_of_ids_kept.
      * intros c [Hne Hc]%list_elem_of_filter. destruct (R6 c Hc). split; [done|].
        apply elem_fmap_filter; [done|]. intros y _ Hy. by rewrite Hy.
      * intros x [Hne Hx]%list_elem_of_filter. destruct (R7 x Hx). split; [done|].
        apply elem_fmap_filter; [done|]. intros y _ Hy. by rewrite Hy.
      * done.
Qed.

Lemma reached_references_hold (sts : list statement) : references_hold (reached sts).
Proof.
  induction sts as [|st' sts' IH] using rev_ind.
  - unfold reached, references_hold; simpl.
    split_and!; [by intros f t ?%elem_of_nil|by intros x ?%elem_of_nil..].
  - rewrite store_reached_snoc. by apply exec_references.
Qed.

(** X27: the references of all ten tables.  Every statement keeps
    them: a feed's topic, an article's feed, the article of an
    analysis, of a link and of a read/save row, the user of a
    read/save row, and both ends of every row of the three link
    tables exist.  So they hold in every store the statements reach
    from empty tables, whatever was deleted on the way. *)
Theorem references_always_hold (s : store) (st : statement) (sts : list statement) :
  (references_hold s → references_hold (exec s st)) ∧
  references_hold (reached sts).
Proof.
  split.
  - apply exec_references.
  - apply reached_references_hold.
Qed.

(** X28: deleting a topic.  The statement fails, with a foreign key
    violation and nothing changed, exactly when a feed still names
    the topic; the links of curated feeds do not stand in the way,
    they cascade.  When it goes through, the topic, its curated links
    and the users' choices of it are gone, every other row of these
    three tables stays, and the other tables are as they were. *)
Theorem delete_topic_restricted (id : uuid) (s : store) :
  ((∃ f, f ∈ feeds (core s) ∧ f_topic_id f = Some id) →
     delete_topic id s = Err foreign_key_violation ∧ exec s (DeleteTopic id) = s) ∧
  ((∀ f, f ∈ feeds (core s) → f_topic_id f ≠ Some id) →
     ∃ s', delete_topic id s = Ok s' ∧
           (∀ t, t ∈ topics s' ↔ t ∈ topics s ∧ t_id t ≠ id) ∧
           (∀ c, c ∈ curated_feeds s' ↔ c ∈ curated_feeds s ∧ cf_topic_id c ≠ id) ∧
           (∀ u, u ∈ user_topics s' ↔ u ∈ user_topics s ∧ ut_topic_id u ≠ id) ∧
           core s' = core s ∧ users s' = users s ∧ user_feeds s' = user_feeds s ∧
           (∀ u, insert_user_topic (Value u) (Value id) s' = Err foreign_key_violation)).
Proof.
  unfold delete_topic. split.
  - intros (f & Hf & Ht). unfold exec, delete_topic. rewrite !decide_True; [done|..];
      apply list_elem_of_fmap; exists f; by rewrite Ht.
  - intros Hnone. rewrite decide_False.
    2:{ intros (f & Ht & Hf)%list_elem_of_fmap. by apply (Hnone f). }
    eexists. split; [reflexivity|]. simpl. split_and!; try done.
    + intros t. rewrite list_elem_of_filter. tauto.
    + intros c. rewrite list_elem_of_filter. tauto.
    + intros u. rewrite list_elem_of_filter. tauto.
    + intros u. unfold insert_user_topic. simpl.
      unfold unique. rewrite decide_False.
      2:{ intros (x & [= _ Hx] & [Hne _]%list_elem_of_filter)%list_elem_of_fmap. done. }
      simpl. unfold references.
      destruct (decide (u ∈ _)); simpl; [|done].
      rewrite decide_False; [done|].
      intros (x & Hx & [Hne _]%list_elem_of_filter)%list_elem_of_fmap. done.
Qed.

(** X29: what a deleted user and a deleted feed leave behind.  After
    [DELETE FROM users] no table names the user any more: the row, the
    read/save rows, the user's feeds and topics are gone, every other
    row of those tables stays, the other tables are as they were, and
    the user cannot be linked to a topic again.  After [DELETE FROM
    feeds] the feed, its articles, its curated links and the users'
    links to it are gone, and users and topics are as they were. *)
Theorem deleted_rows_leave_nothing (id : uuid) (s : store) :
  let s1 := exec s (DeleteUser id) in
  let s2 := exec s (Core (Schema.DeleteFeed id)) in
  ((∀ u, u ∈ users s1 ↔ u ∈ users s ∧ u_id u ≠ id) ∧
   (∀ u, u ∈ user_articles (core s1) ↔
         u ∈ user_articles (core s) ∧ ua_user_id u ≠ id) ∧
   (∀ u, u ∈ user_feeds s1 ↔ u ∈ user_feeds s ∧ uf_user_id u ≠ id) ∧
   (∀ u, u ∈ user_topics s1 ↔ u ∈ user_topics s ∧ ut_user_id u ≠ id) ∧
   topics s1 = topics s ∧ curated_feeds s1 = curated_feeds s ∧
   feeds (core s1) = feeds (core s) ∧ articles (core s1) = articles (core s) ∧
   article_analysis (core s1) = article_analysis (core s) ∧
   opposing_articles (core s1) = opposing_articles (core s) ∧
   (∀ t, insert_user_topic (Value id) (Value t) s1 = Err foreign_key_violation)) ∧
  ((∀ f, f ∈ feeds (core s2) ↔ f ∈ feeds (core s) ∧ f_id f ≠ id) ∧
   (∀ a, a ∈ articles (core s2) → a ∈ articles (core s) ∧ a_feed_id a ≠ id) ∧
   (∀ c, c ∈ curated_feeds s2 ↔ c ∈ curated_feeds s ∧ cf_feed_id c ≠ id) ∧
   (∀ u, u ∈ user_feeds s2 ↔ u ∈ user_feeds s ∧ uf_feed_id u ≠ id) ∧
   users s2 = users s ∧ topics s2 = topics s ∧ user_topics s2 = user_topics s ∧
   (∀ now title url, ∃ e,
      Schema.insert_article now (without_guid id title url) (core s2) = Err e)).
Proof.
  intros s1 s2. split.
  - subst s1. simpl. split_and!; try done.
    + intros u. rewrite list_elem_of_filter. tauto.
    + intros u. rewrite list_elem_of_filter. tauto.
    + intros u. rewrite list_elem_of_filter. tauto.
    + intros u. rewrite list_elem_of_filter. tauto.
    + intros t. unfold insert_user_topic. simpl.
      unfold unique. rewrite decide_False.
      2:{ intros (x & [= Hx _] & [Hne _]%list_elem_of_filter)%list_elem_of_fmap. done. }
      simpl. unfold references.
      destruct (decide (id ∈ _)) as [Hin|Hout]; [|done].
      apply list_elem_of_fmap in Hin as (x & Hx & [Hne _]%list_elem_of_filter). done.
  - subst s2. change (exec s (Core (Schema.DeleteFeed id))) with (Accounts.delete_feed id s).
    destruct (delete_feed_tables id (core s)) as (ids & Hf & Hdoomed & Ha & _).
    unfold Accounts.delete_feed. cbn [core topics users curated_feeds user_feeds user_topics].
    set (d2 := Schema.delete_feed id (core s)) in *. clearbody d2.
    split_and!; try done.
    + intros f. rewrite Hf, list_elem_of_filter. tauto.
    + intros a [Hin Hk]%Ha. split; [done|]. intros Hfeed. by apply Hk, Hdoomed.
    + intros c. rewrite list_elem_of_filter. tauto.
    + intros u. rewrite list_elem_of_filter. tauto.
    + intros now title url. unfold insert_article, without_guid. simpl.
      destruct (varchar 1000 title) as [title'|e] eqn:Et; simpl; [|by eexists].
      destruct (varchar 2000 url) as [url'|e] eqn:Eu; simpl; [|by eexists].
      rewrite unique_fresh. simpl. unfold references. rewrite decide_False; [by eexists|].
      rewrite Hf. intros (x & Hx & [Hne _]%list_elem_of_filter)%list_elem_of_fmap. done.
Qed.

Lemma link_rows_ok (fs : list feed) (a s' : store) :
  foldl (λ acc row, s' ← acc; insert_curated_feed (of_option row.1) (Value row.2) s')
        (Ok a) ((λ f, (f_topic_id f, f_id f)) <$> fs) = Ok s' →
  s' = {| core := core a; topics := topics a; users := users a;
          curated_feeds := curated_feeds a ++
            omap (λ f, t ← f_topic_id f; Some {| cf_topic_id := t; cf_feed_id := f_id f |}) fs;
          user_feeds := user_feeds a; user_topics := user_topics a |} ∧
  (∀ f, f ∈ fs → ∃ t, f_topic_id f = Some t ∧
                      ((t, f_id f) ∉ (cf_pair <$> curated_feeds a))).
Proof.
  revert a. induction fs as [|f fs IH]; intros a; simpl.
  - intros [= <-]. split; [by rewrite app_nil_r; destruct a|].
    intros f. by rewrite elem_of_nil.
  - destruct (insert_curated_feed (of_option (f_topic_id f)) (Value (f_id f)) a)
      as [b|e] eqn:E; [|by rewrite link_rows_err].
    apply insert_curated_feed_ok in E as (row & -> & Ht & Hf & Hp & _).
    intros [-> Hrest]%IH. simpl in *.
    destruct (f_topic_id f) as [t|] eqn:Etopic; [|done]. simpl in *.
    injection Ht as Ht. injection Hf as Hf.
    assert (row = {| cf_topic_id := t; cf_feed_id := f_id f |}) as ->.
    { destruct row; simpl in *; by subst. }
    split; [by rewrite <- app_assoc|].
    intros g [->|Hg]%elem_of_cons.
    + exists t. by rewrite Etopic.
    + destruct (Hrest g Hg) as (t' & Hg' & Hn). exists t'. split; [done|].
      intros Hin. apply Hn. rewrite fmap_app. apply elem_of_app. by left.
Qed.

Lemma link_rows_accepts (fs : list feed) (a : store) :
  NoDup (f_id <$> fs) →
  (∀ f, f ∈ fs → f_id f ∈ (f_id <$> feeds (core a))) →
  (∀ f t, f ∈ fs → f_topic_id f = Some t → t ∈ (t_id <$> topics a)) →
  (∀ f, f ∈ fs → ∃ t, f_topic_id f = Some t ∧
                      ((t, f_id f) ∉ (cf_pair <$> curated_feeds a))) →
  ∃ s', foldl (λ acc row, s' ← acc;
                 insert_curated_feed (of_option row.1) (Value row.2) s')
              (Ok a) ((λ f, (f_topic_id f, f_id f)) <$> fs) = Ok s'.
Proof.
  revert a. induction fs as [|f fs IH]; intros a Hnd Hfeeds Htopics Hfree; simpl.
  - by eexists.
  - rewrite fmap_cons in Hnd. apply NoDup_cons in Hnd as [Hf Hnd].
    destruct (Hfree f) as (t & Ht & Hn); [apply list_elem_of_here|].
    assert (insert_curated_feed (of_option (f_topic_id f)) (Value (f_id f)) a =
            Ok {| core := core a; topics := topics a; users := users a;
                  curated_feeds := curated_feeds a ++
                                   [{| cf_topic_id := t; cf_feed_id := f_id f |}];
                  user_feeds := user_feeds a; user_topics := user_topics a |}) as ->.
    { unfold insert_curated_feed. rewrite Ht. simpl.
      unfold unique. rewrite decide_False by done. simpl.
      rewrite (references_in t)
        by (eapply Htopics; [apply list_elem_of_here|done]). simpl.
      rewrite (references_in (f_id f)) by (apply Hfeeds; apply list_elem_of_here).
      done. }
    apply IH; simpl.
    + done.
    + intros g Hg. apply Hfeeds. by apply list_elem_of_further.
    + intros g t' Hg. apply Htopics. by apply list_elem_of_further.
    + intros g Hg. destruct (Hfree g) as (t' & Hg' & Hn'); [by apply list_elem_of_further|].
      exists t'. split; [done|]. rewrite fmap_app. simpl.
      intros [Hin|Hin%list_elem_of_singleton]%elem_of_app; [done|].
      injection Hin as _ Hid. apply Hf. rewrite <- Hid.
      apply list_elem_of_fmap. by exists g.
Qed.

Lemma selected_same (only : option string) (s s' : store) :
  feeds (core s') = feeds (core s) → topics s' = topics s →
  filter (λ f, selected only s' f = true) (feeds (core s')) =
  filter (λ f, selected only s f = true) (feeds (core s)).
Proof.
  intros -> Ht. apply list_filter_iff. intros f.
  unfold selected, topic_by_slug. by rewrite Ht.
Qed.

(** X30: the statement that links the curated feeds to their topics,
    [INSERT INTO curated_feeds ... SELECT ... FROM feeds].  On a store
    whose keys and references hold it goes through exactly when every
    feed it selects has a topic and is not linked to it yet.  It then
    adds one link for each selected feed, behind those there, and
    touches nothing else.  Run a second time it fails on a unique
    violation as soon as it selects a feed at all, which is why the
    later migration selects the feeds of its new topic only.  And a
    topic it has linked can no longer be deleted. *)
Theorem link_curated_feeds_once (only : option string) (s : store) :
  keys_hold s → references_hold s →
  let chosen := filter (λ f, selected only s f = true) (feeds (core s)) in
  ((∃ s', link_curated_feeds only s = Ok s') ↔
     ∀ f, f ∈ chosen → ∃ t, f_topic_id f = Some t ∧
                            ((t, f_id f) ∉ (cf_pair <$> curated_feeds s))) ∧
  (∀ s', link_curated_feeds only s = Ok s' →
     curated_feeds s' = curated_feeds s ++ curated_links only s ∧
     length (curated_links only s) = length chosen ∧
     core s' = core s ∧ topics s' = topics s ∧ users s' = users s ∧
     user_feeds s' = user_feeds s ∧ user_topics s' = user_topics s ∧
     (chosen ≠ [] → link_curated_feeds only s' = Err unique_violation) ∧
     (∀ f t, f ∈ chosen → f_topic_id f = Some t →
             delete_topic t s' = Err foreign_key_violation)).
Proof.
  intros Hk Hr chosen.
  destruct Hk as (_ & _ & _ & _ & _ & _ & Kf & _).
  destruct Hr as (R1 & _).
  assert (chosen `sublist_of` feeds (core s)) as Hsub by apply sublist_filter.
  split.
  - split.
    + intros [s' Hs']. unfold link_curated_feeds, curated_selection in Hs'.
      by apply link_rows_ok in Hs' as [_ ?].
    + intros Hfree. unfold link_curated_feeds, curated_selection.
      apply link_rows_accepts; [| | |done].
      * eapply NoDup_fmap_sublist; done.
      * intros f Hf. apply list_elem_of_fmap. exists f. split; [done|].
        by apply list_elem_of_filter in Hf as [_ ?].
      * intros f t Hf Ht. apply (R1 f); [|done].
        by apply list_elem_of_filter in Hf as [_ ?].
  - intros s' Hs'. unfold link_curated_feeds, curated_selection in Hs'.
    apply link_rows_ok in Hs' as [-> Hfree]. fold chosen in Hfree |- *. simpl.
    assert (length (curated_links only s) = length chosen) as Hlen.
    { unfold curated_links. fold chosen. clear Hsub.
      induction chosen as [|f fs IH]; [done|]. simpl.
      destruct (Hfree f) as (t & Ht & _); [apply list_elem_of_here|].
      rewrite Ht. simpl. f_equal. apply IH.
      intros g Hg. apply Hfree. by apply list_elem_of_further. }
    split_and!; try done.
    + intros Hne. unfold link_curated_feeds, curated_selection.
      rewrite (selected_same only s) by done. fold chosen.
      destruct chosen as [|f fs] eqn:E; [done|]. simpl.
      destruct (Hfree f) as (t & Ht & _); [apply list_elem_of_here|].
      unfold insert_curated_feed at 2. rewrite Ht. simpl.
      unfold unique. rewrite decide_True; [simpl; apply link_rows_err|].
      rewrite fmap_app. apply elem_of_app. right. simpl. apply list_elem_of_here.
    + intros f t Hf Ht. unfold delete_topic. simpl. rewrite decide_True; [done|].
      apply list_elem_of_fmap. exists f. split; [done|].
      by apply list_elem_of_filter in Hf as [_ ?].
Qed.

Lemma link_curated_feeds_once_witness :
  length (curated_feeds (exec AccountsExamples.seeded (LinkCuratedFeeds None))) = 1%nat ∧
  link_curated_feeds None (exec AccountsExamples.seeded (LinkCuratedFeeds None))
    = Err unique_violation.
Proof.
  destruct (link_curated_feeds_once None AccountsExamples.seeded
              (reached_keys_hold _) (reached_references_hold _)) as [_ H].
  destruct (H (exec AccountsExamples.seeded (LinkCuratedFeeds None)) eq_refl)
    as (Hc & _ & _ & _ & _ & _ & _ & Htwice & _).
  split.
  - rewrite Hc. reflexivity.
  - apply Htwice. discriminate.
Defined.

End AccountsProps.
